(** * Tab organizer: the Import Order strategy

    A shallow embedding of [ImportOrderStrategy] (importOrderStrategy.ts):
    the reference resolver, the alias-table loader, the extraction cache,
    the tab-path matcher, the Kahn-style score calculator and the final
    comparator sort, together with the properties the specification states
    about them.

    Conventions of the embedding.
    - A JavaScript string is a [string]; its truthiness is "not empty".
    - A [Set<string>] is the list of its members in insertion order; a
      [Map<string, V>] and the plain object used as [ImportGraph] are
      association lists in insertion order, updated in place.
    - The numbers of the program are counters and depths: [nat]; the
      comparator of [sort] returns a [Z].
    - What the program asks of its environment (VS Code, node's [fs] and
      [path], [JSON.parse], the regular-expression engine, the collation of
      [localeCompare]) is a field of the record [Host].
    - The fields of the strategy object are the record [Strategy]; a method
      that mutates them returns the new record next to its result.
    - The [while] loop of the score calculator takes fuel, one unit per
      iteration; the properties show that any fuel above the number of
      tabs lets it run to its end.
    - Paths are taken not to be integer-like strings nor names of members
      of [Object.prototype], so that the object [ImportGraph] enumerates
      and reads its keys as a map in insertion order does. *)

From Stdlib Require Import String Ascii List Bool Arith ZArith Lia.
From Stdlib Require Import Permutation Sorted DecimalString.
Import ListNotations.
Open Scope list_scope.
Open Scope string_scope.

Set Implicit Arguments.
Set Warnings "-register-all".

(** ** JavaScript values used by the strategy *)

Module JS.

(** [!s] is false exactly for a non-empty string. *)
Definition truthy (s : string) : bool := negb (String.eqb s "").

(** [s.startsWith(p)] *)
Definition startsWith (s p : string) : bool := String.prefix p s.

(** [s.slice(n)] for [0 <= n]. *)
Definition slice (s : string) (n : nat) : string :=
  String.substring n (String.length s - n) s.

(** [s.split(sep)] for a separator of one character. *)
Fixpoint split (sep : ascii) (s : string) : list string :=
  match s with
  | EmptyString => [EmptyString]
  | String c s' =>
      if Ascii.eqb c sep then EmptyString :: split sep s'
      else match split sep s' with
           | [] => [String c EmptyString]
           | seg :: rest => String c seg :: rest
           end
  end.

(** [x || d] on a [number | undefined]: [undefined] and [0] are falsy. *)
Definition numOr (o : option nat) (d : nat) : nat :=
  match o with
  | Some (S n) => S n
  | _ => d
  end.

(** *** [Set<string>] in insertion order *)
Definition set_has (s : list string) (x : string) : bool :=
  existsb (String.eqb x) s.

Definition set_add (s : list string) (x : string) : list string :=
  if set_has s x then s else (s ++ [x])%list.

(** [new Set(xs)] *)
Definition set_of (xs : list string) : list string :=
  fold_left set_add xs [].

(** *** [Map<string, V>] and string-keyed objects in insertion order *)
Section MapOps.
Variable V : Type.

Fixpoint map_get (m : list (string * V)) (k : string) : option V :=
  match m with
  | [] => None
  | (k', v) :: m' => if String.eqb k' k then Some v else map_get m' k
  end.

Definition map_has (m : list (string * V)) (k : string) : bool :=
  match map_get m k with Some _ => true | None => false end.

Fixpoint map_set (m : list (string * V)) (k : string) (v : V)
  : list (string * V) :=
  match m with
  | [] => [(k, v)]
  | (k', v') :: m' =>
      if String.eqb k' k then (k', v) :: m'
      else (k', v') :: map_set m' k v
  end.

Definition map_keys (m : list (string * V)) : list string := map fst m.
Definition map_values (m : list (string * V)) : list V := map snd m.
End MapOps.

(** *** JSON documents, as [JSON.parse] returns them.  An object lists its
    members in the order [Object.keys] enumerates them. *)
Inductive json : Type :=
| JNull
| JBool (b : bool)
| JNum (z : Z)
| JStr (s : string)
| JArr (items : list json)
| JObj (members : list (string * json)).

End JS.
Import JS.

(** ** The environment *)

Record Host : Type := {
  (** [vscode.workspace.textDocuments.find(d => d.uri.fsPath === p)?.getText()] *)
  openDocumentText : string -> option string;
  (** [fs.readFileSync(p, "utf8")]; [None] when it throws. *)
  readFileSync : string -> option string;
  (** [fs.existsSync(p)] *)
  existsSync : string -> bool;
  (** [vscode.workspace.workspaceFolders?.[0]?.uri.fsPath] *)
  workspaceRoot : option string;
  (** [config.get("aliasConfigFiles") || []] *)
  aliasConfigFiles : list string;
  (** node's [path] module *)
  path_sep : ascii;
  path_dirname : string -> string;
  path_resolve : string -> string -> string;
  path_join : string -> string -> string;
  (** The first capture group of every match of the three import patterns
      over a text: all matches of the first pattern, then of the second,
      then of the third. *)
  scanImports : string -> list string;
  (** The two [replace] calls that strip block and line comments. *)
  stripComments : string -> string;
  (** [JSON.parse]; [None] when it throws. *)
  JSON_parse : string -> option json;
  (** [a.localeCompare(b)] in the default locale. *)
  localeCompare : string -> string -> Z
}.

(** ** The strategy object *)

Definition ImportGraph := list (string * list string).

Record Strategy : Type := {
  importGraph : ImportGraph;
  importCache : list (string * list string);
  pathAliases : option (list (string * string));
  baseUrl : option string
}.

Definition newStrategy : Strategy :=
  {| importGraph := []; importCache := []; pathAliases := None; baseUrl := None |}.

(** [clearCache()] *)
Definition clearCache (_ : Strategy) : Strategy :=
  {| importGraph := []; importCache := []; pathAliases := None; baseUrl := None |}.

(** A tab: its identity and [input?.uri?.fsPath]. *)
Record Tab : Type := {
  tabId : nat;
  fsPath : option string
}.

Definition getTabPath (t : Tab) : option string := fsPath t.

(** ** Extension and index probing *)

Section Probing.
Variable env : Host.

Definition fileExists (p : string) : bool := existsSync env p.

Definition extensions : list string := [".ts"; ".tsx"; ".js"; ".jsx"; ""].
Definition indexExtensions : list string := [".ts"; ".tsx"; ".js"; ".jsx"].

(** The first loop of [resolveWithExtensions]. *)
Fixpoint probeExtensions (resolved : string) (exts : list string)
  : option string :=
  match exts with
  | [] => None
  | ext :: rest =>
      let testPath := resolved ++ ext in
      if fileExists testPath then Some testPath
      else probeExtensions resolved rest
  end.

(** The second loop of [resolveWithExtensions]. *)
Fixpoint probeIndex (resolved : string) (exts : list string)
  : option string :=
  match exts with
  | [] => None
  | ext :: rest =>
      let testPath := path_join env resolved ("index" ++ ext) in
      if fileExists testPath then Some testPath
      else probeIndex resolved rest
  end.

Definition resolveWithExtensions (resolved : string) : option string :=
  match probeExtensions resolved extensions with
  | Some p => Some p
  | None => probeIndex resolved indexExtensions
  end.

(** The probes in the order the code issues them. *)
Definition probeOrder (resolved : string) : list string :=
  app (map (fun ext => resolved ++ ext) extensions)
      (map (fun ext => path_join env resolved ("index" ++ ext)) indexExtensions).

(** The probes in the order the specification lists them: the bare
    candidate first, then the extension list, then the index files. *)
Definition probeOrderAsSpecified (resolved : string) : list string :=
  resolved :: probeOrder resolved.

(** The first candidate of a list that the file probe reports. *)
Fixpoint firstExisting (cands : list string) : option string :=
  match cands with
  | [] => None
  | p :: rest => if fileExists p then Some p else firstExisting rest
  end.
End Probing.

(** ** The tab-path matcher *)

Section Matcher.
Variable sep : ascii.

(** [a[i] === b[j]] on array reads that may be [undefined]. *)
Definition segEq (a b : option string) : bool :=
  match a, b with
  | Some x, Some y => String.eqb x y
  | None, None => true
  | _, _ => false
  end.

(** The inner [for (let i = 1; i <= minLength; i++)] loop; [n] is the
    number of iterations left. *)
Fixpoint suffixLoop (n i matchLength : nat) (rs ts : list string) : nat :=
  match n with
  | 0 => matchLength
  | S n' =>
      let resolvedSeg := nth_error rs (length rs - i) in
      let tabSeg := nth_error ts (length ts - i) in
      if segEq resolvedSeg tabSeg
      then suffixLoop n' (S i) (S matchLength) rs ts
      else matchLength
  end.

Definition suffixMatchLength (rs ts : list string) : nat :=
  suffixLoop (Nat.min (length rs) (length ts)) 1 0 rs ts.

(** The [for (const tabPath of tabPaths)] loop. *)
Fixpoint matchLoop (resolvedSegments : list string) (tabPaths : list string)
  (bestMatch : option string) (bestMatchLength : nat) : option string :=
  match tabPaths with
  | [] => bestMatch
  | tabPath :: rest =>
      let tabSegments := split sep tabPath in
      let matchLength := suffixMatchLength resolvedSegments tabSegments in
      if (2 <=? matchLength)%nat && (bestMatchLength <? matchLength)%nat
      then matchLoop resolvedSegments rest (Some tabPath) matchLength
      else matchLoop resolvedSegments rest bestMatch bestMatchLength
  end.

Definition findMatchingTabPath (resolvedPath : string)
  (tabPaths : list string) : option string :=
  if set_has tabPaths resolvedPath then Some resolvedPath
  else matchLoop (split sep resolvedPath) tabPaths None 0.

(** Specification side: the number of equal trailing segments of two
    paths, as the length of the common prefix of the reversed segment
    lists. *)
Fixpoint commonPrefixLength (a b : list string) : nat :=
  match a, b with
  | x :: a', y :: b' =>
      if String.eqb x y then S (commonPrefixLength a' b') else 0
  | _, _ => 0
  end.

Definition trailingRun (p q : string) : nat :=
  commonPrefixLength (rev (split sep p)) (rev (split sep q)).
End Matcher.

(** ** The alias-table loader *)

Section Loader.
Variable env : Host.

(** Truthiness of a parsed JSON value. *)
Definition jsonTruthy (v : json) : bool :=
  match v with
  | JNull => false
  | JBool b => b
  | JNum z => negb (Z.eqb z 0)
  | JStr s => truthy s
  | JArr _ | JObj _ => true
  end.

(** [v.key] on a parsed JSON value, for the keys the loader reads
    ([compilerOptions], [paths], [baseUrl]): [None] is the TypeError of
    reading a property of [null], [Some None] is [undefined]. *)
Definition getProp (v : json) (key : string) : option (option json) :=
  match v with
  | JNull => None
  | JObj members => Some (map_get members key)
  | _ => Some None
  end.

Definition indexKey (i : nat) : string :=
  NilEmpty.string_of_uint (Nat.to_uint i).

Fixpoint indexed (A : Type) (i : nat) (l : list A) : list (string * A) :=
  match l with
  | [] => []
  | x :: l' => (indexKey i, x) :: indexed (S i) l'
  end.

Fixpoint chars (s : string) : list json :=
  match s with
  | EmptyString => []
  | String c s' => JStr (String c EmptyString) :: chars s'
  end.

(** [Object.entries(v)] for a truthy JSON value. *)
Definition objectEntries (v : json) : list (string * json) :=
  match v with
  | JObj members => members
  | JArr items => indexed 0 items
  | JStr s => indexed 0 (chars s)
  | _ => []
  end.

(** [Object.keys(v)] *)
Definition objectKeys (v : json) : list string := map fst (objectEntries v).

(** [s.replace(/\/\*$/, "")] *)
Definition stripWildcard (s : string) : string :=
  let n := String.length s in
  if (2 <=? n)%nat && String.eqb (String.substring (n - 2) 2 s) "/*"
  then String.substring 0 (n - 2) s
  else s.

(** The loop over [Object.entries(paths)].  The boolean is [true] when
    [targets[0].replace] raised a TypeError (the first target is not a
    string); the aliases set before the error stay in the table. *)
Fixpoint setAliases (entries : list (string * json))
  (aliases : list (string * string)) : list (string * string) * bool :=
  match entries with
  | [] => (aliases, false)
  | (alias, targets) :: rest =>
      match targets with
      | JArr (first :: _) =>
          let cleanAlias := stripWildcard alias in
          match first with
          | JStr target =>
              setAliases rest (map_set aliases cleanAlias (stripWildcard target))
          | _ => (aliases, true)
          end
      | _ => setAliases rest aliases
      end
  end.

(** The part of the alias state one candidate may change, and whether the
    loop goes on to the next candidate. *)
Record AliasState : Type := {
  aliasTable : list (string * string);
  aliasBase : option string
}.

Inductive Flow : Type := Continue | Break.

(** The [try] block applied to a parsed document. *)
Definition readConfig (workspaceRoot : string) (config : json)
  (a : AliasState) : AliasState * Flow :=
  match getProp config "compilerOptions" with
  | None => (a, Continue)
  | Some co =>
      let compilerOptions :=
        match co with
        | Some v => if jsonTruthy v then v else JObj []
        | None => JObj []
        end in
      match getProp compilerOptions "paths" with
      | None => (a, Continue)
      | Some None => (a, Continue)
      | Some (Some paths) =>
          if negb (jsonTruthy paths) || (length (objectKeys paths) =? 0)%nat
          then (a, Continue)
          else
            let newBase :=
              match getProp compilerOptions "baseUrl" with
              | Some (Some b) =>
                  if jsonTruthy b then
                    match b with
                    | JStr s => Some (Some (path_resolve env workspaceRoot s))
                    | _ => None
                    end
                  else Some (Some workspaceRoot)
              | _ => Some (Some workspaceRoot)
              end in
            match newBase with
            | None => (a, Continue)
            | Some base =>
                let (table, threw) := setAliases (objectEntries paths) (aliasTable a) in
                ({| aliasTable := table; aliasBase := base |},
                 if threw then Continue else Break)
            end
      end
  end.

(** One iteration of [for (const configFile of configFiles)]. *)
Definition tryConfigFile (workspaceRoot configFile : string)
  (a : AliasState) : AliasState * Flow :=
  let configPath := path_join env workspaceRoot configFile in
  if negb (existsSync env configPath) then (a, Continue)
  else
    match readFileSync env configPath with
    | None => (a, Continue)
    | Some content =>
        match JSON_parse env (stripComments env content) with
        | None => (a, Continue)
        | Some config => readConfig workspaceRoot config a
        end
    end.

Fixpoint scanConfigFiles (workspaceRoot : string) (configFiles : list string)
  (a : AliasState) : AliasState :=
  match configFiles with
  | [] => a
  | configFile :: rest =>
      match tryConfigFile workspaceRoot configFile a with
      | (a', Break) => a'
      | (a', Continue) => scanConfigFiles workspaceRoot rest a'
      end
  end.

Definition loadPathAliases (st : Strategy) : Strategy :=
  match pathAliases st with
  | Some _ => st
  | None =>
      let empty := {| aliasTable := []; aliasBase := baseUrl st |} in
      let a :=
        match workspaceRoot env with
        | Some root =>
            if truthy root
            then scanConfigFiles root (aliasConfigFiles env) empty
            else empty
        | None => empty
        end in
      {| importGraph := importGraph st;
         importCache := importCache st;
         pathAliases := Some (aliasTable a);
         baseUrl := aliasBase a |}
  end.
End Loader.

(** ** The path resolver and the reference extractor *)

Section Extraction.
Variable env : Host.

(** The [for (const [alias, target] of this.pathAliases)] loop. *)
Fixpoint resolveAlias (base importPath : string)
  (aliases : list (string * string)) : option string :=
  match aliases with
  | [] => None
  | (alias, target) :: rest =>
      if String.eqb importPath alias || startsWith importPath (alias ++ "/")
      then
        let remainder := slice importPath (String.length alias) in
        resolveWithExtensions env (path_join env base (target ++ remainder))
      else resolveAlias base importPath rest
  end.

Definition resolveImportPath (st : Strategy) (fromFile importPath : string)
  : Strategy * option string :=
  if startsWith importPath "." || startsWith importPath "/" then
    let dir := path_dirname env fromFile in
    (st, resolveWithExtensions env (path_resolve env dir importPath))
  else
    let st' := loadPathAliases env st in
    match pathAliases st', baseUrl st' with
    | Some aliases, Some base =>
        if truthy base then (st', resolveAlias base importPath aliases)
        else (st', None)
    | _, _ => (st', None)
    end.

Definition setCache (st : Strategy) (filePath : string)
  (imports : list string) : Strategy :=
  {| importGraph := importGraph st;
     importCache := map_set (importCache st) filePath imports;
     pathAliases := pathAliases st;
     baseUrl := baseUrl st |}.

(** The two nested loops over the patterns and their matches. *)
Fixpoint resolveMatches (st : Strategy) (filePath : string)
  (matches : list string) (imports : list string)
  : Strategy * list string :=
  match matches with
  | [] => (st, imports)
  | importPath :: rest =>
      let (st', resolvedPath) := resolveImportPath st filePath importPath in
      match resolvedPath with
      | Some r =>
          if truthy r then resolveMatches st' filePath rest (set_add imports r)
          else resolveMatches st' filePath rest imports
      | None => resolveMatches st' filePath rest imports
      end
  end.

Definition extractImports (st : Strategy) (filePath : string)
  : Strategy * list string :=
  match map_get (importCache st) filePath with
  | Some cached => (st, cached)
  | None =>
      let text :=
        match openDocumentText env filePath with
        | Some t => Some t
        | None => readFileSync env filePath
        end in
      match text with
      | None => (setCache st filePath [], [])
      | Some text =>
          if negb (truthy text) then (setCache st filePath [], [])
          else
            let (st', imports) :=
              resolveMatches st filePath (scanImports env text) [] in
            (setCache st' filePath imports, imports)
      end
  end.

Definition setGraph (st : Strategy) (g : ImportGraph) : Strategy :=
  {| importGraph := g;
     importCache := importCache st;
     pathAliases := pathAliases st;
     baseUrl := baseUrl st |}.

(** The loop of [buildImportGraph]. *)
Fixpoint buildLoop (st : Strategy) (tabs : list Tab) : Strategy :=
  match tabs with
  | [] => st
  | tab :: rest =>
      match getTabPath tab with
      | Some filePath =>
          if truthy filePath then
            let (st', imports) := extractImports st filePath in
            buildLoop (setGraph st' (map_set (importGraph st') filePath imports)) rest
          else buildLoop st rest
      | None => buildLoop st rest
      end
  end.

Definition buildImportGraph (st : Strategy) (tabs : list Tab) : Strategy :=
  buildLoop (setGraph st []) tabs.
End Extraction.

(** ** The score calculator *)

Section Scores.
Variable sep : ascii.

(** [tabs.map(tab => this.getTabPath(tab)).filter(p => p !== undefined)] *)
Fixpoint definedPaths (tabs : list Tab) : list string :=
  match tabs with
  | [] => []
  | tab :: rest =>
      match getTabPath tab with
      | Some p => p :: definedPaths rest
      | None => definedPaths rest
      end
  end.

Definition tabPathsOf (tabs : list Tab) : list string :=
  set_of (definedPaths tabs).

(** [for (const filePath of tabPaths) incomingCount.set(filePath, 0)] *)
Definition initCounts (tabPaths : list string) : list (string * nat) :=
  fold_left (fun m filePath => map_set m filePath 0) tabPaths [].

Record Counting : Type := {
  resolvedToTabPath : list (string * string);
  incomingCount : list (string * nat)
}.

(** [for (const imported of imports)] of the counting pass. *)
Fixpoint countImports (tabPaths imports : list string) (c : Counting)
  : Counting :=
  match imports with
  | [] => c
  | imported :: rest =>
      match findMatchingTabPath sep imported tabPaths with
      | Some matchingTab =>
          if truthy matchingTab then
            countImports tabPaths rest
              {| resolvedToTabPath :=
                   map_set (resolvedToTabPath c) imported matchingTab;
                 incomingCount :=
                   map_set (incomingCount c) matchingTab
                     (numOr (map_get (incomingCount c) matchingTab) 0 + 1) |}
          else countImports tabPaths rest c
      | None => countImports tabPaths rest c
      end
  end.

(** [for (const [, imports] of Object.entries(this.importGraph))] *)
Fixpoint countGraph (tabPaths : list string) (entries : ImportGraph)
  (c : Counting) : Counting :=
  match entries with
  | [] => c
  | (_, imports) :: rest =>
      countGraph tabPaths rest (countImports tabPaths imports c)
  end.

Record Traversal : Type := {
  queue : list string;
  depths : list (string * nat);
  remaining : list (string * nat)
}.

(** [for (const [filePath, count] of incomingCount)]: the seeds. *)
Fixpoint seedQueue (entries : list (string * nat)) (q : list string)
  (d : list (string * nat)) : list string * list (string * nat) :=
  match entries with
  | [] => (q, d)
  | (filePath, count) :: rest =>
      if (count =? 0)%nat
      then seedQueue rest (q ++ [filePath])%list (map_set d filePath 0)
      else seedQueue rest q d
  end.

(** [for (const imported of imports)] of the traversal. *)
Fixpoint visitImports (r2t : list (string * string)) (imports : list string)
  (currentDepth : nat) (t : Traversal) : Traversal :=
  match imports with
  | [] => t
  | imported :: rest =>
      match map_get r2t imported with
      | Some matchingTab =>
          if truthy matchingTab then
            let newCount := numOr (map_get (remaining t) matchingTab) 1 - 1 in
            let existingDepth := numOr (map_get (depths t) matchingTab) 0 in
            visitImports r2t rest currentDepth
              {| queue := if (newCount =? 0)%nat
                          then (queue t ++ [matchingTab])%list
                          else queue t;
                 depths := map_set (depths t) matchingTab
                             (Nat.max existingDepth (currentDepth + 1));
                 remaining := map_set (remaining t) matchingTab newCount |}
          else visitImports r2t rest currentDepth t
      | None => visitImports r2t rest currentDepth t
      end
  end.

(** One iteration of [while (queue.length > 0)]. *)
Definition visit (graph : ImportGraph) (r2t : list (string * string))
  (current : string) (t : Traversal) : Traversal :=
  let currentDepth := numOr (map_get (depths t) current) 0 in
  let imports :=
    match map_get graph current with
    | Some s => s
    | None => []
    end in
  visitImports r2t imports currentDepth t.

(** The [while] loop; [None] when the fuel runs out before the queue is
    empty. *)
Fixpoint drain (fuel : nat) (graph : ImportGraph)
  (r2t : list (string * string)) (t : Traversal) : option Traversal :=
  match queue t with
  | [] => Some t
  | current :: rest =>
      match fuel with
      | 0 => None
      | S fuel' =>
          drain fuel' graph r2t
            (visit graph r2t current
               {| queue := rest; depths := depths t; remaining := remaining t |})
      end
  end.

(** [Math.max(...Array.from(depths.values()), 0)] *)
Definition maxDepthOf (d : list (string * nat)) : nat :=
  fold_right Nat.max 0 (map_values d).

(** The last loop: paths without a depth get [maxDepth + 1]. *)
Fixpoint assignRemaining (tabPaths : list string) (maxDepth : nat)
  (d : list (string * nat)) : list (string * nat) :=
  match tabPaths with
  | [] => d
  | filePath :: rest =>
      if map_has d filePath then assignRemaining rest maxDepth d
      else assignRemaining rest maxDepth (map_set d filePath (maxDepth + 1))
  end.

(** The state of the traversal when the [while] loop starts. *)
Definition startTraversal (graph : ImportGraph) (tabPaths : list string)
  : Counting * Traversal :=
  let c := countGraph tabPaths graph
             {| resolvedToTabPath := []; incomingCount := initCounts tabPaths |} in
  let (q, d) := seedQueue (incomingCount c) [] [] in
  (c, {| queue := q; depths := d; remaining := incomingCount c |}).

(** The state of the traversal when the [while] loop ends. *)
Definition drained (fuel : nat) (graph : ImportGraph) (tabs : list Tab)
  : option Traversal :=
  let (c, t) := startTraversal graph (tabPathsOf tabs) in
  drain fuel graph (resolvedToTabPath c) t.

Definition calculateImportScores (fuel : nat) (graph : ImportGraph)
  (tabs : list Tab) : option (list (string * nat)) :=
  match drained fuel graph tabs with
  | Some t =>
      Some (assignRemaining (tabPathsOf tabs) (maxDepthOf (depths t)) (depths t))
  | None => None
  end.
End Scores.

(** ** The strategy facade *)

Section Facade.
Variable env : Host.

(** A tab's path when it is truthy. *)
Definition sortablePath (t : Tab) : option string :=
  match getTabPath t with
  | Some p => if truthy p then Some p else None
  | None => None
  end.

(** The comparator handed to [Array.prototype.sort]. *)
Definition compareTabs (scores : list (string * nat)) (a b : Tab) : Z :=
  match sortablePath a, sortablePath b with
  | None, None => 0
  | None, Some _ => 1
  | Some _, None => -1
  | Some pathA, Some pathB =>
      let depthA := numOr (map_get scores pathA) 0 in
      let depthB := numOr (map_get scores pathB) 0 in
      if negb (depthA =? depthB)%nat
      then Z.of_nat depthA - Z.of_nat depthB
      else localeCompare env pathA pathB
  end%Z.

(** [Array.prototype.sort] is stable; on a comparator that is a total
    preorder every stable sort returns the same array.  It is modelled as
    the stable insertion sort. *)
Section ArraySort.
Variable A : Type.
Variable cmp : A -> A -> Z.

Fixpoint insertSorted (x : A) (l : list A) : list A :=
  match l with
  | [] => [x]
  | y :: l' =>
      if (0 <? cmp x y)%Z then y :: insertSorted x l'
      else x :: y :: l'
  end.

Fixpoint arraySort (l : list A) : list A :=
  match l with
  | [] => []
  | x :: l' => insertSorted x (arraySort l')
  end.
End ArraySort.

(** [sort(tabs)]: the new state of the strategy and the ordered tabs. *)
Definition sort (fuel : nat) (st : Strategy) (tabs : list Tab)
  : option (Strategy * list Tab) :=
  let st1 := buildImportGraph env st tabs in
  match calculateImportScores (path_sep env) fuel (importGraph st1) tabs with
  | Some scores => Some (st1, arraySort (compareTabs scores) tabs)
  | None => None
  end.
End Facade.

(** ** Ghost definitions used to state the properties *)

Section Ghost.
Variable sep : ascii.

(** The files the [while] loop dequeues, in order. *)
Fixpoint visitOrder (fuel : nat) (graph : ImportGraph)
  (r2t : list (string * string)) (t : Traversal) : list string :=
  match queue t with
  | [] => []
  | current :: rest =>
      match fuel with
      | 0 => []
      | S fuel' =>
          current ::
          visitOrder fuel' graph r2t
            (visit graph r2t current
               {| queue := rest; depths := depths t; remaining := remaining t |})
      end
  end.

(** The states of the traversal each time the [while] condition is
    evaluated. *)
Fixpoint traversalStates (fuel : nat) (graph : ImportGraph)
  (r2t : list (string * string)) (t : Traversal) : list Traversal :=
  t ::
  match queue t with
  | [] => []
  | current :: rest =>
      match fuel with
      | 0 => []
      | S fuel' =>
          traversalStates fuel' graph r2t
            (visit graph r2t current
               {| queue := rest; depths := depths t; remaining := remaining t |})
      end
  end.

(** The files dequeued by the traversal of [calculateImportScores]. *)
Definition dequeued (fuel : nat) (graph : ImportGraph) (tabs : list Tab)
  : list string :=
  let (c, t) := startTraversal sep graph (tabPathsOf tabs) in
  visitOrder fuel graph (resolvedToTabPath c) t.

(** The open files an import set is matched to: one matched edge per
    member of the set that the matcher links to a (truthy) tab path. *)
Fixpoint matchedTabs (tabPaths imports : list string) : list string :=
  match imports with
  | [] => []
  | imported :: rest =>
      match findMatchingTabPath sep imported tabPaths with
      | Some matchingTab =>
          if truthy matchingTab
          then matchingTab :: matchedTabs tabPaths rest
          else matchedTabs tabPaths rest
      | None => matchedTabs tabPaths rest
      end
  end.

(** The same edges read off the table [resolvedToTabPath], as the
    traversal does. *)
Fixpoint matchedBy (r2t : list (string * string)) (imports : list string)
  : list string :=
  match imports with
  | [] => []
  | imported :: rest =>
      match map_get r2t imported with
      | Some matchingTab =>
          if truthy matchingTab
          then matchingTab :: matchedBy r2t rest
          else matchedBy r2t rest
      | None => matchedBy r2t rest
      end
  end.

(** The body of the traversal's inner loop over the matched edges. *)
Fixpoint visitTargets (targets : list string) (currentDepth : nat)
  (t : Traversal) : Traversal :=
  match targets with
  | [] => t
  | matchingTab :: rest =>
      let newCount := numOr (map_get (remaining t) matchingTab) 1 - 1 in
      let existingDepth := numOr (map_get (depths t) matchingTab) 0 in
      visitTargets rest currentDepth
        {| queue := if (newCount =? 0)%nat
                    then (queue t ++ [matchingTab])%list
                    else queue t;
           depths := map_set (depths t) matchingTab
                       (Nat.max existingDepth (currentDepth + 1));
           remaining := map_set (remaining t) matchingTab newCount |}
  end.

(** The sum of the matched edges into [p] over the entries of a graph. *)
Fixpoint entriesInto (tabPaths : list string) (entries : ImportGraph)
  (p : string) : nat :=
  match entries with
  | [] => 0
  | (_, imports) :: rest =>
      count_occ string_dec (matchedTabs tabPaths imports) p
      + entriesInto tabPaths rest p
  end.

(** The keys of a count table whose count is zero, in order. *)
Fixpoint zeroKeys (entries : list (string * nat)) : list string :=
  match entries with
  | [] => []
  | (k, count) :: rest =>
      if (count =? 0)%nat then k :: zeroKeys rest else zeroKeys rest
  end.

(** The matched edges leaving a file. *)
Definition edgesFrom (graph : ImportGraph) (tabPaths : list string)
  (f : string) : list string :=
  match map_get graph f with
  | Some imports => matchedTabs tabPaths imports
  | None => []
  end.

(** The number of matched edges into [p] that leave one of [sources]. *)
Fixpoint edgesInto (graph : ImportGraph) (tabPaths : list string)
  (sources : list string) (p : string) : nat :=
  match sources with
  | [] => 0
  | f :: rest =>
      count_occ string_dec (edgesFrom graph tabPaths f) p
      + edgesInto graph tabPaths rest p
  end.

(** The in-degree of [p]: its matched incoming edges over the whole graph. *)
Definition inDegree (graph : ImportGraph) (tabPaths : list string)
  (p : string) : nat :=
  edgesInto graph tabPaths (map_keys graph) p.

(** The table [resolvedToTabPath] only holds answers of the matcher ... *)
Definition tableSound (tabPaths : list string)
  (r2t : list (string * string)) : Prop :=
  forall i m, map_get r2t i = Some m ->
              findMatchingTabPath sep i tabPaths = Some m.

(** ... and holds the answer for [i] when the matcher links [i] to a tab. *)
Definition tableCovers (tabPaths : list string)
  (r2t : list (string * string)) (i : string) : Prop :=
  forall m, findMatchingTabPath sep i tabPaths = Some m ->
            truthy m = true -> map_get r2t i = Some m.

(** What holds of the traversal each time the [while] condition is
    evaluated, [visited] being the files dequeued so far. *)
Record TraversalInv (graph : ImportGraph) (tabPaths : list string)
  (visited : list string) (t : Traversal) : Prop := {
  inv_nodup : NoDup (visited ++ queue t)%list;
  inv_open : forall p, In p (visited ++ queue t)%list -> In p tabPaths;
  inv_counts : forall p, In p tabPaths ->
    exists n, map_get (remaining t) p = Some n
              /\ n + edgesInto graph tabPaths visited p
                 = inDegree graph tabPaths p;
  inv_zero : forall p, In p (visited ++ queue t)%list ->
    map_get (remaining t) p = Some 0;
  inv_depth_keys : forall p,
    map_get (depths t) p <> None <->
    (In p tabPaths /\ inDegree graph tabPaths p = 0)
    \/ exists v, In v visited /\ In p (edgesFrom graph tabPaths v);
  inv_depth_roots : forall p d,
    map_get (depths t) p = Some d ->
    (d = 0 <-> inDegree graph tabPaths p = 0)
}.
End Ghost.

(** The states a strategy object reaches from [st] through extractions and
    [sort] calls, in whatever environments, without a call of
    [clearCache]. *)
Inductive ReachedWithoutClearing (st : Strategy) : Strategy -> Prop :=
| reached_here : ReachedWithoutClearing st st
| reached_extract (env : Host) (st' : Strategy) (filePath : string) :
    ReachedWithoutClearing st st' ->
    ReachedWithoutClearing st (fst (extractImports env st' filePath))
| reached_sort (env : Host) (fuel : nat) (st' st'' : Strategy)
    (tabs sorted : list Tab) :
    ReachedWithoutClearing st st' ->
    sort env fuel st' tabs = Some (st'', sorted) ->
    ReachedWithoutClearing st st''.

(** ** Candidate configuration files, as the specification classes them *)

Section Candidates.
Variable env : Host.
Variable rootDir : string.

(** A parsed document that declares no aliases: no [compilerOptions], or
    [compilerOptions] without [paths], or with an empty [paths] object. *)
Definition declaresNoPaths (config : json) : Prop :=
  exists members,
    config = JObj members
    /\ (map_get members "compilerOptions" = None
        \/ exists options,
             map_get members "compilerOptions" = Some (JObj options)
             /\ (map_get options "paths" = None
                 \/ map_get options "paths" = Some (JObj []))).

(** A candidate the loader passes over: the file is missing, cannot be
    read, does not parse after comment stripping, or declares no aliases. *)
Inductive Skipped (configFile : string) : Prop :=
| skipped_missing :
    existsSync env (path_join env rootDir configFile) = false ->
    Skipped configFile
| skipped_unreadable :
    readFileSync env (path_join env rootDir configFile) = None ->
    Skipped configFile
| skipped_malformed (content : string) :
    readFileSync env (path_join env rootDir configFile) = Some content ->
    JSON_parse env (stripComments env content) = None ->
    Skipped configFile
| skipped_no_paths (content : string) (config : json) :
    readFileSync env (path_join env rootDir configFile) = Some content ->
    JSON_parse env (stripComments env content) = Some config ->
    declaresNoPaths config ->
    Skipped configFile.

(** An entry of [paths] the loader reads without an error: whenever its
    value is a non-empty array, the first target is a string. *)
Definition readableEntry (entry : string * json) : Prop :=
  match snd entry with
  | JArr (first :: _) => exists target, first = JStr target
  | _ => True
  end.

(** The base directory a document declares: [baseUrl] resolved against the
    workspace root, or the workspace root when [baseUrl] is absent or
    empty. *)
Definition declaredBase (options : list (string * json)) : option string :=
  match map_get options "baseUrl" with
  | None => Some rootDir
  | Some (JStr s) =>
      if truthy s then Some (path_resolve env rootDir s) else Some rootDir
  | Some _ => None
  end.

(** A candidate that exists, parses, and declares a non-empty [paths]
    object of readable entries, with a [baseUrl] that is absent or a
    string. *)
Inductive Declares (configFile : string) (entries : list (string * json))
  (base : string) : Prop :=
| declares (content : string) (members options : list (string * json)) :
    existsSync env (path_join env rootDir configFile) = true ->
    readFileSync env (path_join env rootDir configFile) = Some content ->
    JSON_parse env (stripComments env content) = Some (JObj members) ->
    map_get members "compilerOptions" = Some (JObj options) ->
    map_get options "paths" = Some (JObj entries) ->
    entries <> [] ->
    Forall readableEntry entries ->
    declaredBase options = Some base ->
    Declares configFile entries base.

End Candidates.

(** ** Fixtures: a POSIX host over a finite disk *)

Module Fixture.

Fixpoint dirnameAux (p : string) : option string :=
  match p with
  | EmptyString => None
  | String c p' =>
      match dirnameAux p' with
      | Some d => Some (String c d)
      | None => if Ascii.eqb c "/" then Some EmptyString else None
      end
  end.

(** [path.dirname] on a normalized absolute path. *)
Definition posixDirname (p : string) : string :=
  match dirnameAux p with
  | Some EmptyString => "/"
  | Some d => d
  | None => "."
  end.

(** [path.resolve(dir, p)] where [p] is absolute and normalized, or a
    plain relative name without [.] and [..] segments. *)
Definition posixResolve (dir p : string) : string :=
  if startsWith p "/" then p else dir ++ "/" ++ p.

(** [path.join(a, b)] on normalized arguments, [b] relative. *)
Definition posixJoin (a b : string) : string := a ++ "/" ++ b.

(** Code-point order of two strings, as a comparator. *)
Definition codePointCompare (a b : string) : Z :=
  match String.compare a b with
  | Lt => (-1)%Z
  | Eq => 0%Z
  | Gt => 1%Z
  end.

(** A collation in the manner of the default locale on ASCII text: letters
    are compared without regard to case first; on a tie the lower-case
    letter comes first. *)
Definition foldCase (c : ascii) : nat :=
  let n := nat_of_ascii c in
  if (65 <=? n)%nat && (n <=? 90)%nat then n + 32 else n.

Fixpoint collatePrimary (a b : string) : Z :=
  match a, b with
  | EmptyString, EmptyString => 0%Z
  | EmptyString, String _ _ => (-1)%Z
  | String _ _, EmptyString => 1%Z
  | String x a', String y b' =>
      if (foldCase x <? foldCase y)%nat then (-1)%Z
      else if (foldCase y <? foldCase x)%nat then 1%Z
      else collatePrimary a' b'
  end.

Fixpoint collateCase (a b : string) : Z :=
  match a, b with
  | String x a', String y b' =>
      if Ascii.eqb x y then collateCase a' b'
      else if (nat_of_ascii y <? nat_of_ascii x)%nat then (-1)%Z else 1%Z
  | _, _ => 0%Z
  end.

Definition caseFoldingCollate (a b : string) : Z :=
  let p := collatePrimary a b in
  if (p =? 0)%Z then collateCase a b else p.

(** What a fixture fixes: the files on disk with their text, the
    directories, the workspace root, the configured alias files, what
    [JSON.parse] returns on a text, what the import patterns capture in a
    text, and the collation. *)
Record World : Type := {
  files : list (string * string);
  directories : list string;
  root : option string;
  configFiles : list string;
  documents : list (string * json);
  captures : list (string * list string);
  collation : string -> string -> Z
}.

Definition host (w : World) : Host :=
  {| openDocumentText := fun _ => None;
     readFileSync := map_get (files w);
     existsSync := fun p => map_has (files w) p || set_has (directories w) p;
     workspaceRoot := root w;
     aliasConfigFiles := configFiles w;
     path_sep := "/"%char;
     path_dirname := posixDirname;
     path_resolve := posixResolve;
     path_join := posixJoin;
     scanImports := fun text =>
       match map_get (captures w) text with
       | Some refs => refs
       | None => []
       end;
     stripComments := fun text => text;
     JSON_parse := map_get (documents w);
     localeCompare := collation w |}.

Definition tab (id : nat) (p : string) : Tab :=
  {| tabId := id; fsPath := Some p |}.

(** A directory [/proj/src/util] next to a file [/proj/src/util.ts]. *)
Definition utilWorld : World :=
  {| files := [("/proj/src/util.ts", "export const u = 1")];
     directories := ["/proj"; "/proj/src"; "/proj/src/util"];
     root := Some "/proj";
     configFiles := [];
     documents := [];
     captures := [];
     collation := codePointCompare |}.

(** A directory [/proj/src/lib] that holds an [index.ts]. *)
Definition indexWorld : World :=
{| files := [("/proj/src/lib/index.ts", "export const l = 1")];
   directories := ["/proj"; "/proj/src"; "/proj/src/lib"];
   root := Some "/proj";
   configFiles := [];
   documents := [];
   captures := [];
   collation := codePointCompare |}.

(** Three open files: [a.ts] requires [b.ts], [b.ts] requires [c.ts] and
    [c.ts] requires [b.ts]. *)
Definition chainIntoCycleWorld : World :=
  {| files := [("/p/a.ts", "require('/p/b.ts')");
               ("/p/b.ts", "require('/p/c.ts')");
               ("/p/c.ts", "const b = require('/p/b.ts')")];
     directories := ["/p"];
     root := Some "/p";
     configFiles := [];
     documents := [];
     captures := [("require('/p/b.ts')", ["/p/b.ts"]);
                  ("require('/p/c.ts')", ["/p/c.ts"]);
                  ("const b = require('/p/b.ts')", ["/p/b.ts"])];
     collation := codePointCompare |}.

Definition chainIntoCycleTabs : list Tab :=
  [tab 1 "/p/a.ts"; tab 2 "/p/b.ts"; tab 3 "/p/c.ts"].

(** Two open files whose texts each require the other. *)
Definition twoCycleWorld : World :=
  {| files := [("/p/a.ts", "require('/p/b.ts')");
               ("/p/b.ts", "require('/p/a.ts')")];
     directories := ["/p"];
     root := Some "/p";
     configFiles := [];
     documents := [];
     captures := [("require('/p/b.ts')", ["/p/b.ts"]);
                  ("require('/p/a.ts')", ["/p/a.ts"])];
     collation := codePointCompare |}.

Definition twoCycleTabs : list Tab := [tab 1 "/p/a.ts"; tab 2 "/p/b.ts"].

(** A file that imports itself, next to a file nothing imports. *)
Definition selfImportWorld : World :=
  {| files := [("/p/a.ts", "export const a = 1");
               ("/p/self.ts", "import * as me from '/p/self'")];
     directories := ["/p"];
     root := Some "/p";
     configFiles := [];
     documents := [];
     captures := [("import * as me from '/p/self'", ["/p/self"])];
     collation := codePointCompare |}.

Definition selfImportTabs : list Tab := [tab 1 "/p/a.ts"; tab 2 "/p/self.ts"].

(** Two open files without imports whose names differ in case. *)
Definition mixedCaseWorld : World :=
{| files := [("/p/B.ts", "export const b = 1");
             ("/p/a.ts", "export const a = 1")];
   directories := ["/p"];
   root := Some "/p";
   configFiles := [];
   documents := [];
   captures := [];
   collation := caseFoldingCollate |}.

Definition mixedCaseTabs : list Tab := [tab 1 "/p/B.ts"; tab 2 "/p/a.ts"].

(** An open tab whose file cannot be read, and the same disk after the
    file has become readable. *)
Definition unreadableWorld : World :=
{| files := [];
   directories := ["/p"];
   root := Some "/p";
   configFiles := [];
   documents := [];
   captures := [];
   collation := codePointCompare |}.

Definition readableAgainWorld : World :=
{| files := [("/p/a.ts", "require('/p/b.ts')"); ("/p/b.ts", "export {}")];
   directories := ["/p"];
   root := Some "/p";
   configFiles := [];
   documents := [];
   captures := [("require('/p/b.ts')", ["/p/b.ts"])];
   collation := codePointCompare |}.

(** Two configuration files (the fixture writes ['] for the double quote
    of JSON): the first declares an alias without targets, the second an
    alias with a target. *)
Definition emptyTargetsWorld : World :=
{| files := [("/proj/tsconfig.json",
              "{ 'compilerOptions': { 'paths': { '@/*': [] } } }");
             ("/proj/jsconfig.json",
              "{ 'compilerOptions': { 'paths': { '@/*': ['src/*'] } } }")];
   directories := ["/proj"];
   root := Some "/proj";
   configFiles := ["tsconfig.json"; "jsconfig.json"];
   documents :=
     [("{ 'compilerOptions': { 'paths': { '@/*': [] } } }",
       JObj [("compilerOptions", JObj [("paths", JObj [("@/*", JArr [])])])]);
      ("{ 'compilerOptions': { 'paths': { '@/*': ['src/*'] } } }",
       JObj [("compilerOptions",
              JObj [("paths", JObj [("@/*", JArr [JStr "src/*"])])])])];
   captures := [];
   collation := codePointCompare |}.

(** Two configuration files: in the first the second alias has a number
    for its first target. *)
Definition numericTargetWorld : World :=
{| files := [("/proj/tsconfig.json",
              "{ 'compilerOptions': { 'paths': { '@a/*': ['x/*'], '@b/*': [42] } } }");
             ("/proj/jsconfig.json",
              "{ 'compilerOptions': { 'paths': { '@c/*': ['y/*'] } } }")];
   directories := ["/proj"];
   root := Some "/proj";
   configFiles := ["tsconfig.json"; "jsconfig.json"];
   documents :=
     [("{ 'compilerOptions': { 'paths': { '@a/*': ['x/*'], '@b/*': [42] } } }",
       JObj [("compilerOptions",
              JObj [("paths", JObj [("@a/*", JArr [JStr "x/*"]);
                                    ("@b/*", JArr [JNum 42])])])]);
      ("{ 'compilerOptions': { 'paths': { '@c/*': ['y/*'] } } }",
       JObj [("compilerOptions",
              JObj [("paths", JObj [("@c/*", JArr [JStr "y/*"])])])])];
   captures := [];
   collation := codePointCompare |}.

(** Four candidates: a missing file, a file that does not parse, a file
    without [paths], and a file that declares an alias; a fifth that is
    never reached. *)
Definition aliasWorld : World :=
{| files := [("/proj/broken.json", "{ 'compilerOptions': ");
             ("/proj/plain.json", "{ 'compilerOptions': { 'strict': true } }");
             ("/proj/tsconfig.json",
              "{ 'compilerOptions': { 'paths': { '@/*': ['src/*', 'lib/*'] } } }");
             ("/proj/jsconfig.json",
              "{ 'compilerOptions': { 'paths': { '~/*': ['other/*'] } } }")];
   directories := ["/proj"];
   root := Some "/proj";
   configFiles := ["missing.json"; "broken.json"; "plain.json";
                   "tsconfig.json"; "jsconfig.json"];
   documents :=
     [("{ 'compilerOptions': { 'strict': true } }",
       JObj [("compilerOptions", JObj [("strict", JBool true)])]);
      ("{ 'compilerOptions': { 'paths': { '@/*': ['src/*', 'lib/*'] } } }",
       JObj [("compilerOptions",
              JObj [("paths",
                     JObj [("@/*", JArr [JStr "src/*"; JStr "lib/*"])])])]);
      ("{ 'compilerOptions': { 'paths': { '~/*': ['other/*'] } } }",
       JObj [("compilerOptions",
              JObj [("paths", JObj [("~/*", JArr [JStr "other/*"])])])])];
   captures := [];
   collation := codePointCompare |}.

End Fixture.

(** Closes [NoDup] over a list of distinct literal strings. *)
Ltac distinct_strings := repeat constructor; simpl; intuition discriminate.

(** ** Further ghost definitions *)

Section DepthOrder.
Variable sep : ascii.

(** What holds of the depths and of the counts each time the [while]
    condition is evaluated, [visited] being the files dequeued so far. *)
Record DepthInv (graph : ImportGraph) (tabPaths : list string)
  (visited : list string) (t : Traversal) : Prop := {
  dinv_nodup : NoDup (map_keys (depths t));
  dinv_known : forall v, In v (visited ++ queue t)%list ->
    map_get (depths t) v <> None;
  dinv_edges : forall v p,
    In v visited -> In p (edgesFrom sep graph tabPaths v) ->
    exists dv dp,
      map_get (depths t) v = Some dv
      /\ map_get (depths t) p = Some dp
      /\ dv + 1 <= dp;
  dinv_attained : forall p dp,
    map_get (depths t) p = Some dp -> 0 < dp ->
    exists v dv,
      In v visited
      /\ In p (edgesFrom sep graph tabPaths v)
      /\ map_get (depths t) v = Some dv
      /\ dp = dv + 1;
  dinv_complete : forall p,
    In p tabPaths -> map_get (remaining t) p = Some 0 ->
    In p (visited ++ queue t)%list
}.
End DepthOrder.

(** ** Further fixtures *)

Module MoreFixtures.
Import Fixture.

(** Three open files in a chain: [a.ts] requires [b.ts] and [c.ts], and
    [b.ts] requires [c.ts]. *)
Definition chainWorld : World :=
{| files := [("/p/a.ts", "require('/p/b.ts'); require('/p/c.ts')");
             ("/p/b.ts", "require('/p/c.ts')");
             ("/p/c.ts", "export const c = 1")];
   directories := ["/p"];
   root := Some "/p";
   configFiles := [];
   documents := [];
   captures := [("require('/p/b.ts'); require('/p/c.ts')", ["/p/b.ts"; "/p/c.ts"]);
                ("require('/p/c.ts')", ["/p/c.ts"])];
   collation := codePointCompare |}.

Definition chainTabs : list Tab :=
  [tab 1 "/p/c.ts"; tab 2 "/p/b.ts"; tab 3 "/p/a.ts"].

Definition chainGraph : ImportGraph :=
  [("/p/c.ts", []); ("/p/b.ts", ["/p/c.ts"]);
   ("/p/a.ts", ["/p/b.ts"; "/p/c.ts"])].

(** A rank that grows along the edges of [chainGraph]. *)
Definition chainRank (p : string) : nat :=
  if String.eqb p "/p/a.ts" then 0
  else if String.eqb p "/p/b.ts" then 1
  else 2.

(** A project with one wildcard alias: [@/*] for [src/*]. *)
Definition aliasedProjectWorld : World :=
{| files := [("/proj/tsconfig.json",
              "{ 'compilerOptions': { 'paths': { '@/*': ['src/*'] } } }");
             ("/proj/jsconfig.json",
              "{ 'compilerOptions': { 'paths': { '@/*': ['other/*'] } } }");
             ("/proj/src/app.ts", "import '@/components/Button'");
             ("/proj/src/components/Button.tsx", "export {}")];
   directories := ["/proj"; "/proj/src"; "/proj/src/components"];
   root := Some "/proj";
   configFiles := ["missing.json"; "tsconfig.json"; "jsconfig.json"];
   documents :=
     [("{ 'compilerOptions': { 'paths': { '@/*': ['src/*'] } } }",
       JObj [("compilerOptions",
              JObj [("paths", JObj [("@/*", JArr [JStr "src/*"])])])]);
      ("{ 'compilerOptions': { 'paths': { '@/*': ['other/*'] } } }",
       JObj [("compilerOptions",
              JObj [("paths", JObj [("@/*", JArr [JStr "other/*"])])])])];
   captures := [("import '@/components/Button'", ["@/components/Button"])];
   collation := codePointCompare |}.

End MoreFixtures.

(** The paths [buildImportGraph] extracts: those that pass the guard
    [if (!filePath) continue]. *)
Fixpoint filePaths (tabs : list Tab) : list string :=
  match tabs with
  | [] => []
  | tab :: rest =>
      match sortablePath tab with
      | Some p => p :: filePaths rest
      | None => filePaths rest
      end
  end.

(** An alias neither equal to the reference nor a path-segment prefix of
    it. *)
Definition aliasMisses (importPath : string) (entry : string * string) : Prop :=
  importPath <> fst entry
  /\ startsWith importPath (fst entry ++ "/") = false.

(** ** The other strategies and the depth helpers *)

(** [FileSystemStrategy.getPathDepth]; [sep] is [path.sep]. *)
Definition getPathDepth (sep : ascii) (relativePath : string) : nat :=
  if String.eqb relativePath "." || String.eqb relativePath "" then 0
  else length (split sep relativePath) - 1.

(** [getFileDepth(uri)], on [uri.path]. *)
Definition getFileDepth (path : string) : nat :=
  length (filter (fun p => (0 <? String.length p)%nat) (split "/" path)).

(** The number of occurrences of a character in a string. *)
Fixpoint occurrences (c : ascii) (s : string) : nat :=
  match s with
  | EmptyString => 0
  | String x s' =>
      if Ascii.eqb x c then S (occurrences c s') else occurrences c s'
  end.

Section Alphabetical.
(** [a.localeCompare(b, undefined, { numeric: true, sensitivity: "base" })] *)
Variable collate : string -> string -> Z.

(** The comparator of [AlphabeticalStrategy.sort]. *)
Definition compareAlphabetical (a b : Tab) : Z :=
  match sortablePath a, sortablePath b with
  | None, None => 0
  | None, Some _ => 1
  | Some _, None => -1
  | Some pathA, Some pathB => collate pathA pathB
  end%Z.

(** [AlphabeticalStrategy.sort] *)
Definition alphabeticalSort (tabs : list Tab) : list Tab :=
  arraySort compareAlphabetical tabs.
End Alphabetical.

(** ** Comment stripping in [loadPathAliases]

    The two [replace] calls on the text of a configuration file.  A text
    is the sequence of the bytes of its UTF-8 encoding: the bytes of [/]
    and [*] occur in the encoding of no other character, and the two line
    terminators outside ASCII, U+2028 and U+2029, are the byte sequences
    E2 80 A8 and E2 80 A9, which occur nowhere else. *)

(** [s.includes(p)] *)
Fixpoint includes (s p : string) : bool :=
  String.prefix p s
  || match s with
     | EmptyString => false
     | String _ s' => includes s' p
     end.

(** What follows the first [*/] of [s], when there is one: where the lazy
    [[\s\S]*?\*\/] ends. *)
Fixpoint afterBlockEnd (s : string) : option string :=
  match s with
  | EmptyString => None
  | String c s' =>
      match s' with
      | EmptyString => None
      | String d rest =>
          if Ascii.eqb c "*" && Ascii.eqb d "/" then Some rest
          else afterBlockEnd s'
      end
  end.

(** [content.replace(/\/\*[\s\S]*?\*\//g, "")], scanning from the left;
    [skip] counts the characters of the current match still to drop.  A
    [/*] with no [*/] after it matches nothing and is copied. *)
Fixpoint stripBlockFrom (skip : nat) (s : string) : string :=
  match s with
  | EmptyString => EmptyString
  | String c s' =>
      match skip with
      | S k => stripBlockFrom k s'
      | O =>
          match s' with
          | EmptyString => String c EmptyString
          | String d body =>
              if Ascii.eqb c "/" && Ascii.eqb d "*" then
                match afterBlockEnd body with
                | Some rest =>
                    stripBlockFrom (String.length s' - String.length rest) s'
                | None => String c (stripBlockFrom 0 s')
                end
              else String c (stripBlockFrom 0 s')
          end
      end
  end.

Definition stripBlockComments (content : string) : string :=
  stripBlockFrom 0 content.

(** The line terminators, which [.] does not match: LF, CR, U+2028 and
    U+2029. *)
Definition lineTerminators : list string :=
  [String "010" EmptyString;
   String "013" EmptyString;
   String "226" (String "128" (String "168" EmptyString));
   String "226" (String "128" (String "169" EmptyString))].

(** [s] starts with a line terminator. *)
Definition atLineTerminator (s : string) : bool :=
  match s with
  | EmptyString => false
  | String c s1 =>
      Ascii.eqb c "010" || Ascii.eqb c "013"
      || (Ascii.eqb c "226"
          && match s1 with
             | String d (String e _) =>
                 Ascii.eqb d "128" && (Ascii.eqb e "168" || Ascii.eqb e "169")
             | _ => false
             end)
  end.

(** A line terminator occurs in [s]. *)
Fixpoint hasLineTerminator (s : string) : bool :=
  match s with
  | EmptyString => false
  | String _ s' => atLineTerminator s || hasLineTerminator s'
  end.

(** [content.replace(/\/\/.*/g, "")]; [inComment] holds between a [//] and
    the end of its line. *)
Fixpoint stripLineFrom (inComment : bool) (s : string) : string :=
  match s with
  | EmptyString => EmptyString
  | String c s' =>
      if inComment then
        if atLineTerminator s then String c (stripLineFrom false s')
        else stripLineFrom true s'
      else
        match s' with
        | EmptyString => String c EmptyString
        | String d _ =>
            if Ascii.eqb c "/" && Ascii.eqb d "/" then stripLineFrom true s'
            else String c (stripLineFrom false s')
        end
  end.

Definition stripLineComments (content : string) : string :=
  stripLineFrom false content.

(** [stripped], as [loadPathAliases] computes it. *)
Definition stripJsonComments (content : string) : string :=
  stripLineComments (stripBlockComments content).

(** ** [TabOrganizer.organize]: applying the sorted order to a group

    The tabs of a group are objects; two tabs of the model are the same
    object when they are equal. *)

Definition Tab_eq_dec (a b : Tab) : {a = b} + {a <> b}.
Proof. repeat decide equality. Defined.

(** [input.uri] is there. *)
Definition hasUri (t : Tab) : bool :=
  match fsPath t with
  | Some _ => true
  | None => false
  end.

(** [Map<vscode.Tab, number>] in insertion order. *)
Definition TabIndices : Type := list (Tab * nat).

Fixpoint indices_get (m : TabIndices) (t : Tab) : option nat :=
  match m with
  | [] => None
  | (t', i) :: m' => if Tab_eq_dec t' t then Some i else indices_get m' t
  end.

Fixpoint indices_set (m : TabIndices) (t : Tab) (i : nat) : TabIndices :=
  match m with
  | [] => [(t, i)]
  | (t', i') :: m' =>
      if Tab_eq_dec t' t then (t', i) :: m'
      else (t', i') :: indices_set m' t i
  end.

(** [tabs.forEach((tab, index) => currentIndices.set(tab, index))] *)
Fixpoint indexTabs (tabs : list Tab) (index : nat) (m : TabIndices)
  : TabIndices :=
  match tabs with
  | [] => m
  | tab :: rest => indexTabs rest (S index) (indices_set m tab index)
  end.

Inductive Command : Type :=
| moveEditorLeftInGroup
| moveEditorRightInGroup.

(** The editor group on the side of the workbench: its editors in order,
    and the active one.  The group holds the tabs with an input only. *)
Record EditorGroup : Type := {
  editors : list Tab;
  activeEditor : option Tab
}.

(** [showTextDocument(input.uri, { viewColumn, preserveFocus: false })]
    on a document the group shows. *)
Definition showTextDocument (t : Tab) (g : EditorGroup) : EditorGroup :=
  {| editors := editors g; activeEditor := Some t |}.

(** The active editor changes places with its right neighbour; the last
    editor stays where it is. *)
Fixpoint moveRight (t : Tab) (l : list Tab) : list Tab :=
  match l with
  | [] => []
  | a :: rest =>
      if Tab_eq_dec a t then
        match rest with
        | [] => l
        | b :: rest' => b :: a :: rest'
        end
      else a :: moveRight t rest
  end.

(** The active editor changes places with its left neighbour; the first
    editor stays where it is. *)
Fixpoint moveLeft (t : Tab) (l : list Tab) : list Tab :=
  match l with
  | [] => []
  | a :: rest =>
      match rest with
      | [] => l
      | b :: rest' =>
          if Tab_eq_dec b t then b :: a :: rest' else a :: moveLeft t rest
      end
  end.

(** [vscode.commands.executeCommand(command)] *)
Definition executeCommand (command : Command) (g : EditorGroup)
  : EditorGroup :=
  match activeEditor g with
  | None => g
  | Some t =>
      {| editors :=
           match command with
           | moveEditorLeftInGroup => moveLeft t (editors g)
           | moveEditorRightInGroup => moveRight t (editors g)
           end;
         activeEditor := Some t |}
  end.

(** [for (let i = 0; i < Math.abs(delta); i++)] *)
Fixpoint executeTimes (n : nat) (command : Command) (g : EditorGroup)
  : EditorGroup :=
  match n with
  | 0 => g
  | S k => executeTimes k command (executeCommand command g)
  end.

(** The body of [for (const [t, idx] of currentIndices)], for
    [delta = currentIndex - targetIndex]. *)
Definition shiftIndex (currentIndex targetIndex idx : nat) : nat :=
  if (targetIndex <? currentIndex)%nat && (targetIndex <=? idx)%nat
     && (idx <? currentIndex)%nat
  then idx + 1
  else if (currentIndex <? targetIndex)%nat && (currentIndex <? idx)%nat
          && (idx <=? targetIndex)%nat
  then idx - 1
  else idx.

Definition shiftIndices (currentIndex targetIndex : nat) (m : TabIndices)
  : TabIndices :=
  map (fun e => (fst e, shiftIndex currentIndex targetIndex (snd e))) m.

(** The state of [organize] on one group; [executed] records the commands
    sent to the workbench. *)
Record Organizing : Type := {
  currentIndices : TabIndices;
  group : EditorGroup;
  executed : list Command
}.

(** One iteration of the loop over [targetIndex]. *)
Definition moveTab (sortedTabs : list Tab) (targetIndex : nat)
  (s : Organizing) : Organizing :=
  match nth_error sortedTabs targetIndex with
  | None => s
  | Some tab =>
      match indices_get (currentIndices s) tab with
      | None => s
      | Some currentIndex =>
          if (currentIndex =? targetIndex)%nat then s
          else if negb (hasUri tab) then s
          else
            let leftwards := (targetIndex <? currentIndex)%nat in
            let command :=
              if leftwards then moveEditorLeftInGroup
              else moveEditorRightInGroup in
            let count :=
              if leftwards then currentIndex - targetIndex
              else targetIndex - currentIndex in
            {| currentIndices :=
                 indices_set
                   (shiftIndices currentIndex targetIndex (currentIndices s))
                   tab targetIndex;
               group :=
                 executeTimes count command (showTextDocument tab (group s));
               executed := (executed s ++ repeat command count)%list |}
      end
  end.

(** [for (let targetIndex = n - 1; targetIndex >= 0; targetIndex--)] *)
Fixpoint moveTabs (sortedTabs : list Tab) (n : nat) (s : Organizing)
  : Organizing :=
  match n with
  | 0 => s
  | S targetIndex =>
      moveTabs sortedTabs targetIndex (moveTab sortedTabs targetIndex s)
  end.

(** [organize] on one group, for the order [sortedTabs] the strategy
    returned on [tabs]. *)
Definition organizeGroup (tabs sortedTabs : list Tab) : Organizing :=
  let start :=
    {| currentIndices := [];
       group := {| editors := tabs; activeEditor := None |};
       executed := [] |} in
  if (length tabs =? 0)%nat then start
  else
    moveTabs sortedTabs (length sortedTabs)
      {| currentIndices := indexTabs tabs 0 [];
         group := group start;
         executed := [] |}.

(** The indices [m] holds for the tabs of [l] are [k], [k + 1], ... *)
Definition Mirrors (m : TabIndices) (l : list Tab) (k : nat) : Prop :=
  map (indices_get m) l = map Some (seq k (length l)).

(** ** The file system strategy *)

Section FileSystem.
(** [path.sep], [path.relative], [path.dirname], the collation
    [localeCompare(b, undefined, { numeric: true, sensitivity: "base" })]
    and [getWorkspaceRoot()]. *)
Variable sep : ascii.
Variable relative : string -> string -> string.
Variable dirname : string -> string.
Variable collate : string -> string -> Z.
Variable root : option string.

(** [workspaceRoot ? path.relative(workspaceRoot, p) : p] *)
Definition relativeToRoot (p : string) : string :=
  match root with
  | Some r => if truthy r then relative r p else p
  | None => p
  end.

(** The comparator of [FileSystemStrategy.sort]. *)
Definition compareFileSystem (a b : Tab) : Z :=
  match sortablePath a, sortablePath b with
  | None, None => 0
  | None, Some _ => 1
  | Some _, None => -1
  | Some pathA, Some pathB =>
      let relativeA := relativeToRoot pathA in
      let relativeB := relativeToRoot pathB in
      let depthA := getPathDepth sep relativeA in
      let depthB := getPathDepth sep relativeB in
      if negb (depthA =? depthB)%nat
      then Z.of_nat depthA - Z.of_nat depthB
      else
        let dirA := dirname relativeA in
        let dirB := dirname relativeB in
        if negb (String.eqb dirA dirB)
           && startsWith dirB (dirA ++ String sep EmptyString)
        then -1
        else if negb (String.eqb dirA dirB)
                && startsWith dirA (dirB ++ String sep EmptyString)
        then 1
        else collate relativeA relativeB
  end%Z.

(** [FileSystemStrategy.sort] *)
Definition fileSystemSort (tabs : list Tab) : list Tab :=
  arraySort compareFileSystem tabs.

(** The depth the comparator gives a tab with a path. *)
Definition depthOfTab (t : Tab) : option nat :=
  match sortablePath t with
  | Some p => Some (getPathDepth sep (relativeToRoot p))
  | None => None
  end.
End FileSystem.

(** * Properties *)

(** ** Lists used as sets and maps *)

Lemma set_has_In (s : list string) (x : string) :
  set_has s x = true <-> In x s.
Proof.
  unfold set_has. rewrite existsb_exists. split.
  - intros [y [Hy He]]. apply String.eqb_eq in He. now subst.
  - intros H. exists x. split; [assumption | apply String.eqb_refl].
Qed.

Lemma set_has_false (s : list string) (x : string) :
  set_has s x = false <-> ~ In x s.
Proof.
  rewrite <- set_has_In. destruct (set_has s x); split; congruence.
Qed.

(** ** Extension and index probing *)

Section ProbingFacts.
Variable env : Host.

Lemma probeExtensions_first (resolved : string) (exts : list string) :
  probeExtensions env resolved exts
  = firstExisting env (map (fun ext => resolved ++ ext) exts).
Proof.
  induction exts as [| ext rest IH]; simpl; [reflexivity |].
  now rewrite IH.
Qed.

Lemma probeIndex_first (resolved : string) (exts : list string) :
  probeIndex env resolved exts
  = firstExisting env
      (map (fun ext => path_join env resolved ("index" ++ ext)) exts).
Proof.
  induction exts as [| ext rest IH]; simpl; [reflexivity |].
  now rewrite IH.
Qed.

Lemma firstExisting_app (l1 l2 : list string) :
  firstExisting env (l1 ++ l2)%list
  = match firstExisting env l1 with
    | Some p => Some p
    | None => firstExisting env l2
    end.
Proof.
  induction l1 as [| p l1 IH]; simpl; [reflexivity |].
  destruct (fileExists env p); [reflexivity | exact IH].
Qed.

Lemma firstExisting_Some (cands : list string) (p : string) :
  firstExisting env cands = Some p <->
  exists before after,
    cands = (before ++ p :: after)%list
    /\ existsSync env p = true
    /\ Forall (fun q => existsSync env q = false) before.
Proof.
  induction cands as [| c cands IH]; simpl.
  - split; [discriminate |].
    intros (before & after & E & _). destruct before; discriminate.
  - unfold fileExists at 1. destruct (existsSync env c) eqn:Ec.
    + split.
      * intros [= <-]. exists [], cands. repeat split; auto.
      * intros (before & after & E & Hp & Hb).
        destruct before as [| b before]; simpl in E.
        -- now injection E as ->.
        -- injection E as <- _. inversion Hb; congruence.
    + rewrite IH. split.
      * intros (before & after & -> & Hp & Hb).
        exists (c :: before), after. repeat split; auto.
      * intros (before & after & E & Hp & Hb).
        destruct before as [| b before]; simpl in E.
        -- injection E as -> _. congruence.
        -- injection E as _ ->. inversion Hb; subst.
           exists before, after. repeat split; auto.
Qed.

Lemma firstExisting_None (cands : list string) :
  firstExisting env cands = None <->
  Forall (fun q => existsSync env q = false) cands.
Proof.
  induction cands as [| c cands IH]; simpl.
  - split; auto.
  - unfold fileExists at 1. destruct (existsSync env c) eqn:Ec.
    + split; [discriminate | intros H; inversion H; congruence].
    + rewrite IH. split; [auto | intros H; now inversion H].
Qed.

Lemma resolveWithExtensions_first (resolved : string) :
  resolveWithExtensions env resolved
  = firstExisting env (probeOrder env resolved).
Proof.
  unfold resolveWithExtensions, probeOrder.
  now rewrite firstExisting_app, probeExtensions_first, probeIndex_first.
Qed.
End ProbingFacts.

(** C5, as stated, fails: the bare candidate is not probed first.  With a
    directory [/proj/src/util] and a file [/proj/src/util.ts] on disk, the
    order of the specification selects the bare candidate while the code
    returns the [.ts] file. *)
Lemma bare_candidate_not_probed_first :
  let env := Fixture.host Fixture.utilWorld in
  firstExisting env (probeOrderAsSpecified env "/proj/src/util")
    = Some "/proj/src/util"
  /\ resolveWithExtensions env "/proj/src/util" = Some "/proj/src/util.ts".
Proof. split; reflexivity. Qed.

(** C5 (amended): probing tries the candidate with [.ts], [.tsx], [.js],
    [.jsx] appended, in this order, then the bare candidate, and only then
    [index.ts], [index.tsx], [index.js], [index.jsx] inside the candidate
    taken as a directory; the first probe that reports existence is the
    result, and the result is nothing exactly when all nine probes fail. *)
Theorem resolveWithExtensions_probe_order (env : Host) (resolved : string) :
  let probes :=
    [resolved ++ ".ts"; resolved ++ ".tsx"; resolved ++ ".js";
     resolved ++ ".jsx"; resolved;
     path_join env resolved "index.ts"; path_join env resolved "index.tsx";
     path_join env resolved "index.js"; path_join env resolved "index.jsx"] in
  (forall p,
      resolveWithExtensions env resolved = Some p <->
      exists before after,
        probes = (before ++ p :: after)%list
        /\ existsSync env p = true
        /\ Forall (fun q => existsSync env q = false) before)
  /\ (resolveWithExtensions env resolved = None <->
      Forall (fun q => existsSync env q = false) probes).
Proof.
  intros probes.
  assert (E : probeOrder env resolved = probes).
  { unfold probeOrder, probes. simpl.
    replace (resolved ++ "") with resolved; [reflexivity |].
    clear. induction resolved; simpl; congruence. }
  rewrite resolveWithExtensions_first, E. split.
  - intros p. apply firstExisting_Some.
  - apply firstExisting_None.
Qed.

(** The probing fixtures of the specification.  On a disk where the
    directory of an index file exists, the bare probe reports the directory
    itself before the index file is looked for. *)
Example extension_probe_finds_ts :
  resolveWithExtensions
    (Fixture.host
       {| Fixture.files := [("/proj/src/util.ts", "export const u = 1")];
          Fixture.directories := ["/proj"; "/proj/src"];
          Fixture.root := Some "/proj";
          Fixture.configFiles := [];
          Fixture.documents := [];
          Fixture.captures := [];
          Fixture.collation := Fixture.codePointCompare |})
    "/proj/src/util"
  = Some "/proj/src/util.ts".
Proof. reflexivity. Qed.

Example directory_is_found_before_its_index :
  resolveWithExtensions (Fixture.host Fixture.indexWorld) "/proj/src/lib"
  = Some "/proj/src/lib".
Proof. reflexivity. Qed.

(** ** The tab-path matcher *)

Section MatcherFacts.
Variable sep : ascii.

Lemma skipn_step (A : Type) (l : list A) (k : nat) (x : A) :
  nth_error l k = Some x -> skipn k l = x :: skipn (S k) l.
Proof.
  revert k. induction l as [| y l IH]; intros [| k] H; simpl in *;
    try discriminate.
  - now injection H as ->.
  - now apply IH.
Qed.

Lemma commonPrefixLength_nil_r (a : list string) :
  commonPrefixLength a [] = 0.
Proof. now destruct a. Qed.

(** The index arithmetic of the loop reads the reversed segment lists
    from their heads. *)
Lemma suffixLoop_reversed (rs ts : list string) (n k m : nat) :
  n = Nat.min (length rs) (length ts) - k ->
  suffixLoop n (S k) m rs ts
  = m + commonPrefixLength (skipn k (rev rs)) (skipn k (rev ts)).
Proof.
  revert k m. induction n as [| n IH]; intros k m Hn; simpl.
  - assert (Hk : length rs <= k \/ length ts <= k) by lia.
    destruct Hk as [Hk | Hk].
    + rewrite (skipn_all2 (rev rs)) by (rewrite length_rev; lia).
      simpl. lia.
    + rewrite (skipn_all2 (rev ts)) by (rewrite length_rev; lia).
      rewrite commonPrefixLength_nil_r. lia.
  - assert (Hr : k < length rs) by lia.
    assert (Ht : k < length ts) by lia.
    assert (Er : nth_error rs (length rs - S k) = nth_error (rev rs) k).
    { rewrite nth_error_rev.
      destruct (Nat.ltb_spec k (length rs)); [reflexivity | lia]. }
    assert (Et : nth_error ts (length ts - S k) = nth_error (rev ts) k).
    { rewrite nth_error_rev.
      destruct (Nat.ltb_spec k (length ts)); [reflexivity | lia]. }
    rewrite Er, Et.
    destruct (nth_error (rev rs) k) as [x |] eqn:Ex.
    2: { apply nth_error_None in Ex. rewrite length_rev in Ex. lia. }
    destruct (nth_error (rev ts) k) as [y |] eqn:Ey.
    2: { apply nth_error_None in Ey. rewrite length_rev in Ey. lia. }
    rewrite (skipn_step _ _ Ex), (skipn_step _ _ Ey).
    cbn [segEq commonPrefixLength].
    destruct (String.eqb x y).
    + rewrite IH by lia. lia.
    + lia.
Qed.

Lemma suffixMatchLength_trailingRun (p q : string) :
  suffixMatchLength (split sep p) (split sep q) = trailingRun sep p q.
Proof.
  unfold suffixMatchLength, trailingRun.
  rewrite suffixLoop_reversed by lia. reflexivity.
Qed.

Lemma matchLoop_spec (r : string) (tabPaths : list string) :
  forall (best : option string) (bestLength : nat),
    (matchLoop sep (split sep r) tabPaths best bestLength = best
     /\ forall t, In t tabPaths ->
          trailingRun sep r t < 2 \/ trailingRun sep r t <= bestLength)
    \/ exists t before after,
        matchLoop sep (split sep r) tabPaths best bestLength = Some t
        /\ tabPaths = (before ++ t :: after)%list
        /\ 2 <= trailingRun sep r t
        /\ bestLength < trailingRun sep r t
        /\ (forall t', In t' before -> trailingRun sep r t' < trailingRun sep r t)
        /\ (forall t', In t' after -> trailingRun sep r t' <= trailingRun sep r t).
Proof.
  induction tabPaths as [| x rest IH]; intros best bestLength;
    cbn [matchLoop].
  - left. split; [reflexivity | intros t []].
  - rewrite suffixMatchLength_trailingRun.
    destruct (Nat.leb_spec 2 (trailingRun sep r x)) as [H2 | H2];
      destruct (Nat.ltb_spec bestLength (trailingRun sep r x)) as [Hb | Hb];
      cbn [andb].
    1: { right.
         destruct (IH (Some x) (trailingRun sep r x))
           as [[E Hall] | (t & before & after & E & -> & Ht & Hlt & Hpre & Hpost)].
         - exists x, [], rest. repeat split; auto.
           + intros t' [].
           + intros t' Hin. destruct (Hall t' Hin); lia.
         - exists t, (x :: before), after. repeat split; auto; try lia.
           intros t' [<- | Hin]; [lia | auto]. }
    all: destruct (IH best bestLength)
           as [[E Hall] | (t & before & after & E & -> & Ht & Hlt & Hpre & Hpost)];
      [ left; split; [exact E |];
        intros t [<- | Hin]; [lia | auto]
      | right; exists t, (x :: before), after; repeat split; auto;
        intros t' [<- | Hin]; [lia | auto] ].
Qed.
End MatcherFacts.

(** The two fixtures of the specification: two trailing segments link the
    paths, a shared file name alone does not. *)
Example suffix_match_links_worktrees :
  findMatchingTabPath "/" "/checkout/tree-b/src/util.ts"
    ["/work/tree-a/src/util.ts"] = Some "/work/tree-a/src/util.ts".
Proof. reflexivity. Qed.

Example file_name_alone_is_rejected :
  findMatchingTabPath "/" "/other/random/util.ts"
    ["/work/tree-a/src/util.ts"] = None.
Proof. reflexivity. Qed.

(** C6: when the resolved path is not itself an open path, the matcher
    returns an open path only if it shares at least two equal trailing
    segments with the resolved path; the path returned has a run of equal
    trailing segments strictly longer than every open path evaluated before
    it and at least as long as every open path evaluated after it (longest
    run wins, first evaluated wins a tie); and nothing is returned exactly
    when every open path shares fewer than two trailing segments. *)
Theorem findMatchingTabPath_suffix_rule
  (sep : ascii) (resolvedPath : string) (tabPaths : list string)
  (Hnew : ~ In resolvedPath tabPaths) :
  match findMatchingTabPath sep resolvedPath tabPaths with
  | Some t =>
      exists before after,
        tabPaths = (before ++ t :: after)%list
        /\ 2 <= trailingRun sep resolvedPath t
        /\ (forall t', In t' before ->
              trailingRun sep resolvedPath t' < trailingRun sep resolvedPath t)
        /\ (forall t', In t' after ->
              trailingRun sep resolvedPath t' <= trailingRun sep resolvedPath t)
  | None =>
      forall t, In t tabPaths -> trailingRun sep resolvedPath t < 2
  end.
Proof.
  unfold findMatchingTabPath.
  apply set_has_false in Hnew. rewrite Hnew.
  destruct (matchLoop_spec sep resolvedPath tabPaths None 0)
    as [[E Hall] | (t & before & after & E & -> & Ht & _ & Hpre & Hpost)];
    rewrite E.
  - intros t Hin. destruct (Hall t Hin); lia.
  - exists before, after. repeat split; auto.
Qed.

Lemma findMatchingTabPath_suffix_rule_witness :
  ~ In "/checkout/tree-b/src/util.ts"
       ["/work/tree-a/lib/util.ts"; "/work/tree-a/src/util.ts"; "/x/src/util.ts"]
  /\ match findMatchingTabPath "/" "/checkout/tree-b/src/util.ts"
           ["/work/tree-a/lib/util.ts"; "/work/tree-a/src/util.ts"; "/x/src/util.ts"]
     with
     | Some t =>
         exists before after,
           ["/work/tree-a/lib/util.ts"; "/work/tree-a/src/util.ts"; "/x/src/util.ts"]
           = (before ++ t :: after)%list
           /\ 2 <= trailingRun "/" "/checkout/tree-b/src/util.ts" t
           /\ (forall t', In t' before ->
                 trailingRun "/" "/checkout/tree-b/src/util.ts" t'
                 < trailingRun "/" "/checkout/tree-b/src/util.ts" t)
           /\ (forall t', In t' after ->
                 trailingRun "/" "/checkout/tree-b/src/util.ts" t'
                 <= trailingRun "/" "/checkout/tree-b/src/util.ts" t)
     | None =>
         forall t,
           In t ["/work/tree-a/lib/util.ts"; "/work/tree-a/src/util.ts"; "/x/src/util.ts"] ->
           trailingRun "/" "/checkout/tree-b/src/util.ts" t < 2
     end.
Proof.
  assert (H : ~ In "/checkout/tree-b/src/util.ts"
       ["/work/tree-a/lib/util.ts"; "/work/tree-a/src/util.ts"; "/x/src/util.ts"]).
  { simpl. intros [H | [H | [H | []]]]; discriminate H. }
  split; [exact H |].
  exact (findMatchingTabPath_suffix_rule "/" "/checkout/tree-b/src/util.ts"
           ["/work/tree-a/lib/util.ts"; "/work/tree-a/src/util.ts"; "/x/src/util.ts"] H).
Defined.

(** ** Association lists as maps *)

Section MapFacts.
Variable V : Type.
Implicit Types (m : list (string * V)) (k : string) (v : V).

Lemma map_get_set_same m k v : map_get (map_set m k v) k = Some v.
Proof.
  induction m as [| [k' v'] m IH]; simpl.
  - now rewrite String.eqb_refl.
  - destruct (String.eqb k' k) eqn:E; simpl; rewrite E; auto.
Qed.

Lemma map_get_set_other m k k' v :
  k' <> k -> map_get (map_set m k v) k' = map_get m k'.
Proof.
  intros Hne. induction m as [| [k0 v0] m IH]; simpl.
  - destruct (String.eqb_spec k k'); congruence.
  - destruct (String.eqb_spec k0 k) as [-> | Hk]; simpl.
    + destruct (String.eqb_spec k k'); congruence.
    + now rewrite IH.
Qed.

Lemma map_get_None m k : map_get m k = None <-> ~ In k (map_keys m).
Proof.
  induction m as [| [k0 v0] m IH]; simpl.
  - tauto.
  - destruct (String.eqb_spec k0 k) as [-> | Hk].
    + split; [discriminate | tauto].
    + rewrite IH. tauto.
Qed.

Lemma map_get_Some_In m k v : map_get m k = Some v -> In k (map_keys m).
Proof.
  intros H. destruct (in_dec string_dec k (map_keys m)) as [Hin | Hin];
    [assumption |].
  apply map_get_None in Hin. congruence.
Qed.

Lemma map_get_In_entry m k v : map_get m k = Some v -> In (k, v) m.
Proof.
  induction m as [| [k0 v0] m IH]; simpl; [discriminate |].
  destruct (String.eqb_spec k0 k) as [-> | Hk].
  - intros [= ->]. now left.
  - intros H. right. auto.
Qed.

Lemma map_get_entry m k v :
  NoDup (map_keys m) -> In (k, v) m -> map_get m k = Some v.
Proof.
  induction m as [| [k0 v0] m IH]; simpl; [tauto |].
  intros Hnd [[= -> ->] | Hin].
  - now rewrite String.eqb_refl.
  - inversion Hnd as [| ? ? Hk0 Hm]; subst.
    destruct (String.eqb_spec k0 k) as [-> | Hk].
    + exfalso. apply Hk0. change k with (fst (k, v)). now apply in_map.
    + auto.
Qed.

Lemma map_keys_set_in m k v :
  In k (map_keys m) -> map_keys (map_set m k v) = map_keys m.
Proof.
  induction m as [| [k0 v0] m IH]; simpl; [tauto |].
  destruct (String.eqb_spec k0 k) as [-> | Hk]; simpl.
  - reflexivity.
  - intros [H | H]; [congruence |]. now rewrite IH.
Qed.

Lemma map_keys_set_new m k v :
  ~ In k (map_keys m) -> map_keys (map_set m k v) = (map_keys m ++ [k])%list.
Proof.
  induction m as [| [k0 v0] m IH]; simpl; [reflexivity |].
  destruct (String.eqb_spec k0 k) as [-> | Hk]; simpl.
  - tauto.
  - intros H. rewrite IH; tauto.
Qed.

Lemma map_keys_set_incl m k v x :
  In x (map_keys (map_set m k v)) <-> x = k \/ In x (map_keys m).
Proof.
  destruct (in_dec string_dec k (map_keys m)) as [Hin | Hin].
  - rewrite map_keys_set_in by assumption.
    split; [tauto | intros [-> | H]; assumption].
  - rewrite map_keys_set_new by assumption.
    rewrite in_app_iff. simpl. intuition congruence.
Qed.

Lemma map_set_NoDup m k v :
  NoDup (map_keys m) -> NoDup (map_keys (map_set m k v)).
Proof.
  intros Hnd. destruct (in_dec string_dec k (map_keys m)) as [Hin | Hin].
  - now rewrite map_keys_set_in.
  - rewrite map_keys_set_new by assumption.
    apply NoDup_app; [assumption | repeat constructor; simpl; tauto |].
    intros x Hx [<- | []]. tauto.
Qed.

Lemma map_has_true m k : map_has m k = true <-> In k (map_keys m).
Proof.
  unfold map_has. destruct (map_get m k) eqn:E.
  - split; [intros _; eapply map_get_Some_In; eauto | reflexivity].
  - apply map_get_None in E. split; [discriminate | tauto].
Qed.
End MapFacts.

Lemma numOr_zero (n : nat) : numOr (Some n) 0 = n.
Proof. now destruct n. Qed.

Lemma numOr_positive (n d : nat) : 0 < n -> numOr (Some n) d = n.
Proof. destruct n; [lia | reflexivity]. Qed.

(** ** [new Set(...)] *)

Lemma set_add_In (s : list string) (x y : string) :
  In y (set_add s x) <-> y = x \/ In y s.
Proof.
  unfold set_add. destruct (set_has s x) eqn:E.
  - apply set_has_In in E. split; [tauto | intros [-> | H]; assumption].
  - rewrite in_app_iff. simpl. intuition congruence.
Qed.

Lemma set_add_NoDup (s : list string) (x : string) :
  NoDup s -> NoDup (set_add s x).
Proof.
  intros Hnd. unfold set_add. destruct (set_has s x) eqn:E; [assumption |].
  apply set_has_false in E.
  apply NoDup_app; [assumption | repeat constructor; simpl; tauto |].
  intros y Hy [<- | []]. tauto.
Qed.

Lemma fold_set_add_spec (xs s : list string) :
  NoDup s ->
  NoDup (fold_left set_add xs s)
  /\ forall y, In y (fold_left set_add xs s) <-> In y xs \/ In y s.
Proof.
  revert s. induction xs as [| x xs IH]; intros s Hnd; simpl.
  - split; [assumption | tauto].
  - destruct (IH (set_add s x) (set_add_NoDup x Hnd)) as [H1 H2].
    split; [assumption |]. intros y. rewrite H2, set_add_In.
    intuition congruence.
Qed.

Lemma set_of_NoDup (xs : list string) : NoDup (set_of xs).
Proof. apply fold_set_add_spec. constructor. Qed.

Lemma set_of_In (xs : list string) (y : string) :
  In y (set_of xs) <-> In y xs.
Proof.
  unfold set_of. destruct (fold_set_add_spec xs (@NoDup_nil string)) as [_ H].
  rewrite H. simpl. tauto.
Qed.

Lemma set_of_length (xs : list string) : length (set_of xs) <= length xs.
Proof.
  apply NoDup_incl_length; [apply set_of_NoDup |].
  intros y. apply set_of_In.
Qed.

Lemma definedPaths_length (tabs : list Tab) :
  length (definedPaths tabs) <= length tabs.
Proof.
  induction tabs as [| t tabs IH]; simpl; [lia |].
  destruct (getTabPath t); simpl; lia.
Qed.

Lemma tabPathsOf_length (tabs : list Tab) :
  length (tabPathsOf tabs) <= length tabs.
Proof.
  unfold tabPathsOf.
  pose proof (set_of_length (definedPaths tabs)).
  pose proof (definedPaths_length tabs). lia.
Qed.

(** ** The counting pass *)

Section CountingFacts.
Variable sep : ascii.
Variable tabPaths : list string.

Lemma findMatchingTabPath_In (r m : string) :
  findMatchingTabPath sep r tabPaths = Some m -> In m tabPaths.
Proof.
  unfold findMatchingTabPath. destruct (set_has tabPaths r) eqn:E.
  - intros [= <-]. now apply set_has_In.
  - destruct (matchLoop_spec sep r tabPaths None 0)
      as [[-> _] | (t & before & after & -> & -> & _)]; [discriminate |].
    intros [= <-]. apply in_elt.
Qed.

Lemma matchedTabs_In (imports : list string) (p : string) :
  In p (matchedTabs sep tabPaths imports) -> In p tabPaths.
Proof.
  induction imports as [| i rest IH]; simpl; [tauto |].
  destruct (findMatchingTabPath sep i tabPaths) as [m |] eqn:E; auto.
  destruct (truthy m); auto.
  intros [<- | H]; auto. eapply findMatchingTabPath_In; eauto.
Qed.

Lemma countImports_counts (imports : list string) :
  forall (c : Counting) (p : string),
    numOr (map_get (incomingCount (countImports sep tabPaths imports c)) p) 0
    = numOr (map_get (incomingCount c) p) 0
      + count_occ string_dec (matchedTabs sep tabPaths imports) p.
Proof.
  induction imports as [| i rest IH]; intros c p; simpl; [lia |].
  destruct (findMatchingTabPath sep i tabPaths) as [m |] eqn:E; auto.
  destruct (truthy m); auto.
  rewrite IH. cbn [incomingCount].
  destruct (string_dec m p) as [-> | Hne].
  - rewrite map_get_set_same, numOr_zero. simpl.
    destruct (string_dec p p); [lia | congruence].
  - rewrite map_get_set_other by congruence. simpl.
    destruct (string_dec m p); [congruence | lia].
Qed.

Lemma countImports_keys (imports : list string) :
  forall (c : Counting),
    NoDup (map_keys (incomingCount c)) ->
    (forall x, In x (map_keys (incomingCount c)) <-> In x tabPaths) ->
    NoDup (map_keys (incomingCount (countImports sep tabPaths imports c)))
    /\ (forall x,
          In x (map_keys (incomingCount (countImports sep tabPaths imports c)))
          <-> In x tabPaths).
Proof.
  induction imports as [| i rest IH]; intros c Hnd Hk; simpl; [auto |].
  destruct (findMatchingTabPath sep i tabPaths) as [m |] eqn:E; auto.
  destruct (truthy m); auto.
  apply IH; cbn [incomingCount].
  - now apply map_set_NoDup.
  - intros x. rewrite map_keys_set_incl, Hk.
    apply findMatchingTabPath_In in E. intuition congruence.
Qed.

Lemma countImports_table (imports : list string) :
  forall (c : Counting),
    tableSound sep tabPaths (resolvedToTabPath c) ->
    let c' := countImports sep tabPaths imports c in
    tableSound sep tabPaths (resolvedToTabPath c')
    /\ (forall i, tableCovers sep tabPaths (resolvedToTabPath c) i ->
                  tableCovers sep tabPaths (resolvedToTabPath c') i)
    /\ (forall i, In i imports ->
                  tableCovers sep tabPaths (resolvedToTabPath c') i).
Proof.
  induction imports as [| i rest IH]; intros c Hs; simpl.
  - repeat split; auto. intros i [].
  - destruct (findMatchingTabPath sep i tabPaths) as [m |] eqn:E.
    2: { destruct (IH c Hs) as (H1 & H2 & H3). repeat split; auto.
         intros j [<- | Hj]; auto.
         apply H2. intros m' Hm'. congruence. }
    destruct (truthy m) eqn:Tm.
    2: { destruct (IH c Hs) as (H1 & H2 & H3). repeat split; auto.
         intros j [<- | Hj]; auto.
         apply H2. intros m' Hm' Tm'. congruence. }
    set (c1 := {| resolvedToTabPath := map_set (resolvedToTabPath c) i m;
                  incomingCount := _ |}).
    assert (Hs1 : tableSound sep tabPaths (resolvedToTabPath c1)).
    { intros j mj. cbn [c1 resolvedToTabPath].
      destruct (string_dec j i) as [-> | Hne].
      - rewrite map_get_set_same. congruence.
      - rewrite map_get_set_other by assumption. apply Hs. }
    assert (Hc1 : forall j, tableCovers sep tabPaths (resolvedToTabPath c) j ->
                            tableCovers sep tabPaths (resolvedToTabPath c1) j).
    { intros j Hj mj Ej Tj. cbn [c1 resolvedToTabPath].
      destruct (string_dec j i) as [-> | Hne].
      - rewrite map_get_set_same. congruence.
      - rewrite map_get_set_other by assumption. now apply Hj. }
    destruct (IH c1 Hs1) as (H1 & H2 & H3). repeat split; auto.
    intros j [<- | Hj]; auto.
    apply H2. intros mj Ej Tj. cbn [c1 resolvedToTabPath].
    rewrite map_get_set_same. congruence.
Qed.

Lemma countGraph_counts (entries : ImportGraph) :
  forall (c : Counting) (p : string),
    numOr (map_get (incomingCount (countGraph sep tabPaths entries c)) p) 0
    = numOr (map_get (incomingCount c) p) 0
      + entriesInto sep tabPaths entries p.
Proof.
  induction entries as [| [f imports] rest IH]; intros c p; simpl; [lia |].
  rewrite IH, countImports_counts. lia.
Qed.

Lemma countGraph_keys (entries : ImportGraph) :
  forall (c : Counting),
    NoDup (map_keys (incomingCount c)) ->
    (forall x, In x (map_keys (incomingCount c)) <-> In x tabPaths) ->
    NoDup (map_keys (incomingCount (countGraph sep tabPaths entries c)))
    /\ (forall x,
          In x (map_keys (incomingCount (countGraph sep tabPaths entries c)))
          <-> In x tabPaths).
Proof.
  induction entries as [| [f imports] rest IH]; intros c Hnd Hk; simpl;
    [auto |].
  destruct (countImports_keys imports c Hnd Hk) as [H1 H2]. now apply IH.
Qed.

Lemma countGraph_table (entries : ImportGraph) :
  forall (c : Counting),
    tableSound sep tabPaths (resolvedToTabPath c) ->
    let c' := countGraph sep tabPaths entries c in
    tableSound sep tabPaths (resolvedToTabPath c')
    /\ (forall i, tableCovers sep tabPaths (resolvedToTabPath c) i ->
                  tableCovers sep tabPaths (resolvedToTabPath c') i)
    /\ (forall f imports i, In (f, imports) entries -> In i imports ->
                  tableCovers sep tabPaths (resolvedToTabPath c') i).
Proof.
  induction entries as [| [f imports] rest IH]; intros c Hs; simpl.
  - repeat split; auto. intros f imports i [].
  - destruct (countImports_table imports c Hs) as (H1 & H2 & H3).
    destruct (IH _ H1) as (K1 & K2 & K3). repeat split; auto.
    intros g imps i [[= <- <-] | Hin] Hi; eauto.
Qed.

Lemma matchedBy_matchedTabs (r2t : list (string * string))
  (imports : list string) :
  tableSound sep tabPaths r2t ->
  (forall i, In i imports -> tableCovers sep tabPaths r2t i) ->
  matchedBy r2t imports = matchedTabs sep tabPaths imports.
Proof.
  intros Hs. induction imports as [| i rest IH]; intros Hc; simpl;
    [reflexivity |].
  rewrite IH by (intros j Hj; apply Hc; now right).
  destruct (map_get r2t i) as [m |] eqn:E.
  - now rewrite (Hs _ _ E).
  - destruct (findMatchingTabPath sep i tabPaths) as [m |] eqn:F;
      [| reflexivity].
    destruct (truthy m) eqn:Tm; [| reflexivity].
    rewrite (Hc i (or_introl eq_refl) m F Tm) in E. discriminate.
Qed.

Lemma visitImports_visitTargets (r2t : list (string * string))
  (imports : list string) (d : nat) :
  forall t, visitImports r2t imports d t
            = visitTargets (matchedBy r2t imports) d t.
Proof.
  induction imports as [| i rest IH]; intros t; simpl; [reflexivity |].
  destruct (map_get r2t i) as [m |]; auto.
  destruct (truthy m); auto.
Qed.

Lemma initCounts_spec (l : list string) :
  forall (m : list (string * nat)),
    NoDup (map_keys m) ->
    (forall p, numOr (map_get m p) 0 = 0) ->
    let m' := fold_left (fun m filePath => map_set m filePath 0) l m in
    NoDup (map_keys m')
    /\ (forall x, In x (map_keys m') <-> In x l \/ In x (map_keys m))
    /\ (forall p, numOr (map_get m' p) 0 = 0).
Proof.
  induction l as [| x l IH]; intros m Hnd Hz; simpl.
  - repeat split; auto; tauto.
  - destruct (IH (map_set m x 0)) as (H1 & H2 & H3).
    + now apply map_set_NoDup.
    + intros p. destruct (string_dec p x) as [-> | Hne].
      * now rewrite map_get_set_same.
      * rewrite map_get_set_other by assumption. apply Hz.
    + split; [exact H1 | split; [| exact H3]].
      intros y. rewrite H2, map_keys_set_incl. intuition congruence.
Qed.
End CountingFacts.

(** ** Matched edges and in-degrees *)

Section EdgeFacts.
Variable sep : ascii.
Variable graph : ImportGraph.
Variable tabPaths : list string.

Lemma edgesInto_app (a b : list string) (p : string) :
  edgesInto sep graph tabPaths (a ++ b)%list p
  = edgesInto sep graph tabPaths a p + edgesInto sep graph tabPaths b p.
Proof. induction a as [| f a IH]; simpl; lia. Qed.

Lemma edgesFrom_outside (f : string) :
  ~ In f (map_keys graph) -> edgesFrom sep graph tabPaths f = [].
Proof.
  intros H. unfold edgesFrom. apply map_get_None in H. now rewrite H.
Qed.

Lemma edgesFrom_In_tabs (f p : string) :
  In p (edgesFrom sep graph tabPaths f) -> In p tabPaths.
Proof.
  unfold edgesFrom. destruct (map_get graph f); [| intros []].
  apply matchedTabs_In.
Qed.

Lemma edgesInto_le (p : string) (W : list string) :
  forall K : list string,
    NoDup W ->
    (forall f, In f W -> ~ In f K -> edgesFrom sep graph tabPaths f = []) ->
    edgesInto sep graph tabPaths W p <= edgesInto sep graph tabPaths K p.
Proof.
  induction W as [| f W IH]; intros K Hnd Hout; simpl; [lia |].
  inversion Hnd as [| ? ? Hf HW]; subst.
  destruct (in_dec string_dec f K) as [Hin | Hin].
  - destruct (in_split _ _ Hin) as (K1 & K2 & ->).
    assert (H : edgesInto sep graph tabPaths W p
                <= edgesInto sep graph tabPaths (K1 ++ K2)%list p).
    { apply IH; [assumption |]. intros g Hg Hng. apply Hout; [now right |].
      intros Hin'. apply Hng. apply in_app_or in Hin'. apply in_or_app.
      destruct Hin' as [H1 | [<- | H2]]; [now left | tauto | now right]. }
    rewrite edgesInto_app in *. simpl. lia.
  - rewrite (Hout f (or_introl eq_refl) Hin). simpl.
    apply IH; [assumption |]. intros g Hg. apply Hout. now right.
Qed.

Lemma edgesInto_bound (W : list string) (p : string) :
  NoDup W ->
  edgesInto sep graph tabPaths W p <= inDegree sep graph tabPaths p.
Proof.
  intros Hnd. apply edgesInto_le; [assumption |].
  intros f _. apply edgesFrom_outside.
Qed.

Lemma edgesFrom_inDegree (f p : string) :
  In p (edgesFrom sep graph tabPaths f) ->
  1 <= inDegree sep graph tabPaths p.
Proof.
  intros Hin.
  assert (Hf : In f (map_keys graph)).
  { destruct (in_dec string_dec f (map_keys graph)) as [H | H]; [exact H |].
    rewrite (edgesFrom_outside _ H) in Hin. destruct Hin. }
  unfold inDegree. destruct (in_split _ _ Hf) as (K1 & K2 & ->).
  rewrite edgesInto_app. simpl.
  apply (count_occ_In string_dec) in Hin. lia.
Qed.

Lemma entriesInto_edgesInto (p : string) (l : ImportGraph) :
  (forall f imports, In (f, imports) l -> map_get graph f = Some imports) ->
  entriesInto sep tabPaths l p = edgesInto sep graph tabPaths (map_keys l) p.
Proof.
  induction l as [| [f imports] l IH]; intros H; simpl; [reflexivity |].
  rewrite IH by (intros g imps Hin; apply H; now right).
  unfold edgesFrom. now rewrite (H f imports (or_introl eq_refl)).
Qed.

Lemma entriesInto_inDegree (p : string) :
  NoDup (map_keys graph) ->
  entriesInto sep tabPaths graph p = inDegree sep graph tabPaths p.
Proof.
  intros Hnd. apply entriesInto_edgesInto.
  intros f imports. now apply map_get_entry.
Qed.
End EdgeFacts.

(** ** The seeds *)

Lemma seedQueue_spec (entries : list (string * nat)) :
  forall (q : list string) (d : list (string * nat)),
    seedQueue entries q d
    = ((q ++ zeroKeys entries)%list,
       fold_left (fun d p => map_set d p 0) (zeroKeys entries) d).
Proof.
  induction entries as [| [k n] rest IH]; intros q d; simpl.
  - now rewrite app_nil_r.
  - destruct (n =? 0)%nat; rewrite IH; simpl; [| reflexivity].
    now rewrite <- app_assoc.
Qed.

Lemma zeroKeys_In (entries : list (string * nat)) (p : string) :
  In p (zeroKeys entries) <-> In (p, 0) entries.
Proof.
  induction entries as [| [k n] rest IH]; simpl; [tauto |].
  destruct (Nat.eqb_spec n 0) as [-> | Hn]; simpl; rewrite IH.
  - intuition congruence.
  - split; [tauto |]. intros [[= -> ->] | H]; [congruence | assumption].
Qed.

Lemma zeroKeys_NoDup (entries : list (string * nat)) :
  NoDup (map_keys entries) -> NoDup (zeroKeys entries).
Proof.
  induction entries as [| [k n] rest IH]; simpl; intros Hnd;
    [constructor |].
  inversion Hnd as [| ? ? Hk Hrest]; subst.
  destruct (n =? 0)%nat; auto. constructor; auto.
  rewrite zeroKeys_In. intros Hin. apply Hk.
  change k with (fst (k, 0)). now apply in_map.
Qed.

Lemma seedDepths_get (l : list string) :
  forall (d : list (string * nat)) (p : string),
    map_get (fold_left (fun d p => map_set d p 0) l d) p
    = if in_dec string_dec p l then Some 0 else map_get d p.
Proof.
  induction l as [| x l IH]; intros d p; simpl; [reflexivity |].
  rewrite IH. destruct (in_dec string_dec p l) as [Hin | Hin].
  - destruct (string_dec x p); reflexivity.
  - destruct (string_dec x p) as [-> | Hne].
    + now rewrite map_get_set_same.
    + rewrite map_get_set_other by congruence. reflexivity.
Qed.

(** ** The traversal *)

Section TraversalFacts.
Variable sep : ascii.
Variable graph : ImportGraph.
Variable tabPaths : list string.

(** The inner loop: [W] are the files dequeued so far, the current one
    included, and [l] are the matched edges of the current file still to
    be read. *)
Lemma visitTargets_inv (W : list string) (d : nat) (l : list string) :
  forall (t : Traversal) (Q : string -> Prop),
    NoDup (W ++ queue t)%list ->
    (forall p, In p (W ++ queue t)%list -> In p tabPaths) ->
    (forall p, In p tabPaths ->
       exists n, map_get (remaining t) p = Some n
                 /\ n + edgesInto sep graph tabPaths W p
                    = inDegree sep graph tabPaths p
                      + count_occ string_dec l p) ->
    (forall p, In p (W ++ queue t)%list -> map_get (remaining t) p = Some 0) ->
    (forall p, In p l ->
       In p tabPaths /\ 1 <= inDegree sep graph tabPaths p) ->
    (forall p, map_get (depths t) p <> None <-> Q p) ->
    (forall p k, map_get (depths t) p = Some k ->
       (k = 0 <-> inDegree sep graph tabPaths p = 0)) ->
    NoDup (W ++ queue (visitTargets l d t))%list
    /\ (forall p, In p (W ++ queue (visitTargets l d t))%list -> In p tabPaths)
    /\ (forall p, In p tabPaths ->
          exists n, map_get (remaining (visitTargets l d t)) p = Some n
                    /\ n + edgesInto sep graph tabPaths W p
                       = inDegree sep graph tabPaths p)
    /\ (forall p, In p (W ++ queue (visitTargets l d t))%list ->
          map_get (remaining (visitTargets l d t)) p = Some 0)
    /\ (forall p, map_get (depths (visitTargets l d t)) p <> None
                  <-> Q p \/ In p l)
    /\ (forall p k, map_get (depths (visitTargets l d t)) p = Some k ->
          (k = 0 <-> inDegree sep graph tabPaths p = 0)).
Proof.
  induction l as [| p0 l IH]; intros t Q Hnd Hopen Hcnt Hzero Hl Hkeys Hroots.
  - cbn [visitTargets]. repeat split; auto.
    + intros p Hp. destruct (Hcnt p Hp) as (n & Hn & Hs).
      exists n. split; [assumption |]. simpl in Hs. lia.
    + intros H. left. now apply Hkeys.
    + intros [H | []]. now apply Hkeys.
    + now apply Hroots.
    + now apply Hroots.
  - destruct (Hl p0 (or_introl eq_refl)) as [Hp0 Hdeg].
    destruct (Hcnt p0 Hp0) as (n0 & Hn0 & Hsum).
    simpl in Hsum. destruct (string_dec p0 p0) as [_ | Hne]; [| congruence].
    assert (HW : NoDup W) by (eapply NoDup_app_remove_r; eauto).
    pose proof (edgesInto_bound sep graph tabPaths p0 HW) as Hbound.
    assert (Hpos : 0 < n0) by lia.
    assert (Hfresh : ~ In p0 (W ++ queue t)%list).
    { intros Hin. rewrite (Hzero p0 Hin) in Hn0. injection Hn0 as <-. lia. }
    cbn [visitTargets]. rewrite Hn0, (numOr_positive 1 Hpos).
    set (t1 := {| queue := _; depths := _; remaining := _ |}).
    assert (Hq1 : forall p, In p (W ++ queue t1)%list ->
                            In p (W ++ queue t)%list
                            \/ (p = p0 /\ n0 - 1 = 0)).
    { intros p. cbn [t1 queue].
      destruct (Nat.eqb_spec (n0 - 1) 0) as [Hz | Hz]; [| tauto].
      rewrite app_assoc, in_app_iff. simpl. intuition. }
    destruct (IH t1 (fun p => Q p \/ p = p0)) as (A & B & C & D & F & G).
    + cbn [t1 queue]. destruct (n0 - 1 =? 0)%nat; [| assumption].
      rewrite app_assoc. apply NoDup_app; [assumption | |].
      * repeat constructor. simpl. tauto.
      * intros x Hx [<- | []]. tauto.
    + intros p Hp. destruct (Hq1 p Hp) as [H | [-> _]]; auto.
    + intros p Hp. cbn [t1 remaining].
      destruct (string_dec p p0) as [-> | Hne].
      * exists (n0 - 1). rewrite map_get_set_same. split; [reflexivity | lia].
      * rewrite map_get_set_other by assumption.
        destruct (Hcnt p Hp) as (n & Hn & Hs). exists n.
        split; [assumption |]. simpl in Hs.
        destruct (string_dec p0 p); [congruence | lia].
    + intros p Hp. cbn [t1 remaining].
      destruct (Hq1 p Hp) as [H | [-> Hz]].
      * rewrite map_get_set_other by (intros ->; tauto). now apply Hzero.
      * rewrite map_get_set_same. now rewrite Hz.
    + intros p Hp. apply Hl. now right.
    + intros p. cbn [t1 depths].
      destruct (string_dec p p0) as [-> | Hne].
      * rewrite map_get_set_same. split; [tauto | discriminate].
      * rewrite map_get_set_other by assumption. rewrite Hkeys. tauto.
    + intros p k. cbn [t1 depths].
      destruct (string_dec p p0) as [-> | Hne].
      * rewrite map_get_set_same. intros [= <-]. lia.
      * rewrite map_get_set_other by assumption. apply Hroots.
    + split; [exact A | split; [exact B | split; [exact C | split; [exact D |]]]].
      split; [| exact G].
      intros p. rewrite F. simpl. intuition congruence.
Qed.

Hypothesis table : list (string * string).
Hypothesis table_sound : tableSound sep tabPaths table.
Hypothesis table_covers :
  forall f imports i, In (f, imports) graph -> In i imports ->
                      tableCovers sep tabPaths table i.

Lemma visit_edges (current : string) (t : Traversal) :
  visit graph table current t
  = visitTargets (edgesFrom sep graph tabPaths current)
      (numOr (map_get (depths t) current) 0) t.
Proof.
  unfold visit, edgesFrom. rewrite visitImports_visitTargets.
  destruct (map_get graph current) as [imports |] eqn:E; [| reflexivity].
  assert (Hc : forall i, In i imports -> tableCovers sep tabPaths table i).
  { intros i Hi. eapply table_covers; [| exact Hi].
    eapply map_get_In_entry; eassumption. }
  now rewrite (@matchedBy_matchedTabs sep tabPaths table imports table_sound Hc).
Qed.

(** One iteration of the [while] loop keeps the invariant. *)
Lemma visit_inv (visited : list string) (current : string)
  (rest : list string) (d r : list (string * nat)) :
  TraversalInv sep graph tabPaths visited
    {| queue := current :: rest; depths := d; remaining := r |} ->
  TraversalInv sep graph tabPaths (visited ++ [current])%list
    (visit graph table current
       {| queue := rest; depths := d; remaining := r |}).
Proof.
  intros [Hnd Hopen Hcnt Hzero Hkeys Hroots]. cbn [queue depths remaining] in *.
  rewrite visit_edges. cbn [depths].
  assert (Eapp : forall q : list string,
             ((visited ++ [current]) ++ q)%list = (visited ++ current :: q)%list).
  { intros q. now rewrite <- app_assoc. }
  destruct (@visitTargets_inv (visited ++ [current])%list
              (numOr (map_get d current) 0)
              (edgesFrom sep graph tabPaths current)
              {| queue := rest; depths := d; remaining := r |}
              (fun p => (In p tabPaths /\ inDegree sep graph tabPaths p = 0)
                        \/ exists v, In v visited
                                     /\ In p (edgesFrom sep graph tabPaths v)))
    as (A & B & C & D & F & G); cbn [queue depths remaining].
  - now rewrite Eapp.
  - intros p. rewrite Eapp. apply Hopen.
  - intros p Hp. destruct (Hcnt p Hp) as (n & Hn & Hs). exists n.
    split; [assumption |]. rewrite edgesInto_app. simpl. lia.
  - intros p. rewrite Eapp. apply Hzero.
  - intros p Hp. split.
    + eapply edgesFrom_In_tabs; eauto.
    + eapply edgesFrom_inDegree; eauto.
  - exact Hkeys.
  - exact Hroots.
  - constructor; auto.
    intros p. rewrite F. split.
    + intros [[H | (v & Hv & Hin)] | H].
      * now left.
      * right. exists v. split; [apply in_or_app; now left | assumption].
      * right. exists current. split; [apply in_or_app; simpl; tauto | assumption].
    + intros [H | (v & Hv & Hin)]; [tauto |].
      apply in_app_or in Hv. destruct Hv as [Hv | [<- | []]].
      * left. right. eauto.
      * now right.
Qed.

(** The [while] loop ends within one iteration per open path, with the
    invariant and an empty queue. *)
Lemma drain_inv (fuel : nat) :
  forall (visited : list string) (t : Traversal),
    TraversalInv sep graph tabPaths visited t ->
    length tabPaths < fuel + length visited ->
    exists t',
      drain fuel graph table t = Some t'
      /\ queue t' = []
      /\ TraversalInv sep graph tabPaths
           (visited ++ visitOrder fuel graph table t)%list t'.
Proof.
  induction fuel as [| fuel IH]; intros visited [q d r] Hinv Hfuel.
  - destruct q as [| current rest].
    + exists {| queue := []; depths := d; remaining := r |}.
      simpl. rewrite app_nil_r. auto.
    + exfalso. destruct Hinv as [Hnd Hopen _ _ _ _].
      cbn [queue] in *.
      assert (length (visited ++ current :: rest)%list <= length tabPaths)
        by (apply NoDup_incl_length; assumption).
      rewrite length_app in H. simpl in *. lia.
  - destruct q as [| current rest].
    + exists {| queue := []; depths := d; remaining := r |}.
      simpl. rewrite app_nil_r. auto.
    + cbn [drain visitOrder queue depths remaining].
      destruct (IH (visited ++ [current])%list
                  (visit graph table current
                     {| queue := rest; depths := d; remaining := r |}))
        as (t' & E & Hq & Hinv').
      * now apply visit_inv.
      * rewrite length_app. simpl. lia.
      * exists t'. split; [exact E | split; [exact Hq |]].
        now rewrite <- app_assoc in Hinv'.
Qed.
End TraversalFacts.

(** ** From the start of the traversal to the scores *)

Section ScoreFacts.
Variable sep : ascii.
Variable graph : ImportGraph.
Variable tabPaths : list string.
Hypothesis graph_keys : NoDup (map_keys graph).

Lemma counting_spec :
  let c := countGraph sep tabPaths graph
             {| resolvedToTabPath := []; incomingCount := initCounts tabPaths |} in
  NoDup (map_keys (incomingCount c))
  /\ (forall x, In x (map_keys (incomingCount c)) <-> In x tabPaths)
  /\ (forall p, In p tabPaths ->
        map_get (incomingCount c) p = Some (inDegree sep graph tabPaths p))
  /\ tableSound sep tabPaths (resolvedToTabPath c)
  /\ (forall f imports i, In (f, imports) graph -> In i imports ->
        tableCovers sep tabPaths (resolvedToTabPath c) i).
Proof.
  intros c. subst c.
  destruct (@initCounts_spec tabPaths [] (@NoDup_nil string))
    as (I1 & I2 & I3); [reflexivity |].
  fold (initCounts tabPaths) in I1, I2, I3.
  set (c0 := {| resolvedToTabPath := []; incomingCount := initCounts tabPaths |}).
  set (c := countGraph sep tabPaths graph c0).
  assert (K0 : forall x, In x (map_keys (incomingCount c0)) <-> In x tabPaths).
  { intros x. cbn [c0 incomingCount]. rewrite I2. simpl. tauto. }
  destruct (@countGraph_keys sep tabPaths graph c0 I1 K0) as [K1 K2].
  assert (S0 : tableSound sep tabPaths (resolvedToTabPath c0))
    by (intros i m; discriminate).
  destruct (@countGraph_table sep tabPaths graph c0 S0) as (T1 & _ & T3).
  split; [exact K1 | split; [exact K2 | split; [| split; [exact T1 | exact T3]]]].
  intros p Hp.
  pose proof (countGraph_counts sep tabPaths graph c0 p) as Hc.
  cbn [c0 incomingCount] in Hc. rewrite I3 in Hc.
  rewrite entriesInto_inDegree in Hc by assumption.
  apply K2 in Hp. fold c in Hc.
  destruct (map_get (incomingCount c) p) as [n |] eqn:E.
  - rewrite numOr_zero in Hc. simpl in Hc. congruence.
  - apply map_get_None in E. contradiction.
Qed.

Lemma start_inv :
  TraversalInv sep graph tabPaths []
    (snd (startTraversal sep graph tabPaths)).
Proof.
  destruct counting_spec as (K1 & K2 & K3 & _ & _).
  unfold startTraversal. rewrite seedQueue_spec. cbn [snd app].
  set (c := countGraph sep tabPaths graph _) in *.
  assert (Hz : forall p, In p (zeroKeys (incomingCount c)) <->
                         In p tabPaths /\ inDegree sep graph tabPaths p = 0).
  { intros p. rewrite zeroKeys_In. split.
    - intros Hin. pose proof (@map_get_entry _ _ _ _ K1 Hin) as Hg.
      assert (Hp : In p tabPaths)
        by (apply K2; eapply map_get_Some_In; eauto).
      rewrite (K3 p Hp) in Hg. split; [assumption | congruence].
    - intros [Hp Hd]. apply map_get_In_entry. rewrite (K3 p Hp).
      now rewrite Hd. }
  constructor; cbn [queue depths remaining app].
  - now apply zeroKeys_NoDup.
  - intros p Hp. now apply Hz.
  - intros p Hp. exists (inDegree sep graph tabPaths p).
    split; [now apply K3 | simpl; lia].
  - intros p Hp. apply Hz in Hp. destruct Hp as [Hp Hd].
    rewrite (K3 p Hp). now rewrite Hd.
  - intros p. rewrite seedDepths_get.
    destruct (in_dec string_dec p (zeroKeys (incomingCount c))) as [Hin | Hin].
    + split; [intros _; left; now apply Hz | discriminate].
    + simpl. split; [congruence |].
      intros [H | (v & [] & _)]. apply Hz in H. contradiction.
  - intros p d. rewrite seedDepths_get.
    destruct (in_dec string_dec p (zeroKeys (incomingCount c))) as [Hin | Hin].
    + intros [= <-]. apply Hz in Hin. tauto.
    + discriminate.
Qed.

Lemma start_table :
  tableSound sep tabPaths
    (resolvedToTabPath (fst (startTraversal sep graph tabPaths)))
  /\ (forall f imports i, In (f, imports) graph -> In i imports ->
        tableCovers sep tabPaths
          (resolvedToTabPath (fst (startTraversal sep graph tabPaths))) i).
Proof.
  destruct counting_spec as (_ & _ & _ & T1 & T3).
  unfold startTraversal. rewrite seedQueue_spec. cbn [fst]. auto.
Qed.

Lemma states_inv (table : list (string * string)) (fuel : nat) :
  tableSound sep tabPaths table ->
  (forall f imports i, In (f, imports) graph -> In i imports ->
                       tableCovers sep tabPaths table i) ->
  forall (visited : list string) (t : Traversal),
    TraversalInv sep graph tabPaths visited t ->
    Forall (fun s => exists V, TraversalInv sep graph tabPaths V s)
      (traversalStates fuel graph table t).
Proof.
  intros Hs Hc. induction fuel as [| fuel IH]; intros visited [q d r] Hinv;
    cbn [traversalStates queue depths remaining].
  - constructor; [eauto |]. destruct q; constructor.
  - constructor; [eauto |]. destruct q as [| current rest]; [constructor |].
    eapply IH. eapply visit_inv; eauto.
Qed.

Lemma assignRemaining_get (l : list string) (M : nat) :
  forall (d : list (string * nat)) (p : string),
    map_get (assignRemaining l M d) p
    = match map_get d p with
      | Some k => Some k
      | None => if in_dec string_dec p l then Some (M + 1) else None
      end.
Proof.
  induction l as [| x l IH]; intros d p; simpl.
  - now destruct (map_get d p).
  - destruct (map_has d x) eqn:Hx; rewrite IH.
    + destruct (map_get d p) eqn:Ep; [reflexivity |].
      destruct (string_dec x p) as [-> | Hne].
      * apply map_has_true in Hx. apply map_get_None in Ep. contradiction.
      * now destruct (in_dec string_dec p l).
    + destruct (string_dec x p) as [-> | Hne].
      * rewrite map_get_set_same.
        assert (Ep : map_get d p = None).
        { unfold map_has in Hx. now destruct (map_get d p). }
        now rewrite Ep.
      * rewrite map_get_set_other by congruence.
        destruct (map_get d p); [reflexivity |].
        now destruct (in_dec string_dec p l).
Qed.
End ScoreFacts.

(** The traversal of [calculateImportScores] ends, and its invariant holds
    of the state it ends in. *)
Lemma drained_spec (sep : ascii) (fuel : nat) (graph : ImportGraph)
  (tabs : list Tab) :
  NoDup (map_keys graph) ->
  length tabs < fuel ->
  exists t,
    drained sep fuel graph tabs = Some t
    /\ queue t = []
    /\ TraversalInv sep graph (tabPathsOf tabs) (dequeued sep fuel graph tabs) t.
Proof.
  intros Hnd Hfuel. unfold drained, dequeued.
  pose proof (@start_inv sep graph (tabPathsOf tabs) Hnd) as Hinv.
  destruct (@start_table sep graph (tabPathsOf tabs) Hnd) as [Hs Hc].
  destruct (startTraversal sep graph (tabPathsOf tabs)) as [c t0].
  cbn [fst snd] in *.
  destruct (@drain_inv sep graph (tabPathsOf tabs) (resolvedToTabPath c)
              Hs Hc fuel [] t0 Hinv) as (t & E & Hq & Hinv').
  - pose proof (tabPathsOf_length tabs). simpl. lia.
  - exists t. auto.
Qed.

(** ** Depths *)

Section DepthFacts.
Variable sep : ascii.
Variable graph : ImportGraph.
Variable tabPaths : list string.

Lemma edgesInto_zero (W : list string) (p : string) :
  (forall f, In f W -> ~ In p (edgesFrom sep graph tabPaths f)) ->
  edgesInto sep graph tabPaths W p = 0.
Proof.
  induction W as [| f W IH]; intros H; simpl; [reflexivity |].
  rewrite IH by (intros g Hg; apply H; now right).
  pose proof (H f (or_introl eq_refl)) as Hf.
  apply (count_occ_not_In string_dec) in Hf. now rewrite Hf.
Qed.


Lemma inDegree_zero_iff (p : string) :
  inDegree sep graph tabPaths p = 0 <->
  forall f, ~ In p (edgesFrom sep graph tabPaths f).
Proof.
  split.
  - intros Hz f Hin. apply edgesFrom_inDegree in Hin. lia.
  - intros H. apply edgesInto_zero. intros f _. apply H.
Qed.

Lemma seeds_spec (p : string) :
  NoDup (map_keys graph) ->
  In p (queue (snd (startTraversal sep graph tabPaths))) <->
  In p tabPaths /\ inDegree sep graph tabPaths p = 0.
Proof.
  intros Hnd.
  destruct (@counting_spec sep graph tabPaths Hnd) as (K1 & K2 & K3 & _ & _).
  unfold startTraversal. rewrite seedQueue_spec. cbn [snd app queue].
  set (c := countGraph sep tabPaths graph _) in *.
  rewrite zeroKeys_In. split.
  - intros Hin. pose proof (@map_get_entry _ _ _ _ K1 Hin) as Hg.
    assert (Hp : In p tabPaths)
      by (apply K2; eapply map_get_Some_In; eauto).
    rewrite (K3 p Hp) in Hg. split; [assumption | congruence].
  - intros [Hp Hd]. apply map_get_In_entry. rewrite (K3 p Hp).
    now rewrite Hd.
Qed.


End DepthFacts.


(** The fixture of the specification: two files whose texts each require
    the other both get depth 1. *)
Example two_file_cycle_fixture :
  let st := buildImportGraph (Fixture.host Fixture.twoCycleWorld) newStrategy
              Fixture.twoCycleTabs in
  importGraph st = [("/p/a.ts", ["/p/b.ts"]); ("/p/b.ts", ["/p/a.ts"])]
  /\ calculateImportScores "/" 3 (importGraph st) Fixture.twoCycleTabs
     = Some [("/p/a.ts", 1); ("/p/b.ts", 1)].
Proof. split; reflexivity. Qed.

(** C2, as stated, fails: [self.ts] imports itself and no other open file
    has a matched edge into it, yet it is not on the initial queue and its
    depth is 1, not 0: the edge from a file to itself is an incoming edge
    like any other. *)
Lemma self_import_alone_is_not_depth_zero :
  let g := importGraph (buildImportGraph (Fixture.host Fixture.selfImportWorld)
                          newStrategy Fixture.selfImportTabs) in
  let paths := tabPathsOf Fixture.selfImportTabs in
  In "/p/self.ts" paths
  /\ (forall f, f <> "/p/self.ts" ->
                ~ In "/p/self.ts" (edgesFrom "/" g paths f))
  /\ ~ In "/p/self.ts" (queue (snd (startTraversal "/" g paths)))
  /\ calculateImportScores "/" 3 g Fixture.selfImportTabs
     = Some [("/p/a.ts", 0); ("/p/self.ts", 1)]
  /\ ~ (forall scores,
          calculateImportScores "/" 3 g Fixture.selfImportTabs = Some scores ->
          (map_get scores "/p/self.ts" = Some 0 <->
           forall f, f <> "/p/self.ts" ->
                     ~ In "/p/self.ts" (edgesFrom "/" g paths f))).
Proof.
  intros g paths.
  assert (Hother : forall f, f <> "/p/self.ts" ->
                             ~ In "/p/self.ts" (edgesFrom "/" g paths f)).
  { intros f Hf. unfold edgesFrom.
    change g with [("/p/a.ts", @nil string); ("/p/self.ts", ["/p/self.ts"])].
    cbn [map_get].
    destruct (String.eqb_spec "/p/a.ts" f) as [_ | _]; [intros [] |].
    destruct (String.eqb_spec "/p/self.ts" f) as [E | _];
      [congruence | intros []]. }
  split; [cbv; tauto |].
  split; [exact Hother |].
  split; [vm_compute; intros [H | []]; discriminate H |].
  split; [vm_compute; reflexivity |].
  intros H. specialize (H _ eq_refl).
  apply proj2 in H. specialize (H Hother). vm_compute in H. discriminate H.
Qed.

(** C2 (amended): over an import graph (a JavaScript object: its keys are
    distinct) and for every open path [p], the score calculator returns,
    and the depth it gives [p] is 0 exactly when no file of the graph - [p]
    itself included - has a matched edge into [p]; such a path is on the
    initial queue with depth 0, and its depth is still 0 each time the loop
    condition is evaluated. *)
Theorem depth_zero_iff_no_incoming_edge
  (sep : ascii) (fuel : nat) (graph : ImportGraph) (tabs : list Tab)
  (p : string)
  (Hgraph : NoDup (map_keys graph))
  (Hfuel : length tabs < fuel)
  (Hopen : In p (tabPathsOf tabs)) :
  exists scores,
    calculateImportScores sep fuel graph tabs = Some scores
    /\ (map_get scores p = Some 0 <->
        forall f, ~ In p (edgesFrom sep graph (tabPathsOf tabs) f))
    /\ ((forall f, ~ In p (edgesFrom sep graph (tabPathsOf tabs) f)) ->
        In p (queue (snd (startTraversal sep graph (tabPathsOf tabs))))
        /\ Forall (fun s => map_get (depths s) p = Some 0)
             (traversalStates fuel graph
                (resolvedToTabPath (fst (startTraversal sep graph (tabPathsOf tabs))))
                (snd (startTraversal sep graph (tabPathsOf tabs))))).
Proof.
  destruct (@drained_spec sep fuel graph tabs Hgraph Hfuel) as (t & E & Hq & Hinv).
  unfold calculateImportScores. rewrite E. eexists. split; [reflexivity |].
  rewrite <- inDegree_zero_iff. split.
  - rewrite assignRemaining_get.
    destruct (map_get (depths t) p) as [k |] eqn:Ek.
    + pose proof (inv_depth_roots Hinv _ Ek) as Hr. split.
      * intros [= ->]. now apply Hr.
      * intros Hz. f_equal. now apply Hr.
    + split.
      * destruct (in_dec string_dec p (tabPathsOf tabs)); [| discriminate].
        intros [= H]. lia.
      * intros Hz. exfalso.
        assert (H : map_get (depths t) p <> None)
          by (apply (inv_depth_keys Hinv); left; auto).
        contradiction.
  - intros Hz. split; [apply seeds_spec; auto |].
    destruct (@start_table sep graph (tabPathsOf tabs) Hgraph) as [Hs Hc].
    pose proof (@states_inv sep graph (tabPathsOf tabs) _ fuel Hs Hc []
                  _ (@start_inv sep graph (tabPathsOf tabs) Hgraph)) as Hall.
    eapply Forall_impl; [| exact Hall].
    intros s [V HV]. cbv beta.
    destruct (map_get (depths s) p) as [k |] eqn:Ek.
    + f_equal. now apply (inv_depth_roots HV _ Ek).
    + exfalso.
      assert (H : map_get (depths s) p <> None)
        by (apply (inv_depth_keys HV); left; auto).
      contradiction.
Qed.

Lemma depth_zero_iff_no_incoming_edge_witness :
  let g := importGraph (buildImportGraph (Fixture.host Fixture.chainIntoCycleWorld)
                          newStrategy Fixture.chainIntoCycleTabs) in
  let paths := tabPathsOf Fixture.chainIntoCycleTabs in
  NoDup (map_keys g)
  /\ length Fixture.chainIntoCycleTabs < 4
  /\ In "/p/a.ts" paths
  /\ exists scores,
       calculateImportScores "/" 4 g Fixture.chainIntoCycleTabs = Some scores
       /\ (map_get scores "/p/a.ts" = Some 0 <->
           forall f, ~ In "/p/a.ts" (edgesFrom "/" g paths f)).
Proof.
  intros g paths.
  assert (H1 : NoDup (map_keys g)).
  { cbv. distinct_strings. }
  assert (H2 : length Fixture.chainIntoCycleTabs < 4) by (simpl; lia).
  assert (H3 : In "/p/a.ts" paths) by (cbv; tauto).
  split; [exact H1 | split; [exact H2 | split; [exact H3 |]]].
  destruct (@depth_zero_iff_no_incoming_edge "/" 4 g Fixture.chainIntoCycleTabs
              "/p/a.ts" H1 H2 H3) as (scores & E & Hiff & _).
  exists scores. split; [exact E | exact Hiff].
Defined.






(** ** The cache and the graph builder *)

Section ExtractionFacts.
Variable env : Host.

Lemma loadPathAliases_fields (st : Strategy) :
  importGraph (loadPathAliases env st) = importGraph st
  /\ importCache (loadPathAliases env st) = importCache st.
Proof.
  unfold loadPathAliases. destruct (pathAliases st); simpl; auto.
Qed.

Lemma resolveImportPath_fields (st : Strategy) (fromFile importPath : string) :
  importGraph (fst (resolveImportPath env st fromFile importPath))
    = importGraph st
  /\ importCache (fst (resolveImportPath env st fromFile importPath))
    = importCache st.
Proof.
  unfold resolveImportPath.
  destruct (startsWith importPath "." || startsWith importPath "/");
    [simpl; auto |].
  destruct (loadPathAliases_fields st) as [Hg Hc].
  destruct (pathAliases (loadPathAliases env st));
    [destruct (baseUrl (loadPathAliases env st)) as [base |];
     [destruct (truthy base) |] |];
    simpl; auto.
Qed.

Lemma resolveMatches_fields (filePath : string) (matches : list string) :
  forall (st : Strategy) (imports : list string),
    importGraph (fst (resolveMatches env st filePath matches imports))
      = importGraph st
    /\ importCache (fst (resolveMatches env st filePath matches imports))
      = importCache st.
Proof.
  induction matches as [| m rest IH]; intros st imports; simpl; [auto |].
  destruct (resolveImportPath_fields st filePath m) as [Hg Hc].
  destruct (resolveImportPath env st filePath m) as [st' r]. simpl in *.
  destruct r as [r |]; [destruct (truthy r) |];
    rewrite <- Hg, <- Hc; apply IH.
Qed.

Lemma extractImports_graph (st : Strategy) (filePath : string) :
  importGraph (fst (extractImports env st filePath)) = importGraph st.
Proof.
  unfold extractImports.
  destruct (map_get (importCache st) filePath); [reflexivity |].
  destruct (match openDocumentText env filePath with
            | Some t => Some t
            | None => readFileSync env filePath
            end) as [text |]; [| reflexivity].
  destruct (truthy text); [| reflexivity]. simpl.
  destruct (resolveMatches_fields filePath (scanImports env text) st [])
    as [Hg _].
  destruct (resolveMatches env st filePath (scanImports env text) [])
    as [st' imports]. simpl in *. exact Hg.
Qed.

(** An extraction returns what the cache holds for the path afterwards,
    and leaves every entry the cache already had. *)
Lemma extractImports_cache (st : Strategy) (filePath : string) :
  map_get (importCache (fst (extractImports env st filePath))) filePath
    = Some (snd (extractImports env st filePath))
  /\ forall q s, map_get (importCache st) q = Some s ->
       map_get (importCache (fst (extractImports env st filePath))) q = Some s.
Proof.
  unfold extractImports.
  destruct (map_get (importCache st) filePath) as [cached |] eqn:E;
    [simpl; auto |].
  assert (Hkeep : forall (c : list (string * list string)) v q s,
             c = importCache st ->
             map_get (importCache st) q = Some s ->
             map_get (map_set c filePath v) q = Some s).
  { intros c v q s -> Hq. rewrite map_get_set_other; [assumption |].
    intros ->. congruence. }
  destruct (match openDocumentText env filePath with
            | Some t => Some t
            | None => readFileSync env filePath
            end) as [text |].
  2: { simpl. rewrite map_get_set_same. split; [reflexivity |].
       intros q s. now apply Hkeep. }
  destruct (truthy text).
  2: { simpl. rewrite map_get_set_same. split; [reflexivity |].
       intros q s. now apply Hkeep. }
  simpl.
  destruct (resolveMatches_fields filePath (scanImports env text) st [])
    as [_ Hc].
  destruct (resolveMatches env st filePath (scanImports env text) [])
    as [st' imports]. simpl in *.
  rewrite map_get_set_same. split; [reflexivity |].
  intros q s. now apply Hkeep.
Qed.

Lemma extractImports_cached (st : Strategy) (filePath : string)
  (s : list string) :
  map_get (importCache st) filePath = Some s ->
  extractImports env st filePath = (st, s).
Proof. intros H. unfold extractImports. now rewrite H. Qed.

Lemma buildLoop_cache (tabs : list Tab) :
  forall (st : Strategy) (q : string) (s : list string),
    map_get (importCache st) q = Some s ->
    map_get (importCache (buildLoop env st tabs)) q = Some s.
Proof.
  induction tabs as [| tab rest IH]; intros st q s Hq; simpl; [assumption |].
  destruct (getTabPath tab) as [filePath |]; [| auto].
  destruct (truthy filePath); [| auto].
  destruct (extractImports_cache st filePath) as [_ Hkeep].
  destruct (extractImports env st filePath) as [st' imports]. simpl in *.
  apply IH. simpl. auto.
Qed.

Lemma buildLoop_keys (tabs : list Tab) :
  forall st : Strategy,
    NoDup (map_keys (importGraph st)) ->
    NoDup (map_keys (importGraph (buildLoop env st tabs))).
Proof.
  induction tabs as [| tab rest IH]; intros st Hnd; simpl; [assumption |].
  destruct (getTabPath tab) as [filePath |]; [| auto].
  destruct (truthy filePath); [| auto].
  pose proof (extractImports_graph st filePath) as Hg.
  destruct (extractImports env st filePath) as [st' imports]. simpl in *.
  apply IH. simpl. apply map_set_NoDup. now rewrite Hg.
Qed.

Lemma buildImportGraph_keys (st : Strategy) (tabs : list Tab) :
  NoDup (map_keys (importGraph (buildImportGraph env st tabs))).
Proof. apply buildLoop_keys. simpl. constructor. Qed.

Lemma buildImportGraph_cache (st : Strategy) (tabs : list Tab)
  (q : string) (s : list string) :
  map_get (importCache st) q = Some s ->
  map_get (importCache (buildImportGraph env st tabs)) q = Some s.
Proof. intros H. apply buildLoop_cache. exact H. Qed.
End ExtractionFacts.

(** ** The comparator sort *)

Section ArraySortFacts.
Variable A : Type.
Variable cmp : A -> A -> Z.

Lemma insertSorted_perm (x : A) (l : list A) :
  Permutation (x :: l) (insertSorted cmp x l).
Proof.
  induction l as [| y l IH]; simpl; [reflexivity |].
  destruct (0 <? cmp x y)%Z; [| reflexivity].
  rewrite perm_swap. now apply perm_skip.
Qed.

Lemma arraySort_perm (l : list A) : Permutation l (arraySort cmp l).
Proof.
  induction l as [| x l IH]; simpl; [constructor |].
  rewrite <- insertSorted_perm. now apply perm_skip.
Qed.

Hypothesis cmp_total : forall a b, (cmp a b <= 0 \/ cmp b a <= 0)%Z.
Hypothesis cmp_trans :
  forall a b c, (cmp a b <= 0 -> cmp b c <= 0 -> cmp a c <= 0)%Z.

Lemma insertSorted_sorted (x : A) (l : list A) :
  StronglySorted (fun a b => (cmp a b <= 0)%Z) l ->
  StronglySorted (fun a b => (cmp a b <= 0)%Z) (insertSorted cmp x l).
Proof.
  induction l as [| y l IH]; intros Hs; simpl.
  - constructor; constructor.
  - inversion Hs as [| ? ? Hl Hy]; subst.
    destruct (Z.ltb_spec 0 (cmp x y)) as [Hgt | Hle].
    + constructor; [auto |].
      apply Forall_forall. intros z Hz.
      apply (Permutation_in _ (Permutation_sym (insertSorted_perm x l))) in Hz.
      destruct Hz as [<- | Hz].
      * destruct (cmp_total x y); [lia | assumption].
      * rewrite Forall_forall in Hy. auto.
    + constructor; [assumption |].
      constructor; [assumption |].
      eapply Forall_impl; [| exact Hy].
      intros z Hz. cbv beta in *. eapply cmp_trans; eauto.
Qed.

Lemma arraySort_sorted (l : list A) :
  StronglySorted (fun a b => (cmp a b <= 0)%Z) (arraySort cmp l).
Proof.
  induction l as [| x l IH]; simpl; [constructor |].
  now apply insertSorted_sorted.
Qed.
End ArraySortFacts.

Lemma StronglySorted_earlier (A : Type) (R : A -> A -> Prop)
  (before : list A) (x : A) (middle : list A) (y : A) (after : list A) :
  StronglySorted R (before ++ x :: middle ++ y :: after)%list -> R x y.
Proof.
  induction before as [| b before IH]; simpl; intros Hs.
  - inversion Hs as [| ? ? _ Hall]; subst.
    rewrite Forall_forall in Hall. apply Hall.
    apply in_or_app. right. now left.
  - inversion Hs; subst. auto.
Qed.

Section ComparatorFacts.
Variable env : Host.
Variable scores : list (string * nat).
Hypothesis collation_total :
  forall a b, (localeCompare env a b <= 0 \/ localeCompare env b a <= 0)%Z.
Hypothesis collation_trans :
  forall a b c, (localeCompare env a b <= 0 -> localeCompare env b c <= 0 ->
                 localeCompare env a c <= 0)%Z.

Lemma compareTabs_total (a b : Tab) :
  (compareTabs env scores a b <= 0 \/ compareTabs env scores b a <= 0)%Z.
Proof.
  unfold compareTabs.
  destruct (sortablePath a) as [pa |], (sortablePath b) as [pb |];
    try lia.
  destruct (Nat.eqb_spec (numOr (map_get scores pa) 0)
              (numOr (map_get scores pb) 0)) as [E | E]; simpl.
  - rewrite E, Nat.eqb_refl. simpl. apply collation_total.
  - destruct (Nat.eqb_spec (numOr (map_get scores pb) 0)
                (numOr (map_get scores pa) 0)); [congruence |].
    simpl. lia.
Qed.

Lemma compareTabs_trans (a b c : Tab) :
  (compareTabs env scores a b <= 0 -> compareTabs env scores b c <= 0 ->
   compareTabs env scores a c <= 0)%Z.
Proof.
  unfold compareTabs.
  destruct (sortablePath a) as [pa |], (sortablePath b) as [pb |],
           (sortablePath c) as [pc |]; try lia.
  destruct (Nat.eqb_spec (numOr (map_get scores pa) 0)
              (numOr (map_get scores pb) 0)) as [E1 | E1];
    destruct (Nat.eqb_spec (numOr (map_get scores pb) 0)
                (numOr (map_get scores pc) 0)) as [E2 | E2];
    destruct (Nat.eqb_spec (numOr (map_get scores pa) 0)
                (numOr (map_get scores pc) 0)) as [E3 | E3];
    simpl; try lia.
  apply collation_trans.
Qed.
End ComparatorFacts.

Lemma sort_returns (env : Host) (fuel : nat) (st : Strategy)
  (tabs : list Tab) :
  length tabs < fuel ->
  exists scores,
    calculateImportScores (path_sep env) fuel
      (importGraph (buildImportGraph env st tabs)) tabs = Some scores
    /\ sort env fuel st tabs
       = Some (buildImportGraph env st tabs,
               arraySort (compareTabs env scores) tabs).
Proof.
  intros Hfuel.
  destruct (@drained_spec (path_sep env) fuel
              (importGraph (buildImportGraph env st tabs)) tabs
              (buildImportGraph_keys env st tabs) Hfuel) as (t & E & _ & _).
  unfold sort, calculateImportScores. rewrite E. eexists. split; reflexivity.
Qed.

(** C1: [sort] returns, and what it returns is a permutation of the tabs
    it was given: no tab is created, dropped or duplicated. *)
Theorem sort_is_permutation (env : Host) (fuel : nat) (st : Strategy)
  (tabs : list Tab) (Hfuel : length tabs < fuel) :
  exists st' sorted,
    sort env fuel st tabs = Some (st', sorted)
    /\ Permutation tabs sorted.
Proof.
  destruct (@sort_returns env fuel st tabs Hfuel) as (scores & _ & E).
  do 2 eexists. split; [exact E |]. apply arraySort_perm.
Qed.

Lemma sort_is_permutation_witness :
  exists st' sorted,
    sort (Fixture.host Fixture.chainIntoCycleWorld) 4 newStrategy
      [Fixture.tab 3 "/p/c.ts"; Fixture.tab 2 "/p/b.ts"; Fixture.tab 1 "/p/a.ts"]
    = Some (st', sorted)
    /\ Permutation
         [Fixture.tab 3 "/p/c.ts"; Fixture.tab 2 "/p/b.ts"; Fixture.tab 1 "/p/a.ts"]
         sorted.
Proof.
  apply (@sort_is_permutation (Fixture.host Fixture.chainIntoCycleWorld) 4
           newStrategy
           [Fixture.tab 3 "/p/c.ts"; Fixture.tab 2 "/p/b.ts"; Fixture.tab 1 "/p/a.ts"]).
  simpl. lia.
Defined.

Example sort_orders_importers_first :
  option_map snd
    (sort (Fixture.host Fixture.chainIntoCycleWorld) 4 newStrategy
       [Fixture.tab 3 "/p/c.ts"; Fixture.tab 2 "/p/b.ts"; Fixture.tab 1 "/p/a.ts"])
  = Some [Fixture.tab 1 "/p/a.ts"; Fixture.tab 2 "/p/b.ts"; Fixture.tab 3 "/p/c.ts"].
Proof. reflexivity. Qed.

(** ** Ties between tabs of equal depth *)

Lemma ascii_compare_refl (x : ascii) : Ascii.compare x x = Eq.
Proof. unfold Ascii.compare. apply N.compare_refl. Qed.

Lemma ascii_compare_lt_trans (x y z : ascii) :
  Ascii.compare x y = Lt -> Ascii.compare y z = Lt -> Ascii.compare x z = Lt.
Proof.
  unfold Ascii.compare. rewrite !N.compare_lt_iff. apply N.lt_trans.
Qed.

Lemma string_compare_le_trans (a : string) :
  forall b c : string,
    String.compare a b <> Gt -> String.compare b c <> Gt ->
    String.compare a c <> Gt.
Proof.
  induction a as [| x a IH]; intros [| y b] [| z c]; simpl;
    try congruence.
  destruct (Ascii.compare x y) eqn:Exy; destruct (Ascii.compare y z) eqn:Eyz;
    try congruence.
  - apply Ascii.compare_eq_iff in Exy, Eyz. subst.
    rewrite ascii_compare_refl. apply IH.
  - apply Ascii.compare_eq_iff in Exy. subst. now rewrite Eyz.
  - apply Ascii.compare_eq_iff in Eyz. subst. now rewrite Exy.
  - now rewrite (ascii_compare_lt_trans _ _ _ Exy Eyz).
Qed.

Lemma codePointCompare_total (a b : string) :
  (Fixture.codePointCompare a b <= 0 \/ Fixture.codePointCompare b a <= 0)%Z.
Proof.
  unfold Fixture.codePointCompare. rewrite (String.compare_antisym a b).
  destruct (String.compare b a); simpl; lia.
Qed.

Lemma codePointCompare_trans (a b c : string) :
  (Fixture.codePointCompare a b <= 0 -> Fixture.codePointCompare b c <= 0 ->
   Fixture.codePointCompare a c <= 0)%Z.
Proof.
  unfold Fixture.codePointCompare. intros Hab Hbc.
  assert (H1 : String.compare a b <> Gt)
    by (destruct (String.compare a b); [discriminate | discriminate | lia]).
  assert (H2 : String.compare b c <> Gt)
    by (destruct (String.compare b c); [discriminate | discriminate | lia]).
  pose proof (string_compare_le_trans a b c H1 H2) as H3.
  destruct (String.compare a c); [lia | lia | congruence].
Qed.

(** C4, as stated, fails: the tie is broken by [localeCompare], which is
    locale-aware.  Under a collation that compares letters without regard
    to case first, [/p/a.ts] and [/p/B.ts], both of depth 0, come out with
    [/p/a.ts] first, although [/p/a.ts] is the greater of the two in
    code-point order. *)
Lemma locale_order_is_not_code_point_order :
  let env := Fixture.host Fixture.mixedCaseWorld in
  exists st' scores,
    calculateImportScores (path_sep env) 3
      (importGraph (buildImportGraph env newStrategy Fixture.mixedCaseTabs))
      Fixture.mixedCaseTabs = Some scores
    /\ sort env 3 newStrategy Fixture.mixedCaseTabs
       = Some (st', [Fixture.tab 2 "/p/a.ts"; Fixture.tab 1 "/p/B.ts"])
    /\ numOr (map_get scores "/p/a.ts") 0 = numOr (map_get scores "/p/B.ts") 0
    /\ Fixture.codePointCompare "/p/a.ts" "/p/B.ts" = 1%Z.
Proof.
  intros env. do 2 eexists.
  split; [vm_compute; reflexivity |].
  split; [vm_compute; reflexivity |].
  split; reflexivity.
Qed.

(** C4 (amended): when the collation of [localeCompare] is a total
    preorder, [sort] returns, and any two tabs of its result that have a
    truthy path and equal depth scores are in ascending order of
    [localeCompare] on their path strings - the locale-aware collation of
    the host, not plain code-point order. *)
Theorem equal_depth_ties_follow_localeCompare
  (env : Host) (fuel : nat) (st : Strategy) (tabs : list Tab)
  (Htotal : forall a b,
      (localeCompare env a b <= 0 \/ localeCompare env b a <= 0)%Z)
  (Htrans : forall a b c,
      (localeCompare env a b <= 0 -> localeCompare env b c <= 0 ->
       localeCompare env a c <= 0)%Z)
  (Hfuel : length tabs < fuel) :
  exists st' scores sorted,
    calculateImportScores (path_sep env) fuel
      (importGraph (buildImportGraph env st tabs)) tabs = Some scores
    /\ sort env fuel st tabs = Some (st', sorted)
    /\ forall before x middle y after pathX pathY,
         sorted = (before ++ x :: middle ++ y :: after)%list ->
         sortablePath x = Some pathX ->
         sortablePath y = Some pathY ->
         numOr (map_get scores pathX) 0 = numOr (map_get scores pathY) 0 ->
         (localeCompare env pathX pathY <= 0)%Z.
Proof.
  destruct (@sort_returns env fuel st tabs Hfuel) as (scores & Es & E).
  do 3 eexists. split; [exact Es | split; [exact E |]].
  intros before x middle y after pathX pathY Hsorted Hx Hy Hd.
  pose proof (@arraySort_sorted Tab (compareTabs env scores)
                (@compareTabs_total env scores Htotal)
                (@compareTabs_trans env scores Htrans) tabs) as Hs.
  rewrite Hsorted in Hs. apply StronglySorted_earlier in Hs.
  unfold compareTabs in Hs. rewrite Hx, Hy, Hd, Nat.eqb_refl in Hs.
  exact Hs.
Qed.

Lemma equal_depth_ties_follow_localeCompare_witness :
  let env := Fixture.host Fixture.twoCycleWorld in
  let tabs := [Fixture.tab 2 "/p/b.ts"; Fixture.tab 1 "/p/a.ts"] in
  length tabs < 3
  /\ exists st' scores sorted,
       calculateImportScores (path_sep env) 3
         (importGraph (buildImportGraph env newStrategy tabs)) tabs = Some scores
       /\ sort env 3 newStrategy tabs = Some (st', sorted)
       /\ forall before x middle y after pathX pathY,
            sorted = (before ++ x :: middle ++ y :: after)%list ->
            sortablePath x = Some pathX ->
            sortablePath y = Some pathY ->
            numOr (map_get scores pathX) 0 = numOr (map_get scores pathY) 0 ->
            (localeCompare env pathX pathY <= 0)%Z.
Proof.
  intros env tabs.
  assert (H : length tabs < 3) by (simpl; lia).
  split; [exact H |].
  exact (@equal_depth_ties_follow_localeCompare env 3 newStrategy tabs
           codePointCompare_total codePointCompare_trans H).
Defined.

Example equal_depth_tie_in_code_point_collation :
  option_map snd
    (sort (Fixture.host Fixture.twoCycleWorld) 3 newStrategy
       [Fixture.tab 2 "/p/b.ts"; Fixture.tab 1 "/p/a.ts"])
  = Some [Fixture.tab 1 "/p/a.ts"; Fixture.tab 2 "/p/b.ts"].
Proof. reflexivity. Qed.

(** ** Sorting again *)

Section RerunFacts.
Variable env : Host.

(** Running the builder's loop on a state whose cache holds everything a
    first run ended with rebuilds the graph of the first run and changes
    nothing else. *)
Lemma buildLoop_rerun (tabs : list Tab) :
  forall (st later : Strategy),
    (forall q s, map_get (importCache (buildLoop env st tabs)) q = Some s ->
                 map_get (importCache later) q = Some s) ->
    buildLoop env (setGraph later (importGraph st)) tabs
    = setGraph later (importGraph (buildLoop env st tabs)).
Proof.
  induction tabs as [| tab rest IH]; intros st later Hlater; simpl in *;
    [reflexivity |].
  destruct (getTabPath tab) as [filePath |]; [| auto].
  destruct (truthy filePath); [| auto].
  pose proof (extractImports_graph env st filePath) as Hg.
  destruct (extractImports_cache env st filePath) as [Hret _].
  destruct (extractImports env st filePath) as [st1 imports] eqn:E1.
  cbn [fst snd] in *.
  set (st2 := setGraph st1 (map_set (importGraph st1) filePath imports)) in *.
  assert (Hc : map_get (importCache later) filePath = Some imports).
  { apply Hlater. apply buildLoop_cache. exact Hret. }
  rewrite (@extractImports_cached env (setGraph later (importGraph st))
             filePath imports Hc).
  cbn [setGraph importGraph importCache pathAliases baseUrl].
  rewrite <- Hg.
  exact (IH st2 later Hlater).
Qed.

Lemma buildImportGraph_rerun (st : Strategy) (tabs : list Tab) :
  buildImportGraph env (buildImportGraph env st tabs) tabs
  = buildImportGraph env st tabs.
Proof.
  unfold buildImportGraph at 1.
  change (@nil (string * list string)) with (importGraph (setGraph st [])) at 1.
  rewrite buildLoop_rerun.
  - fold (buildImportGraph env st tabs).
    now destruct (buildImportGraph env st tabs).
  - intros q s H. exact H.
Qed.
End RerunFacts.

(** C9: two calls of [sort] in succession on the same instance, with the
    same tabs and the same environment, both return, and return the same
    ordering; the second call leaves the instance as the first left it. *)
Theorem sort_twice_same_order
  (env : Host) (fuel : nat) (st : Strategy) (tabs : list Tab)
  (Hfuel : length tabs < fuel) :
  exists st1 sorted,
    sort env fuel st tabs = Some (st1, sorted)
    /\ sort env fuel st1 tabs = Some (st1, sorted).
Proof.
  destruct (@sort_returns env fuel st tabs Hfuel) as (scores & Es & E).
  do 2 eexists. split; [exact E |].
  unfold sort. rewrite buildImportGraph_rerun, Es. reflexivity.
Qed.

Lemma sort_twice_same_order_witness :
  exists st1 sorted,
    sort (Fixture.host Fixture.chainIntoCycleWorld) 4 newStrategy
      Fixture.chainIntoCycleTabs = Some (st1, sorted)
    /\ sort (Fixture.host Fixture.chainIntoCycleWorld) 4 st1
         Fixture.chainIntoCycleTabs = Some (st1, sorted).
Proof.
  apply (@sort_twice_same_order (Fixture.host Fixture.chainIntoCycleWorld) 4
           newStrategy Fixture.chainIntoCycleTabs).
  simpl. lia.
Defined.

(** ** The extraction cache *)

Lemma sort_state (env : Host) (fuel : nat) (st st' : Strategy)
  (tabs sorted : list Tab) :
  sort env fuel st tabs = Some (st', sorted) ->
  st' = buildImportGraph env st tabs.
Proof.
  unfold sort.
  destruct (calculateImportScores (path_sep env) fuel
              (importGraph (buildImportGraph env st tabs)) tabs);
    [| discriminate].
  now intros [= <- _].
Qed.

Lemma cache_entry_kept (st st' : Strategy) (p : string) (s : list string) :
  ReachedWithoutClearing st st' ->
  map_get (importCache st) p = Some s ->
  map_get (importCache st') p = Some s.
Proof.
  intros Hr Hp. induction Hr as [| env st' q Hr IH | env fuel st' st'' tabs sorted Hr IH Hs].
  - exact Hp.
  - now apply extractImports_cache.
  - apply sort_state in Hs. subst st''. now apply buildImportGraph_cache.
Qed.

Lemma buildLoop_graph_cached (env : Host) (p : string) (s : list string)
  (tabs : list Tab) :
  forall st : Strategy,
    map_get (importCache st) p = Some s ->
    (exists tab, In tab tabs /\ getTabPath tab = Some p /\ truthy p = true)
    \/ map_get (importGraph st) p = Some s ->
    map_get (importGraph (buildLoop env st tabs)) p = Some s.
Proof.
  induction tabs as [| tab rest IH]; intros st Hc Hp; simpl.
  - destruct Hp as [(t & [] & _) | Hp]. exact Hp.
  - destruct (getTabPath tab) as [q |] eqn:Eq.
    2: { apply IH; [exact Hc |].
         destruct Hp as [(t & [<- | Hin] & Ht & Tp) | Hp];
           [congruence | left; eauto | now right]. }
    destruct (truthy q) eqn:Tq.
    2: { apply IH; [exact Hc |].
         destruct Hp as [(t & [<- | Hin] & Ht & Tp) | Hp];
           [congruence | left; eauto | now right]. }
    pose proof (extractImports_graph env st q) as Hg.
    destruct (extractImports_cache env st q) as [_ Hkeep].
    destruct (string_dec q p) as [-> | Hne].
    + rewrite (extractImports_cached env st p Hc) in *. cbn [fst snd] in *.
      apply IH; [exact Hc |]. right. simpl. apply map_get_set_same.
    + destruct (extractImports env st q) as [st1 imports].
      cbn [fst snd] in *.
      apply IH; [simpl; auto |].
      destruct Hp as [(t & [<- | Hin] & Ht & Tp) | Hp].
      * congruence.
      * left. eauto.
      * right. simpl. rewrite map_get_set_other by congruence.
        now rewrite Hg.
Qed.

(** C8: when a file that is not an open document cannot be read, its
    extraction returns the empty set without an error and stores the empty
    set in the cache under its path; from then on, through any extractions
    and [sort] calls in any environment, the extraction for that path
    returns the empty set without consulting the environment, and a [sort]
    over a tab of that path puts the empty set in the graph.  In general an
    entry of the cache is returned unchanged by every later extraction for
    its path, until [clearCache], which empties the cache. *)
Theorem unreadable_file_is_cached_as_empty
  (env : Host) (st : Strategy) (filePath : string)
  (Hnew : map_get (importCache st) filePath = None)
  (Hclosed : openDocumentText env filePath = None)
  (Hfail : readFileSync env filePath = None) :
  extractImports env st filePath = (setCache st filePath [], [])
  /\ map_get (importCache (setCache st filePath [])) filePath = Some []
  /\ (forall (st' : Strategy) (env' : Host),
        ReachedWithoutClearing (setCache st filePath []) st' ->
        extractImports env' st' filePath = (st', [])
        /\ forall tabs tab,
             In tab tabs -> getTabPath tab = Some filePath ->
             truthy filePath = true ->
             map_get (importGraph (buildImportGraph env' st' tabs)) filePath
             = Some [])
  /\ (forall (st0 st' : Strategy) (p : string) (s : list string) (env' : Host),
        map_get (importCache st0) p = Some s ->
        ReachedWithoutClearing st0 st' ->
        extractImports env' st' p = (st', s))
  /\ (forall (st' : Strategy) (p : string),
        map_get (importCache (clearCache st')) p = None).
Proof.
  assert (Hgen : forall (st0 st' : Strategy) (p : string) (s : list string)
                        (env' : Host),
             map_get (importCache st0) p = Some s ->
             ReachedWithoutClearing st0 st' ->
             extractImports env' st' p = (st', s)).
  { intros st0 st' p s env' Hp Hr. apply extractImports_cached.
    eapply cache_entry_kept; eauto. }
  assert (Hset : map_get (importCache (setCache st filePath [])) filePath
                 = Some []) by (simpl; apply map_get_set_same).
  split; [| split; [exact Hset | split; [| split; [exact Hgen |]]]].
  - unfold extractImports. now rewrite Hnew, Hclosed, Hfail.
  - intros st' env' Hr. split; [now apply (Hgen _ _ _ _ env' Hset) |].
    intros tabs tab Hin Hpath Ht.
    apply buildLoop_graph_cached.
    + simpl. eapply cache_entry_kept; eauto.
    + left. eauto.
  - intros st' p. reflexivity.
Qed.

Lemma unreadable_file_is_cached_as_empty_witness :
  let env := Fixture.host Fixture.unreadableWorld in
  let env' := Fixture.host Fixture.readableAgainWorld in
  map_get (importCache newStrategy) "/p/a.ts" = None
  /\ openDocumentText env "/p/a.ts" = None
  /\ readFileSync env "/p/a.ts" = None
  /\ extractImports env newStrategy "/p/a.ts"
     = (setCache newStrategy "/p/a.ts" [], [])
  /\ extractImports env' (setCache newStrategy "/p/a.ts" []) "/p/a.ts"
     = (setCache newStrategy "/p/a.ts" [], []).
Proof.
  intros env env'.
  assert (H1 : map_get (importCache newStrategy) "/p/a.ts" = None)
    by reflexivity.
  assert (H2 : openDocumentText env "/p/a.ts" = None) by reflexivity.
  assert (H3 : readFileSync env "/p/a.ts" = None) by reflexivity.
  destruct (@unreadable_file_is_cached_as_empty env newStrategy "/p/a.ts"
              H1 H2 H3) as (E & _ & Hlater & _ & _).
  split; [exact H1 | split; [exact H2 | split; [exact H3 | split; [exact E |]]]].
  exact (proj1 (Hlater _ env' (reached_here _))).
Defined.

(** The cache effect of the specification: once the unreadable file has
    been sorted, a later [sort] does not see that it has become readable;
    after [clearCache] it does. *)
Example stale_entry_masks_new_content :
  let env := Fixture.host Fixture.unreadableWorld in
  let env' := Fixture.host Fixture.readableAgainWorld in
  let tabs := [Fixture.tab 1 "/p/a.ts"; Fixture.tab 2 "/p/b.ts"] in
  let st1 := buildImportGraph env newStrategy tabs in
  importGraph (buildImportGraph env' st1 tabs)
    = [("/p/a.ts", []); ("/p/b.ts", [])]
  /\ importGraph (buildImportGraph env' (clearCache st1) tabs)
    = [("/p/a.ts", ["/p/b.ts"]); ("/p/b.ts", [])].
Proof. split; reflexivity. Qed.

(** ** The alias-table loader *)

Section LoaderFacts.
Variable env : Host.
Variable rootDir : string.

Lemma tryConfigFile_skipped (configFile : string) (a : AliasState) :
  Skipped env rootDir configFile ->
  tryConfigFile env rootDir configFile a = (a, Continue).
Proof.
  intros Hs. unfold tryConfigFile.
  destruct (existsSync env (path_join env rootDir configFile)) eqn:He;
    [simpl | reflexivity].
  destruct Hs as [Hm | Hr | content Hr Hp | content config Hr Hp Hn].
  - congruence.
  - now rewrite Hr.
  - now rewrite Hr, Hp.
  - rewrite Hr, Hp.
    destruct Hn as (members & -> & [Hc | (options & Hc & [Hpaths | Hpaths])]);
      unfold readConfig; cbn [getProp]; rewrite Hc; cbn [jsonTruthy getProp];
      [reflexivity | now rewrite Hpaths | now rewrite Hpaths].
Qed.

Lemma setAliases_readable (entries : list (string * json)) :
  Forall (readableEntry) entries ->
  forall table, snd (setAliases entries table) = false.
Proof.
  induction 1 as [| [alias targets] rest Hr _ IH]; intros table; simpl;
    [reflexivity |].
  unfold readableEntry in Hr. simpl in Hr.
  destruct targets as [| | | | [| first more] |]; auto.
  destruct Hr as [target ->]. apply IH.
Qed.

Lemma tryConfigFile_declares (configFile : string)
  (entries : list (string * json)) (base : string) (a : AliasState) :
  Declares env rootDir configFile entries base ->
  tryConfigFile env rootDir configFile a
  = ({| aliasTable := fst (setAliases entries (aliasTable a));
        aliasBase := Some base |}, Break).
Proof.
  intros [content members options He Hr Hp Hc Hpaths Hne Hread Hbase].
  unfold tryConfigFile. rewrite He, Hr, Hp. cbn [negb].
  unfold readConfig. cbn [getProp]. rewrite Hc. cbn [jsonTruthy getProp].
  rewrite Hpaths. cbn [jsonTruthy negb orb objectKeys objectEntries].
  unfold objectKeys, objectEntries. rewrite length_map.
  destruct entries as [| e entries]; [congruence |].
  cbn [length Nat.eqb].
  pose proof (@setAliases_readable _ Hread (aliasTable a)) as Hok.
  unfold declaredBase in Hbase.
  destruct (map_get options "baseUrl") as [b |].
  - destruct b; try discriminate. cbn [jsonTruthy].
    destruct (truthy s); injection Hbase as <-;
      destruct (setAliases (e :: entries) (aliasTable a)) as [table threw];
      simpl in Hok; subst threw; reflexivity.
  - injection Hbase as <-.
    destruct (setAliases (e :: entries) (aliasTable a)) as [table threw];
      simpl in Hok; subst threw; reflexivity.
Qed.

Lemma scanConfigFiles_skipped (configFiles rest : list string)
  (a : AliasState) :
  Forall (Skipped env rootDir) configFiles ->
  scanConfigFiles env rootDir (configFiles ++ rest)%list a
  = scanConfigFiles env rootDir rest a.
Proof.
  induction 1 as [| f fs Hf _ IH]; simpl; [reflexivity |].
  now rewrite (@tryConfigFile_skipped f a Hf).
Qed.
End LoaderFacts.

Lemma loadPathAliases_loaded (env : Host) (st : Strategy) :
  pathAliases st <> None -> loadPathAliases env st = st.
Proof.
  unfold loadPathAliases. destruct (pathAliases st); congruence.
Qed.

Lemma loadPathAliases_fresh (env : Host) (st : Strategy) (rootDir : string) :
  pathAliases st = None ->
  workspaceRoot env = Some rootDir ->
  truthy rootDir = true ->
  pathAliases (loadPathAliases env st)
    = Some (aliasTable
              (scanConfigFiles env rootDir (aliasConfigFiles env)
                 {| aliasTable := []; aliasBase := baseUrl st |}))
  /\ baseUrl (loadPathAliases env st)
     = aliasBase
         (scanConfigFiles env rootDir (aliasConfigFiles env)
            {| aliasTable := []; aliasBase := baseUrl st |}).
Proof.
  intros Hf Hr Ht. unfold loadPathAliases. rewrite Hf, Hr, Ht. auto.
Qed.

Section AliasesKept.
Variable env : Host.

Lemma resolveImportPath_aliases (st : Strategy) (fromFile importPath : string) :
  pathAliases st <> None ->
  pathAliases (fst (resolveImportPath env st fromFile importPath))
  = pathAliases st.
Proof.
  intros Hl. unfold resolveImportPath.
  destruct (startsWith importPath "." || startsWith importPath "/");
    [reflexivity |].
  rewrite (@loadPathAliases_loaded env st Hl).
  destruct (pathAliases st) eqn:E;
    [destruct (baseUrl st) as [base |]; [destruct (truthy base) |] |];
    simpl; congruence.
Qed.

Lemma resolveMatches_aliases (filePath : string) (matches : list string) :
  forall (st : Strategy) (imports : list string),
    pathAliases st <> None ->
    pathAliases (fst (resolveMatches env st filePath matches imports))
    = pathAliases st.
Proof.
  induction matches as [| m rest IH]; intros st imports Hl; simpl;
    [reflexivity |].
  pose proof (@resolveImportPath_aliases st filePath m Hl) as Hk.
  destruct (resolveImportPath env st filePath m) as [st' r]. simpl in Hk.
  assert (Hl' : pathAliases st' <> None) by congruence.
  destruct r as [r |]; [destruct (truthy r) |]; rewrite IH; auto.
Qed.

Lemma extractImports_aliases (st : Strategy) (filePath : string) :
  pathAliases st <> None ->
  pathAliases (fst (extractImports env st filePath)) = pathAliases st.
Proof.
  intros Hl. unfold extractImports.
  destruct (map_get (importCache st) filePath); [reflexivity |].
  destruct (match openDocumentText env filePath with
            | Some t => Some t
            | None => readFileSync env filePath
            end) as [text |]; [| reflexivity].
  destruct (truthy text); [| reflexivity]. simpl.
  pose proof (@resolveMatches_aliases filePath (scanImports env text) st [] Hl)
    as Hk.
  destruct (resolveMatches env st filePath (scanImports env text) [])
    as [st' imports]. exact Hk.
Qed.

Lemma buildLoop_aliases (tabs : list Tab) :
  forall st : Strategy,
    pathAliases st <> None ->
    pathAliases (buildLoop env st tabs) = pathAliases st.
Proof.
  induction tabs as [| tab rest IH]; intros st Hl; simpl; [reflexivity |].
  destruct (getTabPath tab) as [filePath |]; [| auto].
  destruct (truthy filePath); [| auto].
  pose proof (@extractImports_aliases st filePath Hl) as Hk.
  destruct (extractImports env st filePath) as [st' imports]. simpl in Hk.
  rewrite IH; simpl; congruence.
Qed.
End AliasesKept.

Lemma aliases_kept (st st' : Strategy) :
  ReachedWithoutClearing st st' ->
  pathAliases st <> None ->
  pathAliases st' = pathAliases st.
Proof.
  intros Hr Hl.
  induction Hr as [| env st' q Hr IH | env fuel st' st'' tabs sorted Hr IH Hs].
  - reflexivity.
  - rewrite extractImports_aliases; congruence.
  - apply sort_state in Hs. subst st''. unfold buildImportGraph.
    rewrite buildLoop_aliases; simpl; congruence.
Qed.

(** The scan stops at the first candidate that declares a non-empty
    [paths] object, also when none of its entries gives an alias:
    [tsconfig.json] declares an alias with an empty target list, the loader
    stops there, and [jsconfig.json] is not read. *)
Example scan_stops_on_paths_without_targets :
  let env := Fixture.host Fixture.emptyTargetsWorld in
  let fresh := {| aliasTable := []; aliasBase := None |} in
  aliasConfigFiles env = ["tsconfig.json"; "jsconfig.json"]
  /\ tryConfigFile env "/proj" "tsconfig.json" fresh
     = ({| aliasTable := []; aliasBase := Some "/proj" |}, Break)
  /\ pathAliases (loadPathAliases env newStrategy) = Some [].
Proof. repeat split; reflexivity. Qed.



(** The alias fixture of the specification: with the table [@ -> src] and
    the base directory [/proj], the reference [@/components/Button] is
    probed at [/proj/src/components/Button]. *)
Example alias_reference_is_rewritten :
  let env := Fixture.host
               {| Fixture.files := [("/proj/src/components/Button.tsx", "export {}")];
                  Fixture.directories := ["/proj"];
                  Fixture.root := Some "/proj";
                  Fixture.configFiles := [];
                  Fixture.documents := [];
                  Fixture.captures := [];
                  Fixture.collation := Fixture.codePointCompare |} in
  resolveAlias env "/proj" "@/components/Button" [("@", "src")]
  = Some "/proj/src/components/Button.tsx".
Proof. reflexivity. Qed.

(** C7: the code breaks the claim by a slip.  [tsconfig.json] declares a
    non-empty [paths] object - the first candidate with a non-empty alias
    map, where the scan is to stop - but its second entry has a number for
    its first target.  [targets[0].replace] raises a TypeError inside the
    [try] block, after the base directory and the first alias were set and
    before [break] is reached; the [catch], written for parse errors,
    swallows it.  So the candidate is not passed over without effect, and
    the scan does not stop at it either: it goes on to [jsconfig.json], and
    the table ends with aliases of both files. *)
Theorem non_string_target_does_not_stop_the_scan :
  let env := Fixture.host Fixture.numericTargetWorld in
  let fresh := {| aliasTable := []; aliasBase := None |} in
  aliasConfigFiles env = ["tsconfig.json"; "jsconfig.json"]
  /\ (exists content,
        readFileSync env (path_join env "/proj" "tsconfig.json") = Some content
        /\ JSON_parse env (stripComments env content)
           = Some (JObj [("compilerOptions",
                          JObj [("paths",
                                 JObj [("@a/*", JArr [JStr "x/*"]);
                                       ("@b/*", JArr [JNum 42])])])]))
  /\ setAliases [("@a/*", JArr [JStr "x/*"]); ("@b/*", JArr [JNum 42])] []
     = ([("@a", "x")], true)
  /\ tryConfigFile env "/proj" "tsconfig.json" fresh
     = ({| aliasTable := [("@a", "x")]; aliasBase := Some "/proj" |}, Continue)
  /\ tryConfigFile env "/proj" "jsconfig.json"
       {| aliasTable := [("@a", "x")]; aliasBase := Some "/proj" |}
     = ({| aliasTable := [("@a", "x"); ("@c", "y")];
           aliasBase := Some "/proj" |}, Break)
  /\ pathAliases (loadPathAliases env newStrategy)
     = Some [("@a", "x"); ("@c", "y")]
  /\ baseUrl (loadPathAliases env newStrategy) = Some "/proj".
Proof.
  intros env fresh.
  split; [reflexivity |].
  split; [eexists; split; reflexivity |].
  repeat split; reflexivity.
Qed.

(** * Further properties *)

(** ** Depths along the matched edges *)

Section InnerLoopFacts.
Variable d : nat.

Lemma visitTargets_depths_other (l : list string) (p : string) :
  forall t : Traversal,
    ~ In p l ->
    map_get (depths (visitTargets l d t)) p = map_get (depths t) p.
Proof.
  induction l as [| p0 l IH]; intros t Hp; cbn [visitTargets]; [reflexivity |].
  rewrite IH by (intros H; apply Hp; now right).
  cbn [depths]. apply map_get_set_other. intros ->. apply Hp. now left.
Qed.

Lemma visitTargets_depths_target (l : list string) (p : string) :
  forall t : Traversal,
    In p l ->
    exists k,
      map_get (depths (visitTargets l d t)) p = Some k
      /\ d + 1 <= k
      /\ (k = d + 1 \/ map_get (depths t) p = Some k)
      /\ forall e, map_get (depths t) p = Some e -> e <= k.
Proof.
  induction l as [| p0 l IH]; intros t Hp; [destruct Hp |].
  cbn [visitTargets].
  set (e0 := numOr (map_get (depths t) p0) 0).
  set (t1 := {| queue := _; depths := _; remaining := _ |}).
  assert (H1 : map_get (depths t1) p0 = Some (Nat.max e0 (d + 1))).
  { cbn [t1 depths]. apply map_get_set_same. }
  assert (Hold : forall q, q <> p0 ->
             map_get (depths t1) q = map_get (depths t) q).
  { intros q Hq. cbn [t1 depths]. now apply map_get_set_other. }
  assert (He0 : forall e, map_get (depths t) p0 = Some e -> e0 = e).
  { intros e He. unfold e0. rewrite He. apply numOr_zero. }
  assert (Hn0 : map_get (depths t) p0 = None -> e0 = 0).
  { intros He. unfold e0. now rewrite He. }
  assert (Hcase : Nat.max e0 (d + 1) = d + 1
                  \/ map_get (depths t) p0 = Some (Nat.max e0 (d + 1))).
  { destruct (Nat.max_spec e0 (d + 1)) as [[_ ->] | [Hle ->]]; [now left |].
    destruct (map_get (depths t) p0) as [e |] eqn:Ee.
    - right. f_equal. symmetry. now apply He0.
    - rewrite (Hn0 eq_refl) in Hle. lia. }
  destruct (in_dec string_dec p l) as [Hin | Hnin].
  - destruct (IH t1 Hin) as (k & Ek & Hk & Hor & Hmono).
    exists k. split; [exact Ek | split; [exact Hk | split]].
    + destruct Hor as [-> | Hor]; [now left |].
      destruct (string_dec p p0) as [-> | Hne].
      * rewrite H1 in Hor. injection Hor as <-. exact Hcase.
      * right. now rewrite <- Hold.
    + intros e Ee. destruct (string_dec p p0) as [-> | Hne].
      * pose proof (Hmono _ H1) as Hm. rewrite (He0 _ Ee) in Hm. lia.
      * apply Hmono. now rewrite Hold.
  - destruct Hp as [<- | Hp]; [| contradiction].
    rewrite visitTargets_depths_other by assumption.
    exists (Nat.max e0 (d + 1)).
    split; [exact H1 | split; [lia | split; [exact Hcase |]]].
    intros e Ee. rewrite (He0 _ Ee). lia.
Qed.

Lemma visitTargets_queue (l : list string) (q : string) :
  forall t : Traversal,
    (In q (queue t) -> In q (queue (visitTargets l d t)))
    /\ (In q (queue (visitTargets l d t)) -> In q (queue t) \/ In q l).
Proof.
  induction l as [| p0 l IH]; intros t; cbn [visitTargets]; [tauto |].
  set (t1 := {| queue := _; depths := _; remaining := _ |}).
  destruct (IH t1) as [H1 H2].
  assert (Hq : (In q (queue t) -> In q (queue t1))
               /\ (In q (queue t1) -> In q (queue t) \/ q = p0)).
  { cbn [t1 queue].
    destruct (numOr (map_get (remaining t) p0) 1 - 1 =? 0)%nat.
    - rewrite in_app_iff. simpl. intuition.
    - tauto. }
  split.
  - intros H. apply H1. now apply Hq.
  - intros H. destruct (H2 H) as [H3 | H3].
    + destruct (proj2 Hq H3) as [H4 | ->]; [now left | right; now left].
    + right. now right.
Qed.

Lemma visitTargets_keys_nodup (l : list string) :
  forall t : Traversal,
    NoDup (map_keys (depths t)) ->
    NoDup (map_keys (depths (visitTargets l d t))).
Proof.
  induction l as [| p0 l IH]; intros t Hnd; cbn [visitTargets]; [exact Hnd |].
  apply IH. cbn [depths]. now apply map_set_NoDup.
Qed.

Lemma visitTargets_complete (P : string -> Prop) (W l : list string) :
  forall t : Traversal,
    (forall p, P p -> map_get (remaining t) p = Some 0 ->
               In p (W ++ queue t)%list) ->
    forall p, P p -> map_get (remaining (visitTargets l d t)) p = Some 0 ->
              In p (W ++ queue (visitTargets l d t))%list.
Proof.
  induction l as [| p0 l IH]; intros t H; cbn [visitTargets]; [exact H |].
  apply IH. intros p HP. cbn [remaining queue].
  destruct (string_dec p p0) as [-> | Hne].
  - rewrite map_get_set_same. intros [= ->]. simpl.
    apply in_or_app. right. apply in_or_app. right. now left.
  - rewrite map_get_set_other by assumption. intros Hp.
    apply (H p HP) in Hp. apply in_app_or in Hp. apply in_or_app.
    destruct Hp as [Hp | Hp]; [now left | right].
    destruct (numOr (map_get (remaining t) p0) 1 - 1 =? 0)%nat;
      [apply in_or_app; now left | assumption].
Qed.
End InnerLoopFacts.

Section DepthOrderFacts.
Variable sep : ascii.
Variable graph : ImportGraph.
Variable tabPaths : list string.
Variable table : list (string * string).
Hypothesis table_sound : tableSound sep tabPaths table.
Hypothesis table_covers :
  forall f imports i, In (f, imports) graph -> In i imports ->
                      tableCovers sep tabPaths table i.

(** A file that has been dequeued or is on the queue is not the target of
    an edge that is still to be read. *)
Lemma visited_not_targeted (visited : list string) (current : string)
  (rest : list string) (d r : list (string * nat)) (v : string) :
  TraversalInv sep graph tabPaths visited
    {| queue := current :: rest; depths := d; remaining := r |} ->
  In v (visited ++ current :: rest)%list ->
  ~ In v (edgesFrom sep graph tabPaths current).
Proof.
  intros [Hnd Hopen Hcnt Hzero _ _] Hv. cbn [queue remaining] in *.
  destruct (Hcnt v (Hopen v Hv)) as (n & Hn & Hs).
  rewrite (Hzero v Hv) in Hn. injection Hn as <-.
  assert (HW : NoDup (visited ++ [current])%list).
  { apply NoDup_app_remove_r with (l' := rest).
    now rewrite <- app_assoc. }
  pose proof (@edgesInto_bound sep graph tabPaths _ v HW) as Hb.
  rewrite edgesInto_app in Hb. simpl in Hb.
  apply (count_occ_not_In string_dec). lia.
Qed.

Lemma visit_depth_inv (visited : list string) (current : string)
  (rest : list string) (d r : list (string * nat)) :
  TraversalInv sep graph tabPaths visited
    {| queue := current :: rest; depths := d; remaining := r |} ->
  DepthInv sep graph tabPaths visited
    {| queue := current :: rest; depths := d; remaining := r |} ->
  DepthInv sep graph tabPaths (visited ++ [current])%list
    (visit graph table current
       {| queue := rest; depths := d; remaining := r |}).
Proof.
  intros Hinv [Dnd Dknown Dedges Datt Dcomp].
  cbn [queue depths remaining] in *.
  rewrite (@visit_edges sep graph tabPaths table table_sound table_covers).
  cbn [depths].
  assert (Hcur : In current (visited ++ current :: rest)%list)
    by (apply in_or_app; right; now left).
  destruct (map_get d current) as [dc |] eqn:Edc;
    [| exfalso; now apply (Dknown current Hcur)].
  rewrite numOr_zero.
  set (l := edgesFrom sep graph tabPaths current).
  set (t0 := {| queue := rest; depths := d; remaining := r |}).
  assert (Hfresh : forall v, In v (visited ++ current :: rest)%list -> ~ In v l)
    by (intros v Hv; eapply visited_not_targeted; eauto).
  assert (Hsame : forall v, In v (visited ++ current :: rest)%list ->
             map_get (depths (visitTargets l dc t0)) v = map_get d v).
  { intros v Hv. now rewrite visitTargets_depths_other by auto. }
  assert (Hsplit : forall v, In v (visited ++ [current])%list ->
             In v (visited ++ current :: rest)%list).
  { intros v Hv. apply in_app_or in Hv. apply in_or_app.
    destruct Hv as [Hv | [<- | []]]; [now left | right; now left]. }
  constructor.
  - now apply visitTargets_keys_nodup.
  - intros v Hv. apply in_app_or in Hv. destruct Hv as [Hv | Hv].
    + rewrite Hsame by auto. apply Dknown. auto.
    + apply (@visitTargets_queue dc l v t0) in Hv. cbn [t0 queue] in Hv.
      destruct Hv as [Hv | Hv].
      * assert (Hin : In v (visited ++ current :: rest)%list)
          by (apply in_or_app; right; now right).
        rewrite Hsame by assumption. now apply Dknown.
      * destruct (@visitTargets_depths_target dc l v t0 Hv) as (k & Ek & _).
        congruence.
  - intros v p Hv Hp. apply in_app_or in Hv. destruct Hv as [Hv | [<- | []]].
    + destruct (Dedges v p Hv Hp) as (dv & dp & Ev & Ep & Hle).
      exists dv. rewrite Hsame by (apply in_or_app; now left).
      destruct (in_dec string_dec p l) as [Hin | Hnin].
      * destruct (@visitTargets_depths_target dc l p t0 Hin)
          as (k & Ek & _ & _ & Hmono).
        exists k. split; [exact Ev | split; [exact Ek |]].
        pose proof (Hmono dp Ep). lia.
      * exists dp. rewrite visitTargets_depths_other by assumption.
        auto.
    + destruct (@visitTargets_depths_target dc l p t0 Hp) as (k & Ek & Hk & _).
      exists dc, k. rewrite Hsame by assumption. auto.
  - intros p dp Ep Hpos.
    assert (Hold : map_get d p = Some dp ->
              exists v dv,
                In v (visited ++ [current])%list
                /\ In p (edgesFrom sep graph tabPaths v)
                /\ map_get (depths (visitTargets l dc t0)) v = Some dv
                /\ dp = dv + 1).
    { intros Eold. destruct (Datt p dp Eold Hpos) as (v & dv & Hv & Hpv & Ev & ->).
      exists v, dv. split; [apply in_or_app; now left |].
      split; [exact Hpv |]. split; [| reflexivity].
      rewrite Hsame by (apply in_or_app; now left). exact Ev. }
    destruct (in_dec string_dec p l) as [Hin | Hnin].
    + destruct (@visitTargets_depths_target dc l p t0 Hin)
        as (k & Ek & _ & Hor & _).
      rewrite Ek in Ep. injection Ep as ->.
      destruct Hor as [-> | Hor]; [| now apply Hold].
      exists current, dc. split; [apply in_or_app; right; now left |].
      split; [exact Hin |]. split; [| reflexivity].
      rewrite Hsame by assumption. exact Edc.
    + rewrite visitTargets_depths_other in Ep by assumption. now apply Hold.
  - intros p Hp H0.
    apply (@visitTargets_complete dc (fun q => In q tabPaths)
             (visited ++ [current])%list l t0); [| exact Hp | exact H0].
    intros q Hq Hz. cbn [t0 queue remaining] in *.
    rewrite <- app_assoc. simpl. now apply Dcomp.
Qed.
End DepthOrderFacts.

Lemma seedDepths_nodup (l : list string) :
  forall d : list (string * nat),
    NoDup (map_keys d) ->
    NoDup (map_keys (fold_left (fun d p => map_set d p 0) l d)).
Proof.
  induction l as [| x l IH]; intros d Hnd; simpl; [exact Hnd |].
  apply IH. now apply map_set_NoDup.
Qed.

Lemma start_depth_inv (sep : ascii) (graph : ImportGraph)
  (tabPaths : list string) :
  NoDup (map_keys graph) ->
  DepthInv sep graph tabPaths [] (snd (startTraversal sep graph tabPaths)).
Proof.
  intros Hnd.
  destruct (@counting_spec sep graph tabPaths Hnd) as (K1 & K2 & K3 & _ & _).
  unfold startTraversal. rewrite seedQueue_spec. cbn [snd app].
  set (c := countGraph sep tabPaths graph _) in *.
  constructor; cbn [queue depths remaining app].
  - apply seedDepths_nodup. constructor.
  - intros v Hv. rewrite seedDepths_get.
    destruct (in_dec string_dec v (zeroKeys (incomingCount c)));
      [discriminate | contradiction].
  - intros v p [].
  - intros p dp. rewrite seedDepths_get.
    destruct (in_dec string_dec p (zeroKeys (incomingCount c)));
      [intros [= <-]; lia | discriminate].
  - intros p Hp Hz. apply zeroKeys_In. now apply map_get_In_entry.
Qed.

Lemma drain_depth_inv (sep : ascii) (graph : ImportGraph)
  (tabPaths : list string) (table : list (string * string)) :
  tableSound sep tabPaths table ->
  (forall f imports i, In (f, imports) graph -> In i imports ->
                       tableCovers sep tabPaths table i) ->
  forall (fuel : nat) (visited : list string) (t t' : Traversal),
    TraversalInv sep graph tabPaths visited t ->
    DepthInv sep graph tabPaths visited t ->
    drain fuel graph table t = Some t' ->
    DepthInv sep graph tabPaths
      (visited ++ visitOrder fuel graph table t)%list t'.
Proof.
  intros Hs Hc.
  induction fuel as [| fuel IH]; intros visited [q d r] t' Hinv Hd E;
    destruct q as [| current rest]; cbn [drain visitOrder queue] in *.
  - injection E as <-. now rewrite app_nil_r.
  - discriminate.
  - injection E as <-. now rewrite app_nil_r.
  - cbn [depths remaining] in *.
    pose proof (@visit_inv sep graph tabPaths table Hs Hc _ _ _ _ _ Hinv)
      as Hinv'.
    pose proof (@visit_depth_inv sep graph tabPaths table Hs Hc _ _ _ _ _
                  Hinv Hd) as Hd'.
    pose proof (IH _ _ _ Hinv' Hd' E) as H.
    now rewrite <- app_assoc in H.
Qed.

(** The traversal ends, with both invariants. *)
Lemma drained_depth_spec (sep : ascii) (fuel : nat) (graph : ImportGraph)
  (tabs : list Tab) :
  NoDup (map_keys graph) ->
  length tabs < fuel ->
  exists t,
    drained sep fuel graph tabs = Some t
    /\ queue t = []
    /\ TraversalInv sep graph (tabPathsOf tabs) (dequeued sep fuel graph tabs) t
    /\ DepthInv sep graph (tabPathsOf tabs) (dequeued sep fuel graph tabs) t.
Proof.
  intros Hnd Hfuel.
  destruct (@drained_spec sep fuel graph tabs Hnd Hfuel) as (t & E & Hq & Hinv).
  exists t. split; [exact E | split; [exact Hq | split; [exact Hinv |]]].
  unfold drained, dequeued in *.
  pose proof (@start_inv sep graph (tabPathsOf tabs) Hnd) as Hstart.
  pose proof (@start_depth_inv sep graph (tabPathsOf tabs) Hnd) as Hdstart.
  destruct (@start_table sep graph (tabPathsOf tabs) Hnd) as [Hs Hc].
  destruct (startTraversal sep graph (tabPathsOf tabs)) as [c t0].
  cbn [fst snd] in *.
  exact (@drain_depth_inv sep graph (tabPathsOf tabs) (resolvedToTabPath c)
           Hs Hc fuel [] t0 t Hstart Hdstart E).
Qed.

Lemma assignRemaining_keys (l : list string) (M : nat) :
  forall d : list (string * nat),
    NoDup (map_keys d) ->
    NoDup (map_keys (assignRemaining l M d))
    /\ forall p, In p (map_keys (assignRemaining l M d))
                 <-> In p (map_keys d) \/ In p l.
Proof.
  induction l as [| x l IH]; intros d Hnd; simpl.
  - split; [exact Hnd | tauto].
  - destruct (map_has d x) eqn:Hx.
    + destruct (IH d Hnd) as [H1 H2]. split; [exact H1 |].
      intros p. rewrite H2. apply map_has_true in Hx.
      intuition congruence.
    + destruct (IH (map_set d x (M + 1)) (@map_set_NoDup _ d x (M + 1) Hnd))
        as [H1 H2].
      split; [exact H1 |]. intros p. rewrite H2, map_keys_set_incl.
      intuition congruence.
Qed.

Lemma maxDepthOf_ge (d : list (string * nat)) (p : string) (k : nat) :
  map_get d p = Some k -> k <= maxDepthOf d.
Proof.
  unfold maxDepthOf, map_values.
  induction d as [| [q v] d IH]; simpl; [discriminate |].
  destruct (String.eqb q p).
  - intros [= ->]. lia.
  - intros H. apply IH in H. lia.
Qed.

(** Every matched edge into a dequeued or enqueued file leaves a dequeued
    file. *)
Lemma importers_of_dequeued (sep : ascii) (graph : ImportGraph)
  (tabPaths visited : list string) (t : Traversal) (f p : string) :
  TraversalInv sep graph tabPaths visited t ->
  In p (visited ++ queue t)%list ->
  In p (edgesFrom sep graph tabPaths f) ->
  In f visited.
Proof.
  intros [Hnd Hopen Hcnt Hzero _ _] Hp Hedge.
  destruct (in_dec string_dec f visited) as [Hin | Hnin]; [exact Hin |].
  exfalso.
  destruct (Hcnt p (Hopen p Hp)) as (n & Hn & Hs).
  rewrite (Hzero p Hp) in Hn. injection Hn as <-.
  assert (HW : NoDup (f :: visited)).
  { constructor; [exact Hnin |]. eapply NoDup_app_remove_r; eauto. }
  pose proof (@edgesInto_bound sep graph tabPaths _ p HW) as Hb.
  simpl in Hb, Hs.
  apply (count_occ_In string_dec) in Hedge. lia.
Qed.

(** ** What the scores say about the edges *)

(** X1: every matched edge that leaves a dequeued file goes to a file with
    a strictly larger score, so the importer sorts before the imported
    file. *)
Theorem importer_is_scored_below_imported
  (sep : ascii) (fuel : nat) (graph : ImportGraph) (tabs : list Tab)
  (Hgraph : NoDup (map_keys graph))
  (Hfuel : length tabs < fuel) :
  exists scores,
    calculateImportScores sep fuel graph tabs = Some scores
    /\ forall v p,
         In v (dequeued sep fuel graph tabs) ->
         In p (edgesFrom sep graph (tabPathsOf tabs) v) ->
         exists dv dp,
           map_get scores v = Some dv
           /\ map_get scores p = Some dp
           /\ dv + 1 <= dp.
Proof.
  destruct (@drained_depth_spec sep fuel graph tabs Hgraph Hfuel)
    as (t & E & Hq & Hinv & Hd).
  unfold calculateImportScores. rewrite E. eexists. split; [reflexivity |].
  intros v p Hv Hp.
  destruct (dinv_edges Hd v p Hv Hp) as (dv & dp & Ev & Ep & Hle).
  exists dv, dp. rewrite !assignRemaining_get, Ev, Ep. auto.
Qed.

Lemma importer_is_scored_below_imported_witness :
  let g := importGraph (buildImportGraph (Fixture.host Fixture.chainIntoCycleWorld)
                          newStrategy Fixture.chainIntoCycleTabs) in
  NoDup (map_keys g)
  /\ length Fixture.chainIntoCycleTabs < 4
  /\ exists scores,
       calculateImportScores "/" 4 g Fixture.chainIntoCycleTabs = Some scores
       /\ exists dv dp,
            map_get scores "/p/a.ts" = Some dv
            /\ map_get scores "/p/b.ts" = Some dp
            /\ dv + 1 <= dp.
Proof.
  intros g.
  assert (H1 : NoDup (map_keys g)) by (cbv; distinct_strings).
  assert (H2 : length Fixture.chainIntoCycleTabs < 4) by (simpl; lia).
  split; [exact H1 | split; [exact H2 |]].
  destruct (@importer_is_scored_below_imported "/" 4 g
              Fixture.chainIntoCycleTabs H1 H2) as (scores & E & Hall).
  exists scores. split; [exact E |].
  apply (Hall "/p/a.ts" "/p/b.ts"); cbv; tauto.
Defined.

(** X2: the score of a dequeued file is a longest-path depth: every file
    with a matched edge into it has been dequeued and has a strictly
    smaller score, and the score is either 0 or exactly one more than the
    score of one of those files. *)
Theorem dequeued_score_is_longest_path
  (sep : ascii) (fuel : nat) (graph : ImportGraph) (tabs : list Tab)
  (Hgraph : NoDup (map_keys graph))
  (Hfuel : length tabs < fuel) :
  exists scores,
    calculateImportScores sep fuel graph tabs = Some scores
    /\ forall p,
         In p (dequeued sep fuel graph tabs) ->
         exists dp,
           map_get scores p = Some dp
           /\ (forall f,
                 In p (edgesFrom sep graph (tabPathsOf tabs) f) ->
                 In f (dequeued sep fuel graph tabs)
                 /\ exists df, map_get scores f = Some df /\ df + 1 <= dp)
           /\ (dp = 0
               \/ exists f df,
                    In p (edgesFrom sep graph (tabPathsOf tabs) f)
                    /\ map_get scores f = Some df
                    /\ dp = df + 1).
Proof.
  destruct (@drained_depth_spec sep fuel graph tabs Hgraph Hfuel)
    as (t & E & Hq & Hinv & Hd).
  unfold calculateImportScores. rewrite E. eexists. split; [reflexivity |].
  intros p Hp.
  assert (Hpq : In p (dequeued sep fuel graph tabs ++ queue t)%list)
    by (apply in_or_app; now left).
  destruct (map_get (depths t) p) as [dp |] eqn:Ep;
    [| exfalso; now apply (dinv_known Hd p Hpq)].
  exists dp. rewrite assignRemaining_get, Ep. split; [reflexivity | split].
  - intros f Hf.
    pose proof (@importers_of_dequeued _ _ _ _ _ f p Hinv Hpq Hf) as Hfv.
    split; [exact Hfv |].
    destruct (dinv_edges Hd f p Hfv Hf) as (df & dp' & Ef & Ep' & Hle).
    exists df. rewrite assignRemaining_get, Ef.
    split; [reflexivity |]. rewrite Ep in Ep'. injection Ep' as <-. lia.
  - destruct dp as [| dp]; [now left |]. right.
    destruct (dinv_attained Hd p Ep) as (v & dv & Hv & Hpv & Ev & Heq); [lia |].
    exists v, dv. rewrite assignRemaining_get, Ev. auto.
Qed.

Lemma dequeued_score_is_longest_path_witness :
  let g := MoreFixtures.chainGraph in
  NoDup (map_keys g)
  /\ length MoreFixtures.chainTabs < 4
  /\ In "/p/c.ts" (dequeued "/" 4 g MoreFixtures.chainTabs)
  /\ exists scores,
       calculateImportScores "/" 4 g MoreFixtures.chainTabs = Some scores
       /\ exists dp,
            map_get scores "/p/c.ts" = Some dp
            /\ (dp = 0
                \/ exists f df,
                     In "/p/c.ts"
                        (edgesFrom "/" g (tabPathsOf MoreFixtures.chainTabs) f)
                     /\ map_get scores f = Some df
                     /\ dp = df + 1).
Proof.
  intros g.
  assert (H1 : NoDup (map_keys g)) by (cbv; distinct_strings).
  assert (H2 : length MoreFixtures.chainTabs < 4) by (simpl; lia).
  assert (H3 : In "/p/c.ts" (dequeued "/" 4 g MoreFixtures.chainTabs))
    by (vm_compute; tauto).
  split; [exact H1 | split; [exact H2 | split; [exact H3 |]]].
  destruct (@dequeued_score_is_longest_path "/" 4 g MoreFixtures.chainTabs
              H1 H2) as (scores & E & Hall).
  exists scores. split; [exact E |].
  destruct (Hall "/p/c.ts" H3) as (dp & Ep & _ & Hor).
  exists dp. auto.
Defined.

Example chain_scores :
  importGraph (buildImportGraph (Fixture.host MoreFixtures.chainWorld)
                 newStrategy MoreFixtures.chainTabs) = MoreFixtures.chainGraph
  /\ calculateImportScores "/" 4 MoreFixtures.chainGraph MoreFixtures.chainTabs
     = Some [("/p/a.ts", 0); ("/p/b.ts", 1); ("/p/c.ts", 2)].
Proof. split; reflexivity. Qed.

(** X3: the scores have exactly one entry for each open path and none for
    any other path. *)
Theorem scores_cover_exactly_the_open_paths
  (sep : ascii) (fuel : nat) (graph : ImportGraph) (tabs : list Tab)
  (Hgraph : NoDup (map_keys graph))
  (Hfuel : length tabs < fuel) :
  exists scores,
    calculateImportScores sep fuel graph tabs = Some scores
    /\ NoDup (map_keys scores)
    /\ forall p, In p (map_keys scores) <-> In p (tabPathsOf tabs).
Proof.
  destruct (@drained_depth_spec sep fuel graph tabs Hgraph Hfuel)
    as (t & E & Hq & Hinv & Hd).
  unfold calculateImportScores. rewrite E. eexists. split; [reflexivity |].
  destruct (@assignRemaining_keys (tabPathsOf tabs) (maxDepthOf (depths t))
              (depths t) (dinv_nodup Hd)) as [H1 H2].
  split; [exact H1 |]. intros p. rewrite H2. split; [| tauto].
  intros [Hk | Hp]; [| exact Hp].
  assert (Hne : map_get (depths t) p <> None).
  { intros Hn. apply map_get_None in Hn. contradiction. }
  apply (inv_depth_keys Hinv) in Hne.
  destruct Hne as [[Hp _] | (v & _ & Hv)]; [exact Hp |].
  eapply edgesFrom_In_tabs; eauto.
Qed.

Lemma scores_cover_exactly_the_open_paths_witness :
  exists scores,
    calculateImportScores "/" 4 MoreFixtures.chainGraph MoreFixtures.chainTabs
      = Some scores
    /\ NoDup (map_keys scores)
    /\ forall p, In p (map_keys scores)
                 <-> In p (tabPathsOf MoreFixtures.chainTabs).
Proof.
  apply (@scores_cover_exactly_the_open_paths "/" 4 MoreFixtures.chainGraph
           MoreFixtures.chainTabs).
  - cbv. distinct_strings.
  - simpl. lia.
Defined.

(** X4: a file that gets the sentinel depth has a score strictly larger
    than that of every file the traversal gave a depth to. *)
Theorem sentinel_exceeds_every_traversal_depth
  (sep : ascii) (fuel : nat) (graph : ImportGraph) (tabs : list Tab)
  (Hgraph : NoDup (map_keys graph))
  (Hfuel : length tabs < fuel) :
  exists t scores,
    drained sep fuel graph tabs = Some t
    /\ calculateImportScores sep fuel graph tabs = Some scores
    /\ forall p q k,
         In p (tabPathsOf tabs) ->
         map_get (depths t) p = None ->
         map_get (depths t) q = Some k ->
         exists sp,
           map_get scores p = Some sp
           /\ map_get scores q = Some k
           /\ k < sp.
Proof.
  destruct (@drained_spec sep fuel graph tabs Hgraph Hfuel)
    as (t & E & Hq & Hinv).
  exists t. unfold calculateImportScores. rewrite E. eexists.
  split; [reflexivity | split; [reflexivity |]].
  intros p q k Hp Hn Hk. exists (maxDepthOf (depths t) + 1).
  rewrite !assignRemaining_get, Hn, Hk.
  destruct (in_dec string_dec p (tabPathsOf tabs)); [| contradiction].
  split; [reflexivity | split; [reflexivity |]].
  pose proof (@maxDepthOf_ge _ _ _ Hk). lia.
Qed.

Lemma sentinel_exceeds_every_traversal_depth_witness :
  let g := importGraph (buildImportGraph (Fixture.host Fixture.chainIntoCycleWorld)
                          newStrategy Fixture.chainIntoCycleTabs) in
  exists t scores,
    drained "/" 4 g Fixture.chainIntoCycleTabs = Some t
    /\ calculateImportScores "/" 4 g Fixture.chainIntoCycleTabs = Some scores
    /\ (map_get (depths t) "/p/c.ts" = None ->
        map_get (depths t) "/p/b.ts" = Some 1 ->
        exists sp, map_get scores "/p/c.ts" = Some sp
                   /\ map_get scores "/p/b.ts" = Some 1 /\ 1 < sp).
Proof.
  intros g.
  assert (H1 : NoDup (map_keys g)) by (cbv; distinct_strings).
  assert (H2 : length Fixture.chainIntoCycleTabs < 4) by (simpl; lia).
  destruct (@sentinel_exceeds_every_traversal_depth "/" 4 g
              Fixture.chainIntoCycleTabs H1 H2) as (t & scores & E & Es & Hall).
  exists t, scores. split; [exact E | split; [exact Es |]].
  intros Hn Hk. apply (Hall "/p/c.ts" "/p/b.ts" 1); [cbv; tauto | exact Hn | exact Hk].
Defined.

(** ** Acyclic graphs *)

Section AcyclicFacts.
Variable sep : ascii.
Variable graph : ImportGraph.
Variable tabPaths : list string.

Lemma edgesInto_le_count (p : string) (W : list string) :
  forall K : list string,
    NoDup W ->
    (forall f, In f W -> ~ In f K ->
               ~ In p (edgesFrom sep graph tabPaths f)) ->
    edgesInto sep graph tabPaths W p <= edgesInto sep graph tabPaths K p.
Proof.
  induction W as [| f W IH]; intros K Hnd Hout; simpl; [lia |].
  inversion Hnd as [| ? ? Hf HW]; subst.
  destruct (in_dec string_dec f K) as [Hin | Hin].
  - destruct (in_split _ _ Hin) as (K1 & K2 & ->).
    assert (H : edgesInto sep graph tabPaths W p
                <= edgesInto sep graph tabPaths (K1 ++ K2)%list p).
    { apply IH; [assumption |]. intros g Hg Hng. apply Hout; [now right |].
      intros Hin'. apply Hng. apply in_app_or in Hin'. apply in_or_app.
      destruct Hin' as [H1 | [<- | H2]]; [now left | tauto | now right]. }
    rewrite edgesInto_app in *. simpl. lia.
  - pose proof (Hout f (or_introl eq_refl) Hin) as H0.
    apply (count_occ_not_In string_dec) in H0. rewrite H0. simpl.
    apply IH; [assumption |]. intros g Hg. apply Hout. now right.
Qed.

(** A file with an edge that is still to be read has an importer that has
    not been dequeued. *)
Lemma pending_importer (visited : list string) (p : string) :
  NoDup (map_keys graph) ->
  edgesInto sep graph tabPaths visited p < inDegree sep graph tabPaths p ->
  exists f,
    In f (map_keys graph) /\ ~ In f visited
    /\ In p (edgesFrom sep graph tabPaths f).
Proof.
  intros Hnd Hlt.
  destruct (Exists_dec
              (fun f => ~ In f visited
                        /\ In p (edgesFrom sep graph tabPaths f))
              (map_keys graph)) as [Hex | Hall].
  - intros f.
    destruct (in_dec string_dec f visited) as [H1 | H1]; [right; tauto |].
    destruct (in_dec string_dec p (edgesFrom sep graph tabPaths f))
      as [H2 | H2]; [left; tauto | right; tauto].
  - apply Exists_exists in Hex. destruct Hex as (f & Hf & Hv & Hp). eauto.
  - exfalso. unfold inDegree in Hlt.
    assert (Hle : edgesInto sep graph tabPaths (map_keys graph) p
                  <= edgesInto sep graph tabPaths visited p).
    { apply edgesInto_le_count; [exact Hnd |].
      intros f Hf Hv Hp. apply Hall. apply Exists_exists. eauto. }
    lia.
Qed.
End AcyclicFacts.

(** X5: when the matched edges of the graph are acyclic - some rank grows
    along each of them - and every file of the graph is open, every open
    file is dequeued, and every matched edge goes from a file to a file
    with a strictly larger score: the scores are a topological layering. *)
Theorem acyclic_graph_is_topologically_scored
  (sep : ascii) (fuel : nat) (graph : ImportGraph) (tabs : list Tab)
  (rank : string -> nat)
  (Hgraph : NoDup (map_keys graph))
  (Hfuel : length tabs < fuel)
  (Hopen : forall f, In f (map_keys graph) -> In f (tabPathsOf tabs))
  (Hrank : forall f p,
      In p (edgesFrom sep graph (tabPathsOf tabs) f) -> rank f < rank p) :
  exists scores,
    calculateImportScores sep fuel graph tabs = Some scores
    /\ (forall p, In p (tabPathsOf tabs) ->
                  In p (dequeued sep fuel graph tabs))
    /\ forall f p,
         In p (edgesFrom sep graph (tabPathsOf tabs) f) ->
         exists df dp,
           map_get scores f = Some df
           /\ map_get scores p = Some dp
           /\ df + 1 <= dp.
Proof.
  destruct (@drained_depth_spec sep fuel graph tabs Hgraph Hfuel)
    as (t & E & Hq & Hinv & Hd).
  assert (Hall : forall n p, rank p < n -> In p (tabPathsOf tabs) ->
                             In p (dequeued sep fuel graph tabs)).
  { induction n as [| n IH]; intros p Hr Hp; [lia |].
    destruct (in_dec string_dec p (dequeued sep fuel graph tabs))
      as [Hin | Hnin]; [exact Hin |].
    exfalso.
    destruct (inv_counts Hinv p Hp) as (m & Em & Hs).
    destruct m as [| m].
    - pose proof (dinv_complete Hd p Hp Em) as Hc.
      rewrite Hq, app_nil_r in Hc. contradiction.
    - destruct (@pending_importer sep graph (tabPathsOf tabs)
                  (dequeued sep fuel graph tabs) p Hgraph)
        as (f & Hf & Hfv & Hfp); [lia |].
      apply Hfv. apply IH; [| now apply Hopen].
      pose proof (Hrank f p Hfp). lia. }
  unfold calculateImportScores. rewrite E. eexists.
  split; [reflexivity | split].
  - intros p Hp. apply (Hall (S (rank p))); [lia | exact Hp].
  - intros f p Hfp.
    assert (Hf : In f (dequeued sep fuel graph tabs)).
    { apply (Hall (S (rank f))); [lia |]. apply Hopen.
      destruct (in_dec string_dec f (map_keys graph)) as [H | H]; [exact H |].
      rewrite (@edgesFrom_outside sep graph (tabPathsOf tabs) f H) in Hfp.
      destruct Hfp. }
    destruct (dinv_edges Hd f p Hf Hfp) as (df & dp & Ef & Ep & Hle).
    exists df, dp. rewrite !assignRemaining_get, Ef, Ep. auto.
Qed.

Lemma acyclic_graph_is_topologically_scored_witness :
  let g := MoreFixtures.chainGraph in
  let paths := tabPathsOf MoreFixtures.chainTabs in
  NoDup (map_keys g)
  /\ length MoreFixtures.chainTabs < 4
  /\ (forall f, In f (map_keys g) -> In f paths)
  /\ (forall f p, In p (edgesFrom "/" g paths f) ->
                  MoreFixtures.chainRank f < MoreFixtures.chainRank p)
  /\ exists scores,
       calculateImportScores "/" 4 g MoreFixtures.chainTabs = Some scores
       /\ exists df dp,
            map_get scores "/p/b.ts" = Some df
            /\ map_get scores "/p/c.ts" = Some dp
            /\ df + 1 <= dp.
Proof.
  intros g paths.
  assert (H1 : NoDup (map_keys g)) by (cbv; distinct_strings).
  assert (H2 : length MoreFixtures.chainTabs < 4) by (simpl; lia).
  assert (H3 : forall f, In f (map_keys g) -> In f paths).
  { intros f Hf. cbv in Hf |- *. tauto. }
  assert (H4 : forall f p, In p (edgesFrom "/" g paths f) ->
                 MoreFixtures.chainRank f < MoreFixtures.chainRank p).
  { intros f p. unfold edgesFrom, g, MoreFixtures.chainGraph. cbn [map_get].
    destruct (String.eqb_spec "/p/c.ts" f) as [<- | _]; [intros [] |].
    destruct (String.eqb_spec "/p/b.ts" f) as [<- | _].
    - intros Hp. vm_compute in Hp. destruct Hp as [<- | []]. vm_compute. lia.
    - destruct (String.eqb_spec "/p/a.ts" f) as [<- | _]; [| intros []].
      intros Hp. vm_compute in Hp.
      destruct Hp as [<- | [<- | []]]; vm_compute; lia. }
  split; [exact H1 | split; [exact H2 | split; [exact H3 | split; [exact H4 |]]]].
  destruct (@acyclic_graph_is_topologically_scored "/" 4 g
              MoreFixtures.chainTabs MoreFixtures.chainRank H1 H2 H3 H4)
    as (scores & E & _ & Hedges).
  exists scores. split; [exact E |].
  apply (Hedges "/p/b.ts" "/p/c.ts"). cbv. tauto.
Defined.

(** ** The order [sort] returns *)

Section StableSortFacts.
Variable A : Type.
Variable cmp : A -> A -> Z.
Variable P : A -> bool.
Hypothesis cmp_class :
  forall x y, P x = true -> P y = true -> (cmp x y <= 0)%Z.

Lemma insertSorted_filter (x : A) (l : list A) :
  filter P (insertSorted cmp x l)
  = if P x then x :: filter P l else filter P l.
Proof.
  induction l as [| y l IH]; simpl.
  - now destruct (P x).
  - destruct (Z.ltb_spec 0 (cmp x y)) as [Hgt | Hle]; simpl.
    + rewrite IH. destruct (P x) eqn:Px, (P y) eqn:Py; try reflexivity.
      pose proof (cmp_class Px Py). lia.
    + now destruct (P x).
Qed.

Lemma arraySort_filter (l : list A) :
  filter P (arraySort cmp l) = filter P l.
Proof.
  induction l as [| x l IH]; simpl; [reflexivity |].
  rewrite insertSorted_filter, IH. reflexivity.
Qed.
End StableSortFacts.

(** X6: when the collation of [localeCompare] is a total preorder, in the
    tabs [sort] returns no tab without a truthy path comes before a tab
    with one, and the tabs without a truthy path are in the order they had
    in the input. *)
Theorem pathless_tabs_come_last_in_input_order
  (env : Host) (fuel : nat) (st : Strategy) (tabs : list Tab)
  (Htotal : forall a b,
      (localeCompare env a b <= 0 \/ localeCompare env b a <= 0)%Z)
  (Htrans : forall a b c,
      (localeCompare env a b <= 0 -> localeCompare env b c <= 0 ->
       localeCompare env a c <= 0)%Z)
  (Hfuel : length tabs < fuel) :
  exists st' sorted,
    sort env fuel st tabs = Some (st', sorted)
    /\ (forall before x middle y after,
          sorted = (before ++ x :: middle ++ y :: after)%list ->
          sortablePath x = None -> sortablePath y = None)
    /\ filter (fun t => match sortablePath t with
                        | None => true
                        | Some _ => false
                        end) sorted
       = filter (fun t => match sortablePath t with
                          | None => true
                          | Some _ => false
                          end) tabs.
Proof.
  destruct (@sort_returns env fuel st tabs Hfuel) as (scores & Es & E).
  do 2 eexists. split; [exact E | split].
  - intros before x middle y after Hsorted Hx.
    pose proof (@arraySort_sorted Tab (compareTabs env scores)
                  (@compareTabs_total env scores Htotal)
                  (@compareTabs_trans env scores Htrans) tabs) as Hs.
    rewrite Hsorted in Hs. apply StronglySorted_earlier in Hs.
    unfold compareTabs in Hs. rewrite Hx in Hs.
    destruct (sortablePath y); [lia | reflexivity].
  - apply arraySort_filter. intros x y Hx Hy. unfold compareTabs.
    destruct (sortablePath x); [discriminate |].
    destruct (sortablePath y); [discriminate | lia].
Qed.

Lemma pathless_tabs_come_last_in_input_order_witness :
  let env := Fixture.host Fixture.twoCycleWorld in
  let tabs := [{| tabId := 7; fsPath := None |}; Fixture.tab 2 "/p/b.ts";
               {| tabId := 5; fsPath := Some "" |}; Fixture.tab 1 "/p/a.ts"] in
  length tabs < 5
  /\ exists st' sorted,
       sort env 5 newStrategy tabs = Some (st', sorted)
       /\ filter (fun t => match sortablePath t with
                           | None => true
                           | Some _ => false
                           end) sorted
          = [{| tabId := 7; fsPath := None |};
             {| tabId := 5; fsPath := Some "" |}].
Proof.
  intros env tabs.
  assert (H : length tabs < 5) by (simpl; lia).
  split; [exact H |].
  destruct (@pathless_tabs_come_last_in_input_order env 5 newStrategy tabs
              codePointCompare_total codePointCompare_trans H)
    as (st' & sorted & E & _ & Hf).
  exists st', sorted. split; [exact E |]. rewrite Hf. reflexivity.
Defined.

(** X7: when the collation of [localeCompare] is a total preorder, the tabs
    with a truthy path are returned in ascending order of their scores. *)
Theorem sort_is_ascending_in_score
  (env : Host) (fuel : nat) (st : Strategy) (tabs : list Tab)
  (Htotal : forall a b,
      (localeCompare env a b <= 0 \/ localeCompare env b a <= 0)%Z)
  (Htrans : forall a b c,
      (localeCompare env a b <= 0 -> localeCompare env b c <= 0 ->
       localeCompare env a c <= 0)%Z)
  (Hfuel : length tabs < fuel) :
  exists st' scores sorted,
    calculateImportScores (path_sep env) fuel
      (importGraph (buildImportGraph env st tabs)) tabs = Some scores
    /\ sort env fuel st tabs = Some (st', sorted)
    /\ forall before x middle y after pathX pathY,
         sorted = (before ++ x :: middle ++ y :: after)%list ->
         sortablePath x = Some pathX ->
         sortablePath y = Some pathY ->
         numOr (map_get scores pathX) 0 <= numOr (map_get scores pathY) 0.
Proof.
  destruct (@sort_returns env fuel st tabs Hfuel) as (scores & Es & E).
  do 3 eexists. split; [exact Es | split; [exact E |]].
  intros before x middle y after pathX pathY Hsorted Hx Hy.
  pose proof (@arraySort_sorted Tab (compareTabs env scores)
                (@compareTabs_total env scores Htotal)
                (@compareTabs_trans env scores Htrans) tabs) as Hs.
  rewrite Hsorted in Hs. apply StronglySorted_earlier in Hs.
  unfold compareTabs in Hs. rewrite Hx, Hy in Hs.
  destruct (Nat.eqb_spec (numOr (map_get scores pathX) 0)
              (numOr (map_get scores pathY) 0)) as [Heq | Hne];
    simpl in Hs; lia.
Qed.

Lemma sort_is_ascending_in_score_witness :
  let env := Fixture.host MoreFixtures.chainWorld in
  length MoreFixtures.chainTabs < 4
  /\ exists st' scores sorted,
       calculateImportScores (path_sep env) 4
         (importGraph (buildImportGraph env newStrategy MoreFixtures.chainTabs))
         MoreFixtures.chainTabs = Some scores
       /\ sort env 4 newStrategy MoreFixtures.chainTabs = Some (st', sorted)
       /\ forall before x middle y after pathX pathY,
            sorted = (before ++ x :: middle ++ y :: after)%list ->
            sortablePath x = Some pathX ->
            sortablePath y = Some pathY ->
            numOr (map_get scores pathX) 0 <= numOr (map_get scores pathY) 0.
Proof.
  intros env.
  assert (H : length MoreFixtures.chainTabs < 4) by (simpl; lia).
  split; [exact H |].
  exact (@sort_is_ascending_in_score env 4 newStrategy MoreFixtures.chainTabs
           codePointCompare_total codePointCompare_trans H).
Defined.

(** X8: when the collation of [localeCompare] is a total preorder, in the
    tabs [sort] returns no tab of an imported file comes before a tab of a
    dequeued file that imports it (through a matched edge of the graph
    [sort] has built). *)
Theorem imported_tab_never_precedes_its_importer
  (env : Host) (fuel : nat) (st : Strategy) (tabs : list Tab)
  (Htotal : forall a b,
      (localeCompare env a b <= 0 \/ localeCompare env b a <= 0)%Z)
  (Htrans : forall a b c,
      (localeCompare env a b <= 0 -> localeCompare env b c <= 0 ->
       localeCompare env a c <= 0)%Z)
  (Hfuel : length tabs < fuel) :
  exists st' sorted,
    sort env fuel st tabs = Some (st', sorted)
    /\ forall before y middle x after importer imported,
         sorted = (before ++ y :: middle ++ x :: after)%list ->
         sortablePath x = Some importer ->
         sortablePath y = Some imported ->
         In importer (dequeued (path_sep env) fuel (importGraph st') tabs) ->
         In imported
            (edgesFrom (path_sep env) (importGraph st') (tabPathsOf tabs)
               importer) ->
         False.
Proof.
  destruct (@sort_returns env fuel st tabs Hfuel) as (scores & Es & E).
  do 2 eexists. split; [exact E |].
  intros before y middle x after importer imported Hsorted Hx Hy Hdq Hedge.
  destruct (@drained_depth_spec (path_sep env) fuel
              (importGraph (buildImportGraph env st tabs)) tabs
              (buildImportGraph_keys env st tabs) Hfuel)
    as (t & Et & _ & _ & Hd).
  destruct (dinv_edges Hd importer imported Hdq Hedge)
    as (dv & dp & Ev & Ep & Hle).
  unfold calculateImportScores in Es. rewrite Et in Es. injection Es as <-.
  pose proof (@arraySort_sorted Tab
                (compareTabs env
                   (assignRemaining (tabPathsOf tabs) (maxDepthOf (depths t))
                      (depths t)))
                (@compareTabs_total env _ Htotal)
                (@compareTabs_trans env _ Htrans) tabs) as Hs.
  rewrite Hsorted in Hs. apply StronglySorted_earlier in Hs.
  unfold compareTabs in Hs.
  rewrite Hx, Hy, !assignRemaining_get, Ev, Ep, !numOr_zero in Hs.
  destruct (Nat.eqb_spec dp dv) as [Heq | Hne]; simpl in Hs; lia.
Qed.

Lemma imported_tab_never_precedes_its_importer_witness :
  let env := Fixture.host MoreFixtures.chainWorld in
  length MoreFixtures.chainTabs < 4
  /\ exists st' sorted,
       sort env 4 newStrategy MoreFixtures.chainTabs = Some (st', sorted)
       /\ sorted = [Fixture.tab 3 "/p/a.ts"; Fixture.tab 2 "/p/b.ts";
                    Fixture.tab 1 "/p/c.ts"].
Proof.
  intros env.
  assert (H : length MoreFixtures.chainTabs < 4) by (simpl; lia).
  split; [exact H |].
  destruct (@imported_tab_never_precedes_its_importer env 4 newStrategy
              MoreFixtures.chainTabs codePointCompare_total
              codePointCompare_trans H) as (st' & sorted & E & _).
  exists st', sorted. split; [exact E |].
  vm_compute in E. now injection E as _ <-.
Defined.

(** ** Strings *)

Lemma length_append (a b : string) :
  String.length (a ++ b) = String.length a + String.length b.
Proof. induction a as [| c a IH]; simpl; [reflexivity | now rewrite IH]. Qed.

Lemma prefix_append (a b : string) : String.prefix a (a ++ b) = true.
Proof.
  induction a as [| c a IH]; simpl; [now destruct b |].
  destruct (ascii_dec c c); [exact IH | congruence].
Qed.

Lemma substring_skip (a b : string) (m : nat) :
  String.substring (String.length a) m (a ++ b) = String.substring 0 m b.
Proof. induction a as [| c a IH]; simpl; [reflexivity | exact IH]. Qed.

Lemma substring_all (b : string) :
  String.substring 0 (String.length b) b = b.
Proof. induction b as [| c b IH]; simpl; [reflexivity | now rewrite IH]. Qed.

Lemma substring_take (a b : string) :
  String.substring 0 (String.length a) (a ++ b) = a.
Proof.
  induction a as [| c a IH]; simpl; [now destruct b | now rewrite IH].
Qed.

Lemma slice_append (a b : string) : slice (a ++ b) (String.length a) = b.
Proof.
  unfold slice. rewrite length_append, substring_skip.
  replace (String.length a + String.length b - String.length a)
    with (String.length b) by lia.
  apply substring_all.
Qed.

Lemma append_assoc (a b c : string) : (a ++ b) ++ c = a ++ (b ++ c).
Proof. induction a as [| x a IH]; simpl; [reflexivity | now rewrite IH]. Qed.

Lemma stripWildcard_append (s : string) : stripWildcard (s ++ "/*") = s.
Proof.
  unfold stripWildcard. rewrite length_append. simpl String.length.
  replace (String.length s + 2 - 2) with (String.length s) by lia.
  destruct (Nat.leb_spec 2 (String.length s + 2)) as [_ | H]; [| lia].
  rewrite substring_skip, substring_take. reflexivity.
Qed.

(** ** The resolver *)

Section ResolverFacts.
Variable env : Host.

Lemma resolveWithExtensions_exists (resolved p : string) :
  resolveWithExtensions env resolved = Some p -> existsSync env p = true.
Proof.
  rewrite resolveWithExtensions_first. intros H.
  apply firstExisting_Some in H. destruct H as (_ & _ & _ & H & _). exact H.
Qed.

Lemma resolveAlias_misses (base importPath : string)
  (aliases : list (string * string)) :
  Forall (aliasMisses importPath) aliases ->
  resolveAlias env base importPath aliases = None.
Proof.
  induction 1 as [| [alias target] rest [Hne Hpre] _ IH]; simpl;
    [reflexivity |].
  simpl in Hne, Hpre. rewrite Hpre.
  destruct (String.eqb_spec importPath alias); [contradiction | exact IH].
Qed.

Lemma resolveAlias_skips (base importPath : string)
  (before rest : list (string * string)) :
  Forall (aliasMisses importPath) before ->
  resolveAlias env base importPath (before ++ rest)%list
  = resolveAlias env base importPath rest.
Proof.
  induction 1 as [| [alias target] more [Hne Hpre] _ IH]; simpl;
    [reflexivity |].
  simpl in Hne, Hpre. rewrite Hpre.
  destruct (String.eqb_spec importPath alias); [contradiction | exact IH].
Qed.

Lemma resolveAlias_exists (base importPath : string)
  (aliases : list (string * string)) (p : string) :
  resolveAlias env base importPath aliases = Some p ->
  existsSync env p = true.
Proof.
  induction aliases as [| [alias target] rest IH]; simpl; [discriminate |].
  destruct (String.eqb importPath alias || startsWith importPath (alias ++ "/"));
    [apply resolveWithExtensions_exists | exact IH].
Qed.

Lemma resolveImportPath_exists (st : Strategy) (fromFile importPath p : string) :
  snd (resolveImportPath env st fromFile importPath) = Some p ->
  existsSync env p = true.
Proof.
  unfold resolveImportPath.
  destruct (startsWith importPath "." || startsWith importPath "/").
  - apply resolveWithExtensions_exists.
  - destruct (pathAliases (loadPathAliases env st)) as [aliases |];
      [| discriminate].
    destruct (baseUrl (loadPathAliases env st)) as [base |]; [| discriminate].
    destruct (truthy base); [| discriminate].
    apply resolveAlias_exists.
Qed.
End ResolverFacts.

(** X9: a reference that starts neither with [.] nor with [/] and that no
    alias of the loaded table equals or prefixes by a whole path segment
    resolves to nothing: references to installed packages leave no edge. *)
Theorem unaliased_reference_resolves_to_nothing
  (env : Host) (st : Strategy) (fromFile importPath : string)
  (Hdot : startsWith importPath "." = false)
  (Hslash : startsWith importPath "/" = false)
  (Hmiss : forall aliases,
      pathAliases (loadPathAliases env st) = Some aliases ->
      Forall (aliasMisses importPath) aliases) :
  resolveImportPath env st fromFile importPath
  = (loadPathAliases env st, None).
Proof.
  unfold resolveImportPath. rewrite Hdot, Hslash. cbn [orb].
  destruct (pathAliases (loadPathAliases env st)) as [aliases |] eqn:Ea;
    [| reflexivity].
  destruct (baseUrl (loadPathAliases env st)) as [base |]; [| reflexivity].
  destruct (truthy base); [| reflexivity].
  now rewrite (@resolveAlias_misses env base importPath aliases (Hmiss _ eq_refl)).
Qed.

Lemma unaliased_reference_resolves_to_nothing_witness :
  let env := Fixture.host Fixture.aliasWorld in
  startsWith "react" "." = false
  /\ startsWith "react" "/" = false
  /\ pathAliases (loadPathAliases env newStrategy) = Some [("@", "src")]
  /\ resolveImportPath env newStrategy "/proj/src/a.ts" "react"
     = (loadPathAliases env newStrategy, None).
Proof.
  intros env.
  split; [reflexivity | split; [reflexivity | split; [reflexivity |]]].
  apply (@unaliased_reference_resolves_to_nothing env newStrategy
           "/proj/src/a.ts" "react"); [reflexivity | reflexivity |].
  intros aliases Ha. vm_compute in Ha. injection Ha as <-.
  apply Forall_cons; [| apply Forall_nil].
  split; [discriminate | reflexivity].
Defined.

(** X10: aliases are tried in the order of the table and the first one
    that matches decides: when no earlier alias matches, a reference made
    of an alias, a slash and a remainder is probed at the alias's target
    followed by the same slash and remainder, under the base directory -
    also when that probe fails and a later alias would match. *)
Theorem first_matching_alias_is_rewritten
  (env : Host) (base alias target remainder : string)
  (before after : list (string * string))
  (Hbefore : Forall (aliasMisses (alias ++ "/" ++ remainder)) before) :
  resolveAlias env base (alias ++ "/" ++ remainder)
    (before ++ (alias, target) :: after)%list
  = resolveWithExtensions env
      (path_join env base (target ++ "/" ++ remainder)).
Proof.
  rewrite resolveAlias_skips by assumption. cbn [resolveAlias].
  assert (Hpre : startsWith (alias ++ "/" ++ remainder) (alias ++ "/") = true).
  { unfold startsWith. rewrite <- append_assoc. apply prefix_append. }
  rewrite Hpre, Bool.orb_true_r, slice_append. reflexivity.
Qed.

Lemma first_matching_alias_is_rewritten_witness :
  let env := Fixture.host
               {| Fixture.files := [("/proj/src/components/Button.tsx", "export {}")];
                  Fixture.directories := ["/proj"];
                  Fixture.root := Some "/proj";
                  Fixture.configFiles := [];
                  Fixture.documents := [];
                  Fixture.captures := [];
                  Fixture.collation := Fixture.codePointCompare |} in
  Forall (aliasMisses ("@" ++ "/" ++ "components/Button")) [("~", "lib")]
  /\ resolveAlias env "/proj" "@/components/Button"
       [("~", "lib"); ("@", "src"); ("@/components", "other")]
     = Some "/proj/src/components/Button.tsx".
Proof.
  intros env.
  assert (H : Forall (aliasMisses ("@" ++ "/" ++ "components/Button"))
                [("~", "lib")]).
  { apply Forall_cons; [| apply Forall_nil].
    split; [discriminate | reflexivity]. }
  split; [exact H |].
  refine (eq_trans
            (@first_matching_alias_is_rewritten env "/proj" "@" "src"
               "components/Button" [("~", "lib")]
               [("@/components", "other")] H) _).
  reflexivity.
Defined.

(** ** What an extraction returns *)

Section ExtractionResults.
Variable env : Host.

Lemma resolveMatches_results (filePath : string) (matches : list string) :
  forall (st : Strategy) (imports : list string),
    NoDup imports ->
    (forall r, In r imports -> existsSync env r = true /\ truthy r = true) ->
    NoDup (snd (resolveMatches env st filePath matches imports))
    /\ forall r, In r (snd (resolveMatches env st filePath matches imports)) ->
                 existsSync env r = true /\ truthy r = true.
Proof.
  induction matches as [| m rest IH]; intros st imports Hnd Hall; simpl;
    [auto |].
  pose proof (@resolveImportPath_exists env st filePath m) as Hex.
  destruct (resolveImportPath env st filePath m) as [st' r]. simpl in Hex.
  destruct r as [r |]; [| now apply IH].
  destruct (truthy r) eqn:Tr; [| now apply IH].
  apply IH.
  - now apply set_add_NoDup.
  - intros q Hq. apply set_add_In in Hq. destruct Hq as [-> | Hq]; auto.
Qed.
End ExtractionResults.

(** X11: an extraction that misses the cache returns a set without
    duplicates, every member of which is a non-empty path that the file
    probe reported as existing. *)
Theorem extraction_returns_existing_paths
  (env : Host) (st : Strategy) (filePath : string)
  (Hmiss : map_get (importCache st) filePath = None) :
  NoDup (snd (extractImports env st filePath))
  /\ forall r, In r (snd (extractImports env st filePath)) ->
               existsSync env r = true /\ truthy r = true.
Proof.
  unfold extractImports. rewrite Hmiss.
  destruct (match openDocumentText env filePath with
            | Some t => Some t
            | None => readFileSync env filePath
            end) as [text |];
    [| simpl; split; [constructor | intros r []]].
  destruct (truthy text); [| simpl; split; [constructor | intros r []]].
  simpl.
  destruct (@resolveMatches_results env filePath (scanImports env text) st []
              (@NoDup_nil string)) as [H1 H2]; [intros r [] |].
  destruct (resolveMatches env st filePath (scanImports env text) [])
    as [st' imports]. simpl in *. auto.
Qed.

Lemma extraction_returns_existing_paths_witness :
  let env := Fixture.host MoreFixtures.chainWorld in
  map_get (importCache newStrategy) "/p/a.ts" = None
  /\ snd (extractImports env newStrategy "/p/a.ts") = ["/p/b.ts"; "/p/c.ts"]
  /\ forall r, In r (snd (extractImports env newStrategy "/p/a.ts")) ->
               existsSync env r = true /\ truthy r = true.
Proof.
  intros env.
  assert (H : map_get (importCache newStrategy) "/p/a.ts" = None)
    by reflexivity.
  split; [exact H | split; [reflexivity |]].
  exact (proj2 (@extraction_returns_existing_paths env newStrategy "/p/a.ts" H)).
Defined.

(** ** The graph [buildImportGraph] leaves *)

Lemma map_keys_set_add (V : Type) (m : list (string * V)) (k : string) (v : V) :
  map_keys (map_set m k v) = set_add (map_keys m) k.
Proof.
  unfold set_add. destruct (set_has (map_keys m) k) eqn:E.
  - apply map_keys_set_in. now apply set_has_In.
  - apply map_keys_set_new. now apply set_has_false.
Qed.

Lemma filePaths_defined (tabs : list Tab) (p : string) :
  In p (filePaths tabs) -> In p (definedPaths tabs).
Proof.
  induction tabs as [| tab rest IH]; simpl; [tauto |].
  unfold sortablePath. destruct (getTabPath tab) as [q |]; [| exact IH].
  destruct (truthy q); simpl; intuition.
Qed.

Section GraphShape.
Variable env : Host.

Lemma buildLoop_shape (tabs : list Tab) :
  forall st : Strategy,
    (forall p s, map_get (importGraph st) p = Some s ->
                 map_get (importCache st) p = Some s) ->
    map_keys (importGraph (buildLoop env st tabs))
      = fold_left set_add (filePaths tabs) (map_keys (importGraph st))
    /\ forall p s, map_get (importGraph (buildLoop env st tabs)) p = Some s ->
                   map_get (importCache (buildLoop env st tabs)) p = Some s.
Proof.
  induction tabs as [| tab rest IH]; intros st Hst; simpl; [auto |].
  unfold sortablePath.
  destruct (getTabPath tab) as [filePath |]; [| now apply IH].
  destruct (truthy filePath); [| now apply IH].
  pose proof (extractImports_graph env st filePath) as Hg.
  destruct (extractImports_cache env st filePath) as [Hret Hkeep].
  destruct (extractImports env st filePath) as [st1 imports].
  cbn [fst snd] in *.
  destruct (IH (setGraph st1 (map_set (importGraph st1) filePath imports)))
    as [H1 H2].
  - intros p s. simpl. destruct (string_dec p filePath) as [-> | Hne].
    + rewrite map_get_set_same. congruence.
    + rewrite map_get_set_other by assumption. rewrite Hg. auto.
  - split; [| exact H2].
    rewrite H1. simpl. now rewrite map_keys_set_add, Hg.
Qed.
End GraphShape.

(** X12: the graph [buildImportGraph] leaves has one entry for each
    distinct truthy path among the tabs, in the order of their first
    occurrence, each of them an open path, and the set stored under a path
    is the set the cache holds for it. *)
Theorem graph_has_one_entry_per_open_file
  (env : Host) (st : Strategy) (tabs : list Tab) :
  let st' := buildImportGraph env st tabs in
  map_keys (importGraph st') = set_of (filePaths tabs)
  /\ (forall p, In p (map_keys (importGraph st')) -> In p (tabPathsOf tabs))
  /\ forall p s, map_get (importGraph st') p = Some s ->
                 map_get (importCache st') p = Some s.
Proof.
  intros st'. subst st'. unfold buildImportGraph.
  destruct (@buildLoop_shape env tabs (setGraph st [])) as [H1 H2];
    [intros p s; discriminate |].
  split; [exact H1 | split; [| exact H2]].
  intros p. rewrite H1. simpl. fold (set_of (filePaths tabs)).
  rewrite set_of_In. intros Hp. unfold tabPathsOf. apply set_of_In.
  now apply filePaths_defined.
Qed.

(** ** The alias state once loaded *)

Section BaseKept.
Variable env : Host.

Lemma resolveImportPath_base (st : Strategy) (fromFile importPath : string) :
  pathAliases st <> None ->
  baseUrl (fst (resolveImportPath env st fromFile importPath)) = baseUrl st.
Proof.
  intros Hl. unfold resolveImportPath.
  destruct (startsWith importPath "." || startsWith importPath "/");
    [reflexivity |].
  rewrite (@loadPathAliases_loaded env st Hl).
  destruct (pathAliases st);
    [destruct (baseUrl st) as [base |] eqn:E; [destruct (truthy base) |] |];
    simpl; congruence.
Qed.

Lemma resolveMatches_base (filePath : string) (matches : list string) :
  forall (st : Strategy) (imports : list string),
    pathAliases st <> None ->
    baseUrl (fst (resolveMatches env st filePath matches imports))
    = baseUrl st.
Proof.
  induction matches as [| m rest IH]; intros st imports Hl; simpl;
    [reflexivity |].
  pose proof (@resolveImportPath_aliases env st filePath m Hl) as Hk.
  pose proof (@resolveImportPath_base st filePath m Hl) as Hb.
  destruct (resolveImportPath env st filePath m) as [st' r]. simpl in Hk, Hb.
  assert (Hl' : pathAliases st' <> None) by congruence.
  destruct r as [r |]; [destruct (truthy r) |]; rewrite IH; auto.
Qed.

Lemma extractImports_base (st : Strategy) (filePath : string) :
  pathAliases st <> None ->
  baseUrl (fst (extractImports env st filePath)) = baseUrl st.
Proof.
  intros Hl. unfold extractImports.
  destruct (map_get (importCache st) filePath); [reflexivity |].
  destruct (match openDocumentText env filePath with
            | Some t => Some t
            | None => readFileSync env filePath
            end) as [text |]; [| reflexivity].
  destruct (truthy text); [| reflexivity]. simpl.
  pose proof (@resolveMatches_base filePath (scanImports env text) st [] Hl)
    as Hk.
  destruct (resolveMatches env st filePath (scanImports env text) [])
    as [st' imports]. exact Hk.
Qed.

Lemma buildLoop_base (tabs : list Tab) :
  forall st : Strategy,
    pathAliases st <> None ->
    baseUrl (buildLoop env st tabs) = baseUrl st.
Proof.
  induction tabs as [| tab rest IH]; intros st Hl; simpl; [reflexivity |].
  destruct (getTabPath tab) as [filePath |]; [| auto].
  destruct (truthy filePath); [| auto].
  pose proof (@extractImports_aliases env st filePath Hl) as Hk.
  pose proof (@extractImports_base st filePath Hl) as Hb.
  destruct (extractImports env st filePath) as [st' imports].
  simpl in Hk, Hb.
  rewrite IH; simpl; congruence.
Qed.
End BaseKept.

(** X13: whatever [loadPathAliases] finds, it leaves the alias table
    non-null; from then on, through any extractions and [sort] calls in any
    environment, another call of it changes nothing and the table and the
    base directory stay as they are - a configuration file written later is
    not seen - until [clearCache] resets them. *)
Theorem alias_state_is_loaded_once (env : Host) (st : Strategy) :
  pathAliases (loadPathAliases env st) <> None
  /\ (forall st' env',
        ReachedWithoutClearing (loadPathAliases env st) st' ->
        pathAliases st' = pathAliases (loadPathAliases env st)
        /\ baseUrl st' = baseUrl (loadPathAliases env st)
        /\ loadPathAliases env' st' = st')
  /\ pathAliases (clearCache (loadPathAliases env st)) = None
  /\ baseUrl (clearCache (loadPathAliases env st)) = None.
Proof.
  assert (Hl : pathAliases (loadPathAliases env st) <> None).
  { unfold loadPathAliases. destruct (pathAliases st) eqn:E;
      [congruence | simpl; discriminate]. }
  split; [exact Hl | split; [| split; reflexivity]].
  intros st' env' Hr.
  assert (Ha : pathAliases st' = pathAliases (loadPathAliases env st))
    by (now apply aliases_kept).
  split; [exact Ha | split].
  - induction Hr as [| e st' q Hr IH | e fuel st' st'' tabs sorted Hr IH Hs].
    + reflexivity.
    + pose proof (aliases_kept Hr Hl) as Hk.
      rewrite extractImports_base; [now apply IH | congruence].
    + pose proof (aliases_kept Hr Hl) as Hk.
      apply sort_state in Hs. subst st''. unfold buildImportGraph.
      rewrite buildLoop_base; simpl; [now apply IH | congruence].
  - apply loadPathAliases_loaded. congruence.
Qed.

Lemma setAliases_wildcard
  (alias target : string) (others : list json)
  (rest : list (string * json)) (table : list (string * string)) :
  setAliases ((alias ++ "/*", JArr (JStr (target ++ "/*") :: others)) :: rest)
    table
  = setAliases rest (map_set table alias target).
Proof. cbn [setAliases]. now rewrite !stripWildcard_append. Qed.

(** X14: the loader and the resolver compose: when the first candidate
    that is not passed over declares the one entry [alias/*] with the first
    target [target/*], a reference [alias/remainder] is probed at
    [target/remainder] under the declared base directory - the wildcard is
    removed on both sides and the remainder is carried over. *)
Theorem wildcard_alias_resolves_under_base
  (env : Host) (st : Strategy) (rootDir base fromFile : string)
  (skipped later : list string) (configFile : string)
  (alias target remainder : string) (others : list json)
  (Hroot : workspaceRoot env = Some rootDir)
  (Htruthy : truthy rootDir = true)
  (Hfresh : pathAliases st = None)
  (Hfiles : aliasConfigFiles env = (skipped ++ configFile :: later)%list)
  (Hskip : Forall (Skipped env rootDir) skipped)
  (Hdecl : Declares env rootDir configFile
             [(alias ++ "/*", JArr (JStr (target ++ "/*") :: others))] base)
  (Hbase : truthy base = true)
  (Hdot : startsWith (alias ++ "/" ++ remainder) "." = false)
  (Hslash : startsWith (alias ++ "/" ++ remainder) "/" = false) :
  resolveImportPath env st fromFile (alias ++ "/" ++ remainder)
  = (loadPathAliases env st,
     resolveWithExtensions env
       (path_join env base (target ++ "/" ++ remainder))).
Proof.
  unfold resolveImportPath. rewrite Hdot, Hslash. cbn [orb].
  destruct (@loadPathAliases_fresh env st rootDir Hfresh Hroot Htruthy)
    as [Ha Hb].
  rewrite Ha, Hb, Hfiles, scanConfigFiles_skipped by assumption.
  cbn [scanConfigFiles].
  rewrite (@tryConfigFile_declares env rootDir configFile _ base _ Hdecl).
  cbn [aliasTable aliasBase]. rewrite setAliases_wildcard.
  cbn [setAliases map_set fst]. rewrite Hbase. cbn [resolveAlias].
  assert (Hpre : startsWith (alias ++ "/" ++ remainder) (alias ++ "/") = true).
  { unfold startsWith. rewrite <- append_assoc. apply prefix_append. }
  rewrite Hpre, Bool.orb_true_r, slice_append. reflexivity.
Qed.

Lemma wildcard_alias_resolves_under_base_witness :
  let env := Fixture.host MoreFixtures.aliasedProjectWorld in
  resolveImportPath env newStrategy "/proj/src/app.ts" "@/components/Button"
  = (loadPathAliases env newStrategy,
     Some "/proj/src/components/Button.tsx").
Proof.
  intros env.
  assert (Hs : Forall (Skipped env "/proj") ["missing.json"]).
  { apply Forall_cons; [| apply Forall_nil].
    apply skipped_missing. reflexivity. }
  assert (Hd : Declares env "/proj" "tsconfig.json"
                 [("@" ++ "/*", JArr [JStr ("src" ++ "/*")])] "/proj").
  { apply declares
      with (content := "{ 'compilerOptions': { 'paths': { '@/*': ['src/*'] } } }")
           (members := [("compilerOptions",
                         JObj [("paths",
                                JObj [("@/*", JArr [JStr "src/*"])])])])
           (options := [("paths", JObj [("@/*", JArr [JStr "src/*"])])]);
      try reflexivity.
    - discriminate.
    - apply Forall_cons; [| apply Forall_nil]. exists "src/*". reflexivity. }
  refine (eq_trans
            (@wildcard_alias_resolves_under_base env newStrategy "/proj"
               "/proj" "/proj/src/app.ts" ["missing.json"] ["jsconfig.json"]
               "tsconfig.json" "@" "src" "components/Button" []
               eq_refl eq_refl eq_refl eq_refl Hs Hd eq_refl eq_refl eq_refl)
            _).
  reflexivity.
Defined.

(** ** Path segments and depths *)

Section SplitFacts.
Variable sep : ascii.

Lemma split_length (s : string) :
  length (split sep s) = S (occurrences sep s).
Proof.
  induction s as [| c s IH]; simpl; [reflexivity |].
  destruct (Ascii.eqb c sep); simpl; [now rewrite IH |].
  destruct (split sep s) as [| seg rest]; [discriminate | exact IH].
Qed.

Lemma split_append (a b : string) :
  split sep (a ++ String sep b) = (split sep a ++ split sep b)%list.
Proof.
  induction a as [| c a IH]; simpl.
  - now rewrite Ascii.eqb_refl.
  - rewrite IH. destruct (Ascii.eqb c sep); [reflexivity |].
    pose proof (split_length a) as Hl.
    destruct (split sep a) as [| seg rest]; [discriminate | reflexivity].
Qed.

Lemma split_segment (s : string) :
  occurrences sep s = 0 -> split sep s = [s].
Proof.
  induction s as [| c s IH]; simpl; [reflexivity |].
  destruct (Ascii.eqb c sep); [discriminate |].
  intros H. now rewrite (IH H).
Qed.

Lemma split_concat (s : string) :
  String.concat (String sep EmptyString) (split sep s) = s.
Proof.
  induction s as [| c s IH]; simpl; [reflexivity |].
  destruct (Ascii.eqb_spec c sep) as [-> | Hne].
  - pose proof (split_length s) as Hl.
    destruct (split sep s) as [| seg rest] eqn:E; [discriminate |].
    simpl. simpl in IH. now rewrite IH.
  - pose proof (split_length s) as Hl.
    destruct (split sep s) as [| seg rest] eqn:E; [discriminate |].
    simpl in *. destruct rest as [| seg' rest'].
    + now rewrite IH.
    + simpl. now rewrite <- IH.
Qed.
End SplitFacts.

(** X15: [getPathDepth] returns the number of separators of the relative
    path; the guard for [.] and for the empty path changes nothing, the
    separator not being a dot. *)
Theorem getPathDepth_counts_separators
  (sep : ascii) (relativePath : string) (Hsep : sep <> "."%char) :
  getPathDepth sep relativePath = occurrences sep relativePath
  /\ getPathDepth sep relativePath = length (split sep relativePath) - 1.
Proof.
  assert (H : length (split sep relativePath) - 1
              = occurrences sep relativePath)
    by (rewrite split_length; lia).
  rewrite H.
  assert (G : getPathDepth sep relativePath = occurrences sep relativePath);
    [| split; [exact G | exact G]].
  unfold getPathDepth.
  destruct (String.eqb_spec relativePath ".") as [-> | _].
  - cbn [orb occurrences].
    destruct (Ascii.eqb_spec "." sep) as [E | _]; [congruence | reflexivity].
  - destruct (String.eqb_spec relativePath "") as [-> | _]; cbn [orb].
    + reflexivity.
    + exact H.
Qed.

Lemma getPathDepth_counts_separators_witness :
  "/"%char <> "."%char
  /\ getPathDepth "/" "src/components/Button.tsx" = 2
  /\ getPathDepth "/" "." = 0
  /\ getPathDepth "/" "../x.ts" = 1.
Proof.
  assert (H : "/"%char <> "."%char) by discriminate.
  split; [exact H |].
  rewrite !(proj1 (@getPathDepth_counts_separators "/" _ H)).
  repeat split; reflexivity.
Defined.

(** X16: [getFileDepth] counts the non-empty segments of a path: it is
    additive over a slash, a segment without a slash counts for one unless
    it is empty, so that leading, trailing and doubled slashes do not
    count. *)
Theorem getFileDepth_counts_nonempty_segments :
  (forall a b, getFileDepth (a ++ String "/" b)
               = getFileDepth a + getFileDepth b)
  /\ getFileDepth "" = 0
  /\ (forall seg c, occurrences "/" (String c seg) = 0 ->
                    getFileDepth (String c seg) = 1).
Proof.
  split; [| split].
  - intros a b. unfold getFileDepth.
    now rewrite split_append, filter_app, length_app.
  - reflexivity.
  - intros seg c H. unfold getFileDepth. now rewrite (split_segment _ _ H).
Qed.

Example getFileDepth_ignores_extra_slashes :
  getFileDepth "/proj//src/util.ts/" = 3.
Proof. reflexivity. Qed.

(** ** The alphabetical strategy *)

Section AlphabeticalFacts.
Variable collate : string -> string -> Z.
Hypothesis collate_total :
  forall a b, (collate a b <= 0 \/ collate b a <= 0)%Z.
Hypothesis collate_trans :
  forall a b c, (collate a b <= 0 -> collate b c <= 0 -> collate a c <= 0)%Z.

Lemma compareAlphabetical_total (a b : Tab) :
  (compareAlphabetical collate a b <= 0
   \/ compareAlphabetical collate b a <= 0)%Z.
Proof.
  unfold compareAlphabetical.
  destruct (sortablePath a), (sortablePath b); try lia.
  apply collate_total.
Qed.

Lemma compareAlphabetical_trans (a b c : Tab) :
  (compareAlphabetical collate a b <= 0 ->
   compareAlphabetical collate b c <= 0 ->
   compareAlphabetical collate a c <= 0)%Z.
Proof.
  unfold compareAlphabetical.
  destruct (sortablePath a), (sortablePath b), (sortablePath c); try lia.
  apply collate_trans.
Qed.
End AlphabeticalFacts.

(** X17: [AlphabeticalStrategy.sort] returns a permutation of the tabs;
    when the collation is a total preorder, the tabs with a truthy path
    come in ascending order of the collation, before the tabs without one,
    which keep the order they had. *)
Theorem alphabetical_sort_orders_by_collation
  (collate : string -> string -> Z) (tabs : list Tab)
  (Htotal : forall a b, (collate a b <= 0 \/ collate b a <= 0)%Z)
  (Htrans : forall a b c,
      (collate a b <= 0 -> collate b c <= 0 -> collate a c <= 0)%Z) :
  Permutation tabs (alphabeticalSort collate tabs)
  /\ (forall before x middle y after,
        alphabeticalSort collate tabs
          = (before ++ x :: middle ++ y :: after)%list ->
        match sortablePath x, sortablePath y with
        | Some pathX, Some pathY => (collate pathX pathY <= 0)%Z
        | None, Some _ => False
        | _, None => True
        end)
  /\ filter (fun t => match sortablePath t with
                      | None => true
                      | Some _ => false
                      end) (alphabeticalSort collate tabs)
     = filter (fun t => match sortablePath t with
                        | None => true
                        | Some _ => false
                        end) tabs.
Proof.
  unfold alphabeticalSort. split; [apply arraySort_perm | split].
  - intros before x middle y after Hsorted.
    pose proof (@arraySort_sorted Tab (compareAlphabetical collate)
                  (@compareAlphabetical_total collate Htotal)
                  (@compareAlphabetical_trans collate Htrans) tabs) as Hs.
    rewrite Hsorted in Hs. apply StronglySorted_earlier in Hs.
    unfold compareAlphabetical in Hs.
    destruct (sortablePath x), (sortablePath y); auto; lia.
  - apply arraySort_filter. intros x y Hx Hy. unfold compareAlphabetical.
    destruct (sortablePath x); [discriminate |].
    destruct (sortablePath y); [discriminate | lia].
Qed.

Lemma alphabetical_sort_orders_by_collation_witness :
  alphabeticalSort Fixture.codePointCompare
    [{| tabId := 9; fsPath := None |}; Fixture.tab 2 "/p/b.ts";
     Fixture.tab 1 "/p/a.ts"]
  = [Fixture.tab 1 "/p/a.ts"; Fixture.tab 2 "/p/b.ts";
     {| tabId := 9; fsPath := None |}]
  /\ Permutation
       [{| tabId := 9; fsPath := None |}; Fixture.tab 2 "/p/b.ts";
        Fixture.tab 1 "/p/a.ts"]
       (alphabeticalSort Fixture.codePointCompare
          [{| tabId := 9; fsPath := None |}; Fixture.tab 2 "/p/b.ts";
           Fixture.tab 1 "/p/a.ts"]).
Proof.
  split; [reflexivity |].
  exact (proj1 (@alphabetical_sort_orders_by_collation
                  Fixture.codePointCompare
                  [{| tabId := 9; fsPath := None |}; Fixture.tab 2 "/p/b.ts";
                   Fixture.tab 1 "/p/a.ts"]
                  codePointCompare_total codePointCompare_trans)).
Defined.

(** ** Import order without edges *)

Lemma arraySort_ext (A : Type) (cmp1 cmp2 : A -> A -> Z) (l : list A) :
  (forall a b, cmp1 a b = cmp2 a b) ->
  arraySort cmp1 l = arraySort cmp2 l.
Proof.
  intros H. induction l as [| x l IH]; simpl; [reflexivity |].
  rewrite IH. generalize (arraySort cmp2 l). intros m.
  induction m as [| y m IHm]; simpl; [reflexivity |].
  now rewrite H, IHm.
Qed.

(** X18: when no file of the graph [sort] builds has a matched edge, the
    score calculator gives every open path the score 0, and the Import
    Order strategy orders the tabs as the alphabetical comparator does on
    the collation of [localeCompare]. *)
Theorem sort_without_edges_is_alphabetical
  (env : Host) (fuel : nat) (st : Strategy) (tabs : list Tab)
  (Hfuel : length tabs < fuel)
  (Hnone : forall f p,
      ~ In p (edgesFrom (path_sep env)
                (importGraph (buildImportGraph env st tabs))
                (tabPathsOf tabs) f)) :
  exists scores,
    calculateImportScores (path_sep env) fuel
      (importGraph (buildImportGraph env st tabs)) tabs = Some scores
    /\ (forall p, In p (tabPathsOf tabs) -> map_get scores p = Some 0)
    /\ sort env fuel st tabs
       = Some (buildImportGraph env st tabs,
               alphabeticalSort (localeCompare env) tabs).
Proof.
  destruct (@drained_spec (path_sep env) fuel
              (importGraph (buildImportGraph env st tabs)) tabs
              (buildImportGraph_keys env st tabs) Hfuel) as (t & E & _ & Hinv).
  assert (Hroot : forall p,
             inDegree (path_sep env)
               (importGraph (buildImportGraph env st tabs))
               (tabPathsOf tabs) p = 0).
  { intros p.
    apply (proj2 (@inDegree_zero_iff (path_sep env)
                    (importGraph (buildImportGraph env st tabs))
                    (tabPathsOf tabs) p)).
    intros f. apply Hnone. }
  assert (Hopen : forall p,
             In p (tabPathsOf tabs) ->
             map_get (assignRemaining (tabPathsOf tabs)
                        (maxDepthOf (depths t)) (depths t)) p = Some 0).
  { intros p Hp. rewrite assignRemaining_get.
    destruct (map_get (depths t) p) as [k |] eqn:Ek.
    - f_equal. apply (inv_depth_roots Hinv _ Ek). apply Hroot.
    - exfalso.
      assert (Hne : map_get (depths t) p <> None).
      { apply (inv_depth_keys Hinv). left. split; [exact Hp | apply Hroot]. }
      contradiction. }
  assert (Hz : forall p,
             numOr (map_get (assignRemaining (tabPathsOf tabs)
                               (maxDepthOf (depths t)) (depths t)) p) 0 = 0).
  { intros p.
    destruct (in_dec string_dec p (tabPathsOf tabs)) as [Hp | Hp].
    - now rewrite (Hopen p Hp).
    - rewrite assignRemaining_get.
      destruct (map_get (depths t) p) as [k |] eqn:Ek.
      + assert (Hk : k = 0)
          by (apply (inv_depth_roots Hinv _ Ek); apply Hroot).
        subst k. reflexivity.
      + destruct (in_dec string_dec p (tabPathsOf tabs));
          [contradiction | reflexivity]. }
  unfold sort, calculateImportScores. rewrite E.
  eexists. split; [reflexivity |]. split; [exact Hopen |].
  f_equal. f_equal.
  unfold alphabeticalSort. apply arraySort_ext. intros a b.
  unfold compareTabs, compareAlphabetical.
  destruct (sortablePath a), (sortablePath b); try reflexivity.
  now rewrite !Hz.
Qed.

Lemma sort_without_edges_is_alphabetical_witness :
  let env := Fixture.host Fixture.mixedCaseWorld in
  length Fixture.mixedCaseTabs < 3
  /\ (forall f p,
        ~ In p (edgesFrom (path_sep env)
                  (importGraph (buildImportGraph env newStrategy
                                  Fixture.mixedCaseTabs))
                  (tabPathsOf Fixture.mixedCaseTabs) f))
  /\ exists scores,
       calculateImportScores (path_sep env) 3
         (importGraph (buildImportGraph env newStrategy
                         Fixture.mixedCaseTabs))
         Fixture.mixedCaseTabs = Some scores
       /\ (forall p, In p (tabPathsOf Fixture.mixedCaseTabs) ->
                     map_get scores p = Some 0)
       /\ sort env 3 newStrategy Fixture.mixedCaseTabs
          = Some (buildImportGraph env newStrategy Fixture.mixedCaseTabs,
                  alphabeticalSort (localeCompare env) Fixture.mixedCaseTabs).
Proof.
  intros env.
  assert (H1 : length Fixture.mixedCaseTabs < 3) by (simpl; lia).
  assert (H2 : forall f p,
             ~ In p (edgesFrom (path_sep env)
                       (importGraph (buildImportGraph env newStrategy
                                       Fixture.mixedCaseTabs))
                       (tabPathsOf Fixture.mixedCaseTabs) f)).
  { intros f p. unfold edgesFrom.
    change (importGraph (buildImportGraph env newStrategy Fixture.mixedCaseTabs))
      with [("/p/B.ts", @nil string); ("/p/a.ts", @nil string)].
    cbn [map_get].
    destruct (String.eqb "/p/B.ts" f); [intros [] |].
    destruct (String.eqb "/p/a.ts" f); intros []. }
  split; [exact H1 | split; [exact H2 |]].
  exact (@sort_without_edges_is_alphabetical env 3 newStrategy
           Fixture.mixedCaseTabs H1 H2).
Defined.

(** ** Comment stripping *)

Lemma prefix_two (x y a b : ascii) (t : string) :
  String.prefix (String x (String y EmptyString)) (String a (String b t))
  = Ascii.eqb x a && Ascii.eqb y b.
Proof.
  cbn [String.prefix].
  destruct (ascii_dec x a) as [E | E], (Ascii.eqb_spec x a) as [F | F];
    try congruence; [| reflexivity].
  destruct (ascii_dec y b) as [G | G], (Ascii.eqb_spec y b) as [K | K];
    try congruence; [| reflexivity].
  now destruct t.
Qed.

Lemma prefix_two_here (x y : ascii) (t : string) :
  String.prefix (String x (String y EmptyString)) (String x (String y t))
  = true.
Proof. now rewrite prefix_two, !Ascii.eqb_refl. Qed.

Lemma includes_cons (c : ascii) (s p : string) :
  includes (String c s) p = false ->
  String.prefix p (String c s) = false /\ includes s p = false.
Proof. cbn [includes]. apply Bool.orb_false_elim. Qed.

Lemma afterBlockEnd_first (b c : string) :
  includes b "*/" = false ->
  afterBlockEnd (b ++ "*/" ++ c) = Some c.
Proof.
  induction b as [| x b IH]; intros H; [reflexivity |].
  apply includes_cons in H. destruct H as [Hp Hb].
  change (String x b ++ "*/" ++ c) with (String x (b ++ "*/" ++ c)).
  cbn [afterBlockEnd]. rewrite <- (IH Hb).
  destruct b as [| y b]; cbn [append].
  - destruct (Ascii.eqb x "*"); reflexivity.
  - destruct (Ascii.eqb_spec x "*") as [-> |]; [| reflexivity].
    destruct (Ascii.eqb_spec y "/") as [-> |]; [| reflexivity].
    now rewrite prefix_two_here in Hp.
Qed.

Lemma afterBlockEnd_none (s : string) :
  includes s "*/" = false -> afterBlockEnd s = None.
Proof.
  induction s as [| x s IH]; intros H; [reflexivity |].
  apply includes_cons in H. destruct H as [Hp Hs].
  cbn [afterBlockEnd]. destruct s as [| y s]; [reflexivity |].
  destruct (Ascii.eqb_spec x "*") as [-> |]; [| now apply IH].
  destruct (Ascii.eqb_spec y "/") as [-> |]; [| now apply IH].
  now rewrite prefix_two_here in Hp.
Qed.

Lemma stripBlockFrom_skip (a r : string) :
  stripBlockFrom (String.length a) (a ++ r) = stripBlockFrom 0 r.
Proof.
  induction a as [| x a IH]; [reflexivity |]. exact IH.
Qed.

Lemma stripBlockFrom_open (body rest : string) :
  afterBlockEnd body = Some rest ->
  stripBlockFrom 0 (String "/" (String "*" body))
  = stripBlockFrom (String.length (String "*" body) - String.length rest)
      (String "*" body).
Proof.
  intros H.
  change (stripBlockFrom 0 (String "/" (String "*" body)))
    with (match afterBlockEnd body with
          | Some rest =>
              stripBlockFrom
                (String.length (String "*" body) - String.length rest)
                (String "*" body)
          | None => String "/" (stripBlockFrom 0 (String "*" body))
          end).
  now rewrite H.
Qed.

Lemma stripBlockFrom_opener (b c : string) :
  includes b "*/" = false ->
  stripBlockFrom 0 ("/*" ++ b ++ "*/" ++ c) = stripBlockFrom 0 c.
Proof.
  intros Hb.
  change ("/*" ++ b ++ "*/" ++ c)
    with (String "/" (String "*" (b ++ "*/" ++ c))).
  rewrite (@stripBlockFrom_open _ c (@afterBlockEnd_first b c Hb)).
  replace (String.length (String "*" (b ++ "*/" ++ c)) - String.length c)
    with (String.length (String "*" (b ++ "*/")))
    by (cbn [String.length]; rewrite !length_append;
        cbn [String.length]; lia).
  replace (String "*" (b ++ "*/" ++ c)) with (String "*" (b ++ "*/") ++ c)
    by (cbn [append]; now rewrite append_assoc).
  exact (stripBlockFrom_skip (String "*" (b ++ "*/")) c).
Qed.

Lemma stripBlockFrom_copy (x : ascii) (s : string) :
  String.prefix "/*" (String x s) = false ->
  s <> EmptyString ->
  stripBlockFrom 0 (String x s) = String x (stripBlockFrom 0 s).
Proof.
  intros Hp Hne. destruct s as [| y s]; [congruence |].
  cbn [stripBlockFrom].
  destruct (Ascii.eqb_spec x "/") as [-> |]; [| reflexivity].
  destruct (Ascii.eqb_spec y "*") as [-> |]; [| reflexivity].
  now rewrite prefix_two_here in Hp.
Qed.

Lemma stripBlockFrom_unterminated (s : string) :
  includes s "*/" = false -> stripBlockFrom 0 s = s.
Proof.
  induction s as [| x s IH]; intros H; [reflexivity |].
  apply includes_cons in H. destruct H as [_ Hs].
  cbn [stripBlockFrom]. destruct s as [| y s]; [reflexivity |].
  rewrite (IH Hs).
  destruct (Ascii.eqb x "/" && Ascii.eqb y "*"); [| reflexivity].
  apply includes_cons in Hs. destruct Hs as [_ Hs].
  now rewrite (@afterBlockEnd_none _ Hs).
Qed.

Lemma stripBlockFrom_unopened (s : string) :
  includes s "/*" = false -> stripBlockFrom 0 s = s.
Proof.
  induction s as [| x s IH]; intros H; [reflexivity |].
  apply includes_cons in H. destruct H as [Hp Hs].
  destruct s as [| y s]; [reflexivity |].
  rewrite stripBlockFrom_copy; [| exact Hp | discriminate].
  now rewrite (IH Hs).
Qed.

Lemma atLineTerminator_append (x : ascii) (body t rest : string) :
  atLineTerminator (String x body) = false ->
  In t lineTerminators ->
  atLineTerminator (String x body ++ t ++ rest) = false.
Proof.
  intros Hx Ht.
  change (String x body ++ t ++ rest) with (String x (body ++ t ++ rest)).
  unfold atLineTerminator in *.
  destruct (Ascii.eqb x "010"); [discriminate |].
  destruct (Ascii.eqb x "013"); [discriminate |].
  destruct (Ascii.eqb x "226"); [| reflexivity].
  cbn [orb andb] in *.
  destruct body as [| d [| e body]].
  - destruct Ht as [<- | [<- | [<- | [<- | []]]]];
      cbn [append]; try reflexivity; now destruct rest.
  - destruct Ht as [<- | [<- | [<- | [<- | []]]]];
      cbn [append]; destruct (Ascii.eqb d "128"); reflexivity.
  - exact Hx.
Qed.

Lemma stripLineFrom_terminator (t rest : string) :
  In t lineTerminators ->
  stripLineFrom true (t ++ rest) = t ++ stripLineFrom false rest.
Proof.
  intros [<- | [<- | [<- | [<- | []]]]]; try reflexivity;
    now destruct rest.
Qed.

Lemma stripLineFrom_comment (body t rest : string) :
  hasLineTerminator body = false ->
  In t lineTerminators ->
  stripLineFrom true (body ++ t ++ rest) = t ++ stripLineFrom false rest.
Proof.
  intros Hb Ht. induction body as [| x body IH].
  - exact (@stripLineFrom_terminator t rest Ht).
  - cbn [hasLineTerminator] in Hb. apply Bool.orb_false_elim in Hb.
    destruct Hb as [Hx Hb].
    pose proof (@atLineTerminator_append x body t rest Hx Ht) as Hgo.
    change (String x body ++ t ++ rest)
      with (String x (body ++ t ++ rest)) in *.
    cbn [stripLineFrom]. rewrite Hgo. now apply IH.
Qed.

Lemma stripLineFrom_comment_end (b : string) :
  hasLineTerminator b = false -> stripLineFrom true b = EmptyString.
Proof.
  induction b as [| x b IH]; intros Hb; [reflexivity |].
  cbn [hasLineTerminator] in Hb. apply Bool.orb_false_elim in Hb.
  destruct Hb as [Hx Hb].
  cbn [stripLineFrom]. rewrite Hx. now apply IH.
Qed.

Lemma stripLineFrom_copy (x : ascii) (s : string) :
  String.prefix "//" (String x s) = false ->
  s <> EmptyString ->
  stripLineFrom false (String x s) = String x (stripLineFrom false s).
Proof.
  intros Hp Hne. destruct s as [| y s]; [congruence |].
  cbn [stripLineFrom].
  destruct (Ascii.eqb_spec x "/") as [-> |]; [| reflexivity].
  destruct (Ascii.eqb_spec y "/") as [-> |]; [| reflexivity].
  now rewrite prefix_two_here in Hp.
Qed.

Lemma stripLineFrom_plain (s : string) :
  includes s "//" = false -> stripLineFrom false s = s.
Proof.
  induction s as [| x s IH]; intros H; [reflexivity |].
  apply includes_cons in H. destruct H as [Hp Hs].
  destruct s as [| y s]; [reflexivity |].
  rewrite stripLineFrom_copy; [| exact Hp | discriminate].
  now rewrite (IH Hs).
Qed.

Lemma stripLineFrom_before (a r : string) :
  includes (a ++ "/") "//" = false ->
  stripLineFrom false (a ++ "//" ++ r) = a ++ stripLineFrom true ("/" ++ r).
Proof.
  induction a as [| x a IH]; intros H.
  - reflexivity.
  - change (String x a ++ "/") with (String x (a ++ "/")) in H.
    apply includes_cons in H. destruct H as [Hp Ha].
    change (String x a ++ "//" ++ r) with (String x (a ++ "//" ++ r)).
    rewrite stripLineFrom_copy.
    + rewrite (IH Ha). reflexivity.
    + destruct a as [| y a].
      * change (String.prefix "//" (String x (String "/" EmptyString)) = false)
          in Hp.
        change (String.prefix "//" (String x (String "/" (String "/" r)))
                = false).
        rewrite prefix_two in *. exact Hp.
      * change (String.prefix "//" (String x (String y (a ++ "/"))) = false)
          in Hp.
        change (String.prefix "//" (String x (String y (a ++ "//" ++ r)))
                = false).
        rewrite prefix_two in *. exact Hp.
    + now destruct a.
Qed.

Lemma stripBlockFrom_before (a r : string) :
  includes a "/*" = false ->
  stripBlockFrom 0 (a ++ "/*" ++ r) = a ++ stripBlockFrom 0 ("/*" ++ r).
Proof.
  induction a as [| x a IH]; intros H; [reflexivity |].
  apply includes_cons in H. destruct H as [Hp Ha].
  change (String x a ++ "/*" ++ r) with (String x (a ++ "/*" ++ r)).
  rewrite stripBlockFrom_copy.
  - rewrite (IH Ha). reflexivity.
  - destruct a as [| y a].
    + change (String.prefix "/*" (String x (String "/" (String "*" r)))
              = false).
      rewrite prefix_two. apply Bool.andb_false_r.
    + change (String.prefix "/*" (String x (String y (a ++ "/*" ++ r)))
              = false).
      rewrite prefix_two in *. exact Hp.
  - now destruct a.
Qed.

(** X19: the first [replace] removes a block comment from its [/*] to the
    first [*/] after it and goes on behind it, whatever the text before and
    inside - string literals included: a [/*] inside a string opens a
    comment as well. *)
Theorem block_comment_runs_to_first_closer (before body rest : string)
  (Hbefore : includes before "/*" = false)
  (Hbody : includes body "*/" = false) :
  stripBlockComments (before ++ "/*" ++ body ++ "*/" ++ rest)
  = before ++ stripBlockComments rest.
Proof.
  unfold stripBlockComments.
  rewrite (@stripBlockFrom_before _ _ Hbefore).
  now rewrite (@stripBlockFrom_opener _ _ Hbody).
Qed.

Lemma block_comment_runs_to_first_closer_witness :
  includes "{ 'paths': { '@" "/*" = false
  /\ includes "': ['src/*'] /* the alias " "*/" = false
  /\ stripBlockComments
       "{ 'paths': { '@/*': ['src/*'] /* the alias */ } }"
     = "{ 'paths': { '@ } }".
Proof.
  split; [reflexivity | split; [reflexivity |]].
  exact (@block_comment_runs_to_first_closer
           "{ 'paths': { '@" "': ['src/*'] /* the alias "
           " } }" eq_refl eq_refl).
Defined.

(** X20: the second [replace] removes a line comment from its [//] to the
    end of the line - the first LF, CR, U+2028 or U+2029 - keeping the line
    terminator, and goes on behind it; a comment on the last line is
    removed to the end of the text.  A [//] inside a string literal opens a
    comment as well. *)
Theorem line_comment_runs_to_end_of_line
  (before body terminator rest : string)
  (Hbefore : includes (before ++ "/") "//" = false)
  (Hbody : hasLineTerminator body = false)
  (Hterm : In terminator lineTerminators) :
  stripLineComments (before ++ "//" ++ body ++ terminator ++ rest)
  = before ++ terminator ++ stripLineComments rest
  /\ stripLineComments (before ++ "//" ++ body) = before.
Proof.
  assert (Hb : hasLineTerminator (String "/" body) = false) by exact Hbody.
  unfold stripLineComments. split.
  - rewrite (@stripLineFrom_before _ _ Hbefore).
    change ("/" ++ body ++ terminator ++ rest)
      with (String "/" body ++ terminator ++ rest).
    now rewrite (@stripLineFrom_comment _ _ _ Hb Hterm).
  - rewrite (@stripLineFrom_before _ _ Hbefore).
    change ("/" ++ body) with (String "/" body).
    rewrite (@stripLineFrom_comment_end _ Hb).
    clear. induction before as [| x b IH]; [reflexivity |].
    simpl. now rewrite IH.
Qed.

Lemma line_comment_runs_to_end_of_line_witness :
  includes ("{ 'baseUrl': 'http:" ++ "/") "//" = false
  /\ hasLineTerminator "host/src' }" = false
  /\ stripLineComments
       ("{ 'baseUrl': 'http:" ++ "//" ++ "host/src' }"
          ++ String "226" (String "128" (String "168" EmptyString)) ++ "{}")
     = "{ 'baseUrl': 'http:"
         ++ String "226" (String "128" (String "168" EmptyString)) ++ "{}"
  /\ stripLineComments
       ("{ 'baseUrl': 'http:" ++ "//" ++ "host/src' }" ++ String "010" "{}")
     = "{ 'baseUrl': 'http:" ++ String "010" "{}".
Proof.
  split; [reflexivity | split; [reflexivity | split]].
  - refine (eq_trans
              (proj1 (@line_comment_runs_to_end_of_line
                        "{ 'baseUrl': 'http:" "host/src' }"
                        (String "226" (String "128" (String "168" EmptyString)))
                        "{}" eq_refl eq_refl _)) _);
      [right; right; left; reflexivity | reflexivity].
  - refine (eq_trans
              (proj1 (@line_comment_runs_to_end_of_line
                        "{ 'baseUrl': 'http:" "host/src' }"
                        (String "010" EmptyString)
                        "{}" eq_refl eq_refl _)) _);
      [left; reflexivity | reflexivity].
Defined.

(** X21: a text without a [//], in which a [/*] or a [*/] is missing, is
    left as it is: a configuration without comments parses as written, its
    wildcard aliases included, and an unterminated block comment is not
    removed. *)
Theorem text_without_comments_is_kept (content : string)
  (Hblock : includes content "/*" = false \/ includes content "*/" = false)
  (Hline : includes content "//" = false) :
  stripJsonComments content = content.
Proof.
  unfold stripJsonComments, stripBlockComments, stripLineComments.
  assert (Hb : stripBlockFrom 0 content = content).
  { destruct Hblock as [H | H];
      [now apply stripBlockFrom_unopened
      | now apply stripBlockFrom_unterminated]. }
  rewrite Hb. now apply stripLineFrom_plain.
Qed.

Lemma text_without_comments_is_kept_witness :
  stripJsonComments
    "{ 'compilerOptions': { 'paths': { '@/*': ['src/*'] } } }"
  = "{ 'compilerOptions': { 'paths': { '@/*': ['src/*'] } } }".
Proof.
  apply (@text_without_comments_is_kept
           "{ 'compilerOptions': { 'paths': { '@/*': ['src/*'] } } }");
    [right; reflexivity | reflexivity].
Defined.

(** ** Applying the sorted order to a group *)

Lemma indices_get_set_same (m : TabIndices) (t : Tab) (i : nat) :
  indices_get (indices_set m t i) t = Some i.
Proof.
  induction m as [| [t' i'] m IH]; simpl.
  - destruct (Tab_eq_dec t t); congruence.
  - destruct (Tab_eq_dec t' t) as [E | E]; simpl.
    + destruct (Tab_eq_dec t' t); congruence.
    + destruct (Tab_eq_dec t' t); [congruence | exact IH].
Qed.

Lemma indices_get_set_other (m : TabIndices) (t t' : Tab) (i : nat) :
  t <> t' -> indices_get (indices_set m t i) t' = indices_get m t'.
Proof.
  intros Hne. induction m as [| [u j] m IH]; simpl.
  - destruct (Tab_eq_dec t t'); congruence.
  - destruct (Tab_eq_dec u t) as [E | E]; simpl.
    + subst u. destruct (Tab_eq_dec t t'); congruence.
    + destruct (Tab_eq_dec u t'); [reflexivity | exact IH].
Qed.

Lemma indices_get_shift (c k : nat) (m : TabIndices) (t : Tab) :
  indices_get (shiftIndices c k m) t
  = option_map (shiftIndex c k) (indices_get m t).
Proof.
  induction m as [| [u j] m IH]; simpl; [reflexivity |].
  destruct (Tab_eq_dec u t); [reflexivity | exact IH].
Qed.

Lemma indexTabs_other (tabs : list Tab) :
  forall (k : nat) (m : TabIndices) (t : Tab),
    ~ In t tabs ->
    indices_get (indexTabs tabs k m) t = indices_get m t.
Proof.
  induction tabs as [| a rest IH]; intros k m t Hn; simpl; [reflexivity |].
  rewrite IH by (intros H; apply Hn; now right).
  apply indices_get_set_other. intros E. apply Hn. now left.
Qed.

Lemma indexTabs_mirrors (tabs : list Tab) :
  NoDup tabs ->
  forall (k : nat) (m : TabIndices), Mirrors (indexTabs tabs k m) tabs k.
Proof.
  unfold Mirrors. induction 1 as [| a rest Ha _ IH]; intros k m; simpl;
    [reflexivity |].
  rewrite IH. f_equal.
  rewrite (@indexTabs_other rest (S k) _ a Ha).
  apply indices_get_set_same.
Qed.

Lemma app_inj_length (A : Type) (a a' b b' : list A) :
  length a = length a' -> (a ++ b = a' ++ b')%list -> a = a' /\ b = b'.
Proof.
  revert a'. induction a as [| x a IH]; intros [| y a'] Hl H;
    try discriminate; simpl in *; [auto |].
  injection H as -> H. injection Hl as Hl.
  destruct (IH a' Hl H) as [-> ->]. auto.
Qed.

Lemma mirrors_app (m : TabIndices) (a b : list Tab) (k : nat) :
  Mirrors m (a ++ b) k <-> Mirrors m a k /\ Mirrors m b (k + length a).
Proof.
  unfold Mirrors. rewrite map_app, length_app, seq_app, map_app. split.
  - apply app_inj_length. now rewrite !length_map, length_seq.
  - intros [-> ->]. reflexivity.
Qed.

Lemma mirrors_cons (m : TabIndices) (t : Tab) (l : list Tab) (k : nat) :
  Mirrors m (t :: l) k <-> indices_get m t = Some k /\ Mirrors m l (S k).
Proof.
  unfold Mirrors. simpl. split.
  - intros H. injection H as H1 H2. auto.
  - intros [-> ->]. reflexivity.
Qed.

Lemma map_seq_shift (f : nat -> nat) (len : nat) :
  forall k k',
    (forall i, i < len -> f (k + i) = k' + i) ->
    map f (seq k len) = seq k' len.
Proof.
  induction len as [| len IH]; intros k k' H; simpl; [reflexivity |].
  f_equal.
  - rewrite <- (Nat.add_0_r k), <- (Nat.add_0_r k'). apply H. lia.
  - apply IH. intros i Hi.
    replace (S k + i) with (k + S i) by lia.
    replace (S k' + i) with (k' + S i) by lia. apply H. lia.
Qed.

Lemma mirrors_shift (m : TabIndices) (l : list Tab) (k k' c target v : nat)
  (tab : Tab) :
  Mirrors m l k ->
  ~ In tab l ->
  (forall i, i < length l -> shiftIndex c target (k + i) = k' + i) ->
  Mirrors (indices_set (shiftIndices c target m) tab v) l k'.
Proof.
  unfold Mirrors. intros Hm Hn Hs.
  rewrite <- (@map_seq_shift (shiftIndex c target) (length l) k k' Hs).
  transitivity (map (fun x => option_map (shiftIndex c target)
                                (indices_get m x)) l).
  - apply map_ext_in. intros x Hx.
    rewrite indices_get_set_other by (intros E; subst; contradiction).
    apply indices_get_shift.
  - rewrite <- (map_map (indices_get m) (option_map (shiftIndex c target))).
    rewrite Hm, !map_map. reflexivity.
Qed.

Lemma moveRight_here (t x : Tab) (pre r : list Tab) :
  ~ In t pre ->
  moveRight t (pre ++ t :: x :: r) = (pre ++ x :: t :: r)%list.
Proof.
  induction pre as [| a pre IH]; intros Hn; simpl.
  - destruct (Tab_eq_dec t t); congruence.
  - destruct (Tab_eq_dec a t) as [E | _];
      [exfalso; apply Hn; now left |].
    rewrite IH; [reflexivity |]. intros H. apply Hn. now right.
Qed.

Lemma moveLeft_here (t x : Tab) (pre r : list Tab) :
  ~ In t pre -> x <> t ->
  moveLeft t (pre ++ x :: t :: r) = (pre ++ t :: x :: r)%list.
Proof.
  induction pre as [| a pre IH]; intros Hn Hx.
  - simpl. destruct (Tab_eq_dec t t); congruence.
  - assert (Hpre : ~ In t pre) by (intros H; apply Hn; now right).
    change ((a :: pre) ++ x :: t :: r)%list
      with (a :: (pre ++ x :: t :: r))%list.
    cbn [moveLeft]. rewrite (IH Hpre Hx).
    destruct pre as [| b pre]; cbn [app].
    + destruct (Tab_eq_dec x t); [contradiction | reflexivity].
    + destruct (Tab_eq_dec b t) as [E | _]; [| reflexivity].
      exfalso. apply Hn. right. now left.
Qed.

Lemma executeTimes_right (t : Tab) (mid : list Tab) :
  forall pre post,
    ~ In t pre -> ~ In t mid ->
    editors (executeTimes (length mid) moveEditorRightInGroup
               {| editors := pre ++ t :: mid ++ post;
                  activeEditor := Some t |})
    = (pre ++ mid ++ t :: post)%list.
Proof.
  induction mid as [| x mid IH]; intros pre post Hp Hm; [reflexivity |].
  cbn [length executeTimes]. unfold executeCommand. cbn [activeEditor editors].
  change ((x :: mid) ++ post)%list with (x :: (mid ++ post))%list.
  rewrite (@moveRight_here t x pre (mid ++ post) Hp).
  replace (pre ++ x :: t :: mid ++ post)%list
    with ((pre ++ [x]) ++ t :: mid ++ post)%list
    by (rewrite <- app_assoc; reflexivity).
  rewrite IH.
  - rewrite <- app_assoc. reflexivity.
  - intros H. apply in_app_or in H. destruct H as [H | [H | []]];
      [contradiction |]. apply Hm. now left.
  - intros H. apply Hm. now right.
Qed.

Lemma executeTimes_left (t : Tab) (mid : list Tab) :
  forall pre post,
    ~ In t pre -> ~ In t mid ->
    editors (executeTimes (length mid) moveEditorLeftInGroup
               {| editors := pre ++ mid ++ t :: post;
                  activeEditor := Some t |})
    = (pre ++ t :: mid ++ post)%list.
Proof.
  induction mid as [| x mid IH] using rev_ind; intros pre post Hp Hm;
    [reflexivity |].
  rewrite length_app. cbn [length]. rewrite Nat.add_1_r.
  cbn [executeTimes]. unfold executeCommand. cbn [activeEditor editors].
  assert (Hx : x <> t).
  { intros E. apply Hm. apply in_or_app. right. now left. }
  assert (Hmid : ~ In t mid).
  { intros H. apply Hm. apply in_or_app. now left. }
  replace (pre ++ (mid ++ [x]) ++ t :: post)%list
    with ((pre ++ mid) ++ x :: t :: post)%list
    by (rewrite <- !app_assoc; reflexivity).
  rewrite moveLeft_here;
    [| intros H; apply in_app_or in H; tauto | exact Hx].
  rewrite <- app_assoc.
  rewrite (IH pre (x :: post) Hp Hmid).
  rewrite <- !app_assoc. reflexivity.
Qed.

Ltac shift_cases :=
  unfold shiftIndex;
  repeat match goal with
         | |- context [(?a <? ?b)%nat] => destruct (Nat.ltb_spec a b)
         | |- context [(?a <=? ?b)%nat] => destruct (Nat.leb_spec a b)
         end;
  cbn [andb]; lia.

(** One iteration either leaves the state as it is - the tab is in place
    or has no [uri] - or takes the tab to the right over the editors
    between it and its target, or to the left; in each case the indices
    mirror the group afterwards. *)
Lemma moveTab_spec (sortedTabs : list Tab) (target : nat) (s : Organizing)
  (tab : Tab) :
  NoDup (editors (group s)) ->
  Mirrors (currentIndices s) (editors (group s)) 0 ->
  nth_error sortedTabs target = Some tab ->
  In tab (editors (group s)) ->
  target < length (editors (group s)) ->
  (moveTab sortedTabs target s = s
   /\ exists pre post,
        editors (group s) = (pre ++ tab :: post)%list
        /\ (length pre = target \/ hasUri tab = false))
  \/ (exists pre mid post,
        editors (group s) = (pre ++ tab :: mid ++ post)%list
        /\ length pre + length mid = target
        /\ editors (group (moveTab sortedTabs target s))
           = (pre ++ mid ++ tab :: post)%list
        /\ executed (moveTab sortedTabs target s)
           = (executed s
                ++ repeat moveEditorRightInGroup (length mid))%list
        /\ Mirrors (currentIndices (moveTab sortedTabs target s))
             (pre ++ mid ++ tab :: post) 0)
  \/ (exists pre mid post,
        editors (group s) = (pre ++ mid ++ tab :: post)%list
        /\ length pre = target
        /\ mid <> []
        /\ editors (group (moveTab sortedTabs target s))
           = (pre ++ tab :: mid ++ post)%list
        /\ executed (moveTab sortedTabs target s)
           = (executed s
                ++ repeat moveEditorLeftInGroup (length mid))%list
        /\ Mirrors (currentIndices (moveTab sortedTabs target s))
             (pre ++ tab :: mid ++ post) 0).
Proof.
  intros Hnd Hm Hnth Hin Hlt.
  destruct (in_split _ _ Hin) as (pre & post0 & EL).
  rewrite EL in Hnd, Hm, Hlt.
  pose proof (NoDup_remove_2 _ _ _ Hnd) as Hout.
  assert (Hpre : ~ In tab pre)
    by (intros H; apply Hout; apply in_or_app; now left).
  assert (Hpost0 : ~ In tab post0)
    by (intros H; apply Hout; apply in_or_app; now right).
  apply mirrors_app in Hm. destruct Hm as [Mpre Mrest].
  apply mirrors_cons in Mrest. destruct Mrest as [Gtab Mpost0].
  cbn [Nat.add] in Gtab, Mpost0.
  rewrite length_app in Hlt. cbn [length] in Hlt.
  unfold moveTab. rewrite Hnth, Gtab.
  destruct (Nat.eqb_spec (length pre) target) as [Eq | Hne].
  { left. split; [reflexivity |]. exists pre, post0. auto. }
  destruct (hasUri tab) eqn:Euri; cbn [negb];
    [| left; split; [reflexivity |]; exists pre, post0; auto].
  destruct (Nat.ltb_spec target (length pre)) as [Hleft | Hright].
  - (* to the left *)
    right. right.
    assert (Hsplit : exists p1 mid,
               pre = (p1 ++ mid)%list /\ length p1 = target).
    { exists (firstn target pre), (skipn target pre). split.
      - symmetry. apply firstn_skipn.
      - apply firstn_length_le. lia. }
    destruct Hsplit as (p1 & mid & -> & Lp).
    rewrite length_app in Hleft, Hne, Gtab, Mpost0 |- *.
    assert (Hp1 : ~ In tab p1)
      by (intros H; apply Hpre; apply in_or_app; now left).
    assert (Hp2 : ~ In tab mid)
      by (intros H; apply Hpre; apply in_or_app; now right).
    apply mirrors_app in Mpre. destruct Mpre as [M1 M2].
    rewrite Lp in *. cbn [Nat.add] in M2.
    exists p1, mid, post0.
    split; [rewrite EL; now rewrite <- app_assoc |].
    split; [exact Lp |].
    split; [intros E; subst mid; cbn [length] in Hleft; lia |].
    cbn [group executed currentIndices].
    replace (target + length mid - target) with (length mid) by lia.
    split; [| split; [reflexivity |]].
    + unfold showTextDocument. rewrite EL. cbn [editors].
      rewrite <- app_assoc.
      now apply executeTimes_left.
    + apply mirrors_app. split.
      * apply (@mirrors_shift _ _ 0 0 _ _ _ _ M1 Hp1).
        intros i Hi. rewrite Lp in Hi. shift_cases.
      * apply mirrors_cons. rewrite Lp. cbn [Nat.add].
        split; [apply indices_get_set_same |].
        apply mirrors_app. split.
        -- apply (@mirrors_shift _ _ target (S target) _ _ _ _ M2 Hp2).
           intros i Hi. shift_cases.
        -- apply (@mirrors_shift _ _ (S (target + length mid))
                    (S target + length mid) _ _ _ _ Mpost0 Hpost0).
           intros i Hi. shift_cases.
  - (* to the right *)
    right. left.
    assert (Hsplit : exists mid post,
               post0 = (mid ++ post)%list
               /\ length pre + length mid = target).
    { exists (firstn (target - length pre) post0),
        (skipn (target - length pre) post0). split.
      - symmetry. apply firstn_skipn.
      - rewrite firstn_length_le; lia. }
    destruct Hsplit as (mid & post & -> & Lm).
    assert (Hp1 : ~ In tab mid)
      by (intros H; apply Hpost0; apply in_or_app; now left).
    assert (Hp2 : ~ In tab post)
      by (intros H; apply Hpost0; apply in_or_app; now right).
    apply mirrors_app in Mpost0. destruct Mpost0 as [M1 M2].
    exists pre, mid, post.
    split; [exact EL |].
    split; [exact Lm |].
    cbn [group executed currentIndices].
    replace (target - length pre) with (length mid) by lia.
    split; [| split; [reflexivity |]].
    + unfold showTextDocument. rewrite EL. cbn [editors].
      now apply executeTimes_right.
    + apply mirrors_app. split.
      * apply (@mirrors_shift _ _ 0 0 _ _ _ _ Mpre Hpre).
        intros i Hi. shift_cases.
      * apply mirrors_app. split.
        -- apply (@mirrors_shift _ _ (S (length pre)) (0 + length pre)
                    _ _ _ _ M1 Hp1).
           intros i Hi. shift_cases.
        -- apply mirrors_cons.
           replace (0 + length pre + length mid) with target by lia.
           split; [apply indices_get_set_same |].
           apply (@mirrors_shift _ _ (S (length pre) + length mid) (S target)
                    _ _ _ _ M2 Hp2).
           intros i Hi. shift_cases.
Qed.

Lemma skipn_nth (A : Type) (l : list A) :
  forall (n : nat) (x : A),
    nth_error l n = Some x -> skipn n l = x :: skipn (S n) l.
Proof.
  induction l as [| a l IH]; intros [| n] x H; simpl in *; try discriminate.
  - now injection H as ->.
  - now apply IH.
Qed.

Lemma skipn_exact (A : Type) (a b : list A) (n : nat) :
  length a = n -> skipn n (a ++ b) = b.
Proof.
  intros <-. rewrite skipn_app, skipn_all, Nat.sub_diag. reflexivity.
Qed.

Lemma later_tabs_differ (l : list Tab) (n : nat) (x : Tab) :
  NoDup l -> nth_error l n = Some x -> ~ In x (skipn (S n) l).
Proof.
  intros Hnd Hn Hin.
  pose proof (firstn_skipn n l) as E. rewrite (skipn_nth _ _ Hn) in E.
  rewrite <- E in Hnd. apply NoDup_remove_2 in Hnd.
  apply Hnd. apply in_or_app. now right.
Qed.

Lemma permutation_moved (pre mid post : list Tab) (tab : Tab) :
  Permutation (pre ++ tab :: mid ++ post) (pre ++ mid ++ tab :: post).
Proof. apply Permutation_app_head. apply Permutation_middle. Qed.


(** When every tab has a [uri], the loop fills the group from the right
    with the sorted tabs, and only ever moves a tab to the right. *)
Lemma moveTabs_sorted (sortedTabs : list Tab) :
  NoDup sortedTabs ->
  (forall t, In t sortedTabs -> hasUri t = true) ->
  forall (n : nat) (s : Organizing),
    n <= length sortedTabs ->
    Permutation sortedTabs (editors (group s)) ->
    Mirrors (currentIndices s) (editors (group s)) 0 ->
    skipn n (editors (group s)) = skipn n sortedTabs ->
    Forall (eq moveEditorRightInGroup) (executed s) ->
    editors (group (moveTabs sortedTabs n s)) = sortedTabs
    /\ Forall (eq moveEditorRightInGroup)
         (executed (moveTabs sortedTabs n s)).
Proof.
  intros Hnd Huri.
  induction n as [| target IH]; intros s Hn Hperm Hm Hsuffix Hright; [auto |].
  cbn [moveTabs].
  destruct (nth_error sortedTabs target) as [tab |] eqn:Hnth;
    [| apply nth_error_None in Hnth; lia].
  assert (HndL : NoDup (editors (group s)))
    by (eapply Permutation_NoDup; eassumption).
  assert (HinS : In tab sortedTabs) by (eapply nth_error_In; eassumption).
  assert (Hin : In tab (editors (group s)))
    by (eapply Permutation_in; eassumption).
  assert (Hlt : target < length (editors (group s)))
    by (rewrite <- (Permutation_length Hperm); lia).
  pose proof (@later_tabs_differ sortedTabs target tab Hnd Hnth) as Hlater.
  destruct (@moveTab_spec sortedTabs target s tab HndL Hm Hnth Hin Hlt)
    as [[E (pre & post & EL & Hplace)]
       | [(pre & mid & post & EL & Lt & E' & X' & M')
         | (pre & mid & post & EL & Lt & Hmid & _)]].
  - destruct Hplace as [Lp | Hno];
      [| rewrite (Huri tab HinS) in Hno; discriminate].
    rewrite E. apply IH; [lia | assumption | assumption | | assumption].
    rewrite (skipn_nth _ _ Hnth), <- Hsuffix, EL.
    rewrite (@skipn_exact _ pre (tab :: post) target Lp).
    replace (pre ++ tab :: post)%list with ((pre ++ [tab]) ++ post)%list
      by (rewrite <- app_assoc; reflexivity).
    rewrite skipn_exact; [reflexivity |].
    rewrite length_app. cbn [length]. lia.
  - apply IH.
    + lia.
    + rewrite E'. eapply Permutation_trans; [exact Hperm |].
      rewrite EL. apply permutation_moved.
    + now rewrite E'.
    + rewrite E', (skipn_nth _ _ Hnth), <- Hsuffix, EL.
      replace (pre ++ mid ++ tab :: post)%list
        with ((pre ++ mid) ++ tab :: post)%list
        by (rewrite <- app_assoc; reflexivity).
      rewrite skipn_exact by (rewrite length_app; lia).
      replace (pre ++ tab :: mid ++ post)%list
        with ((pre ++ tab :: mid) ++ post)%list
        by (rewrite <- app_assoc; reflexivity).
      rewrite skipn_exact; [reflexivity |].
      rewrite length_app. cbn [length]. lia.
    + rewrite X'. apply Forall_app. split; [assumption |].
      apply Forall_forall. intros c Hc. symmetry.
      eapply repeat_spec. eassumption.
  - exfalso. apply Hlater. rewrite <- Hsuffix, EL.
    destruct mid as [| x mid]; [congruence |].
    replace (pre ++ (x :: mid) ++ tab :: post)%list
      with ((pre ++ [x]) ++ mid ++ tab :: post)%list
      by (rewrite <- app_assoc; reflexivity).
    rewrite skipn_exact by (rewrite length_app; cbn [length]; lia).
    apply in_or_app. right. now left.
Qed.

(** X22: when the tabs of the group are distinct, all have a [uri], and
    the strategy returned a permutation of them, [organize] leaves the
    group in the sorted order, and every command it executes moves an
    editor to the right: the branch for a move to the left is not taken. *)
Theorem organize_reaches_sorted_order (tabs sortedTabs : list Tab)
  (Hdistinct : NoDup tabs)
  (Hperm : Permutation tabs sortedTabs)
  (Huri : forall t, In t tabs -> hasUri t = true) :
  editors (group (organizeGroup tabs sortedTabs)) = sortedTabs
  /\ Forall (eq moveEditorRightInGroup)
       (executed (organizeGroup tabs sortedTabs)).
Proof.
  unfold organizeGroup.
  destruct (Nat.eqb_spec (length tabs) 0) as [E | _].
  - apply length_zero_iff_nil in E. subst tabs.
    apply Permutation_nil in Hperm. subst sortedTabs. auto.
  - apply moveTabs_sorted.
    + eapply Permutation_NoDup; eassumption.
    + intros t Ht. apply Huri.
      eapply Permutation_in; [apply Permutation_sym; exact Hperm | exact Ht].
    + lia.
    + now apply Permutation_sym.
    + now apply indexTabs_mirrors.
    + cbn [group editors].
      rewrite skipn_all, <- (Permutation_length Hperm), skipn_all.
      reflexivity.
    + constructor.
Qed.

Lemma organize_reaches_sorted_order_witness :
  let tabs := MoreFixtures.chainTabs in
  let sortedTabs := alphabeticalSort Fixture.codePointCompare tabs in
  editors (group (organizeGroup tabs sortedTabs))
  = [Fixture.tab 3 "/p/a.ts"; Fixture.tab 2 "/p/b.ts"; Fixture.tab 1 "/p/c.ts"]
  /\ executed (organizeGroup tabs sortedTabs)
     = [moveEditorRightInGroup; moveEditorRightInGroup;
        moveEditorRightInGroup].
Proof.
  intros tabs sortedTabs.
  assert (H : editors (group (organizeGroup tabs sortedTabs)) = sortedTabs
              /\ Forall (eq moveEditorRightInGroup)
                   (executed (organizeGroup tabs sortedTabs))).
  { apply organize_reaches_sorted_order.
    - repeat constructor; simpl; intuition discriminate.
    - apply arraySort_perm.
    - intros t [<- | [<- | [<- | []]]]; reflexivity. }
  split; [exact (proj1 H) | reflexivity].
Defined.



(** ** The file system strategy *)

Section ArraySortOn.
Variable A : Type.
Variable cmp : A -> A -> Z.
Variable P : A -> Prop.
Hypothesis total_on :
  forall a b, P a -> P b -> (cmp a b <= 0 \/ cmp b a <= 0)%Z.
Hypothesis trans_on :
  forall a b c, P a -> P b -> P c ->
                (cmp a b <= 0 -> cmp b c <= 0 -> cmp a c <= 0)%Z.

Lemma insertSorted_sorted_on (x : A) (l : list A) :
  P x -> Forall P l ->
  StronglySorted (fun a b => (cmp a b <= 0)%Z) l ->
  StronglySorted (fun a b => (cmp a b <= 0)%Z) (insertSorted cmp x l).
Proof.
  intros Px. induction l as [| y l IH]; intros HP Hs; simpl.
  - constructor; constructor.
  - inversion Hs as [| ? ? Hl Hy]; subst.
    inversion HP as [| ? ? Py HPl]; subst.
    destruct (Z.ltb_spec 0 (cmp x y)) as [Hgt | Hle].
    + constructor; [auto |].
      apply Forall_forall. intros z Hz.
      apply (Permutation_in _ (Permutation_sym (insertSorted_perm cmp x l)))
        in Hz.
      destruct Hz as [<- | Hz].
      * destruct (total_on Px Py); [lia | assumption].
      * rewrite Forall_forall in Hy. auto.
    + constructor; [assumption |].
      constructor; [assumption |].
      rewrite Forall_forall in Hy, HPl |- *.
      intros z Hz. eapply (@trans_on x y z); auto.
Qed.

Lemma arraySort_sorted_on (l : list A) :
  Forall P l ->
  StronglySorted (fun a b => (cmp a b <= 0)%Z) (arraySort cmp l).
Proof.
  induction l as [| x l IH]; intros HP; simpl; [constructor |].
  inversion HP as [| ? ? Px HPl]; subst.
  apply insertSorted_sorted_on; [assumption | | auto].
  rewrite Forall_forall in HPl |- *. intros z Hz. apply HPl.
  eapply Permutation_in; [apply Permutation_sym; apply arraySort_perm |].
  exact Hz.
Qed.
End ArraySortOn.

Lemma occurrences_append (c : ascii) (a b : string) :
  occurrences c (a ++ b) = occurrences c a + occurrences c b.
Proof.
  induction a as [| x a IH]; simpl; [reflexivity |].
  destruct (Ascii.eqb x c); rewrite IH; reflexivity.
Qed.

Lemma prefix_split (p s : string) :
  String.prefix p s = true -> exists r, s = p ++ r.
Proof.
  revert s. induction p as [| x p IH]; intros s H.
  - exists s. reflexivity.
  - destruct s as [| y s]; simpl in H; [discriminate |].
    destruct (ascii_dec x y) as [<- |]; [| discriminate].
    destruct (IH s H) as [r ->]. exists r. reflexivity.
Qed.

Lemma startsWith_more_separators (sep : ascii) (s p : string) :
  startsWith s (p ++ String sep EmptyString) = true ->
  occurrences sep p < occurrences sep s.
Proof.
  intros H. apply prefix_split in H. destruct H as [r ->].
  rewrite !occurrences_append. simpl. rewrite Ascii.eqb_refl. lia.
Qed.

Section FileSystemFacts.
Variable sep : ascii.
Variable relative : string -> string -> string.
Variable dirname : string -> string.
Variable collate : string -> string -> Z.
Variable root : option string.

Lemma compareFileSystem_flat (a b : Tab) (pathA pathB : string) :
  sortablePath a = Some pathA ->
  sortablePath b = Some pathB ->
  getPathDepth sep (relativeToRoot relative root pathA)
  = getPathDepth sep (relativeToRoot relative root pathB) ->
  occurrences sep (dirname (relativeToRoot relative root pathA))
  = occurrences sep (dirname (relativeToRoot relative root pathB)) ->
  compareFileSystem sep relative dirname collate root a b
  = collate (relativeToRoot relative root pathA)
      (relativeToRoot relative root pathB).
Proof.
  intros Ha Hb Hd Ho. unfold compareFileSystem. rewrite Ha, Hb.
  cbv zeta. rewrite Hd, Nat.eqb_refl. cbn [negb].
  set (dirA := dirname (relativeToRoot relative root pathA)) in *.
  set (dirB := dirname (relativeToRoot relative root pathB)) in *.
  destruct (startsWith dirB (dirA ++ String sep EmptyString)) eqn:E1.
  { apply startsWith_more_separators in E1. lia. }
  destruct (startsWith dirA (dirB ++ String sep EmptyString)) eqn:E2.
  { apply startsWith_more_separators in E2. lia. }
  rewrite !Bool.andb_false_r. reflexivity.
Qed.

Lemma compareFileSystem_deeper (a b : Tab) (pathA pathB : string) :
  sortablePath a = Some pathA ->
  sortablePath b = Some pathB ->
  getPathDepth sep (relativeToRoot relative root pathA)
  <> getPathDepth sep (relativeToRoot relative root pathB) ->
  compareFileSystem sep relative dirname collate root a b
  = (Z.of_nat (getPathDepth sep (relativeToRoot relative root pathA))
     - Z.of_nat (getPathDepth sep (relativeToRoot relative root pathB)))%Z.
Proof.
  intros Ha Hb Hd. unfold compareFileSystem. rewrite Ha, Hb. cbv zeta.
  destruct (Nat.eqb_spec
              (getPathDepth sep (relativeToRoot relative root pathA))
              (getPathDepth sep (relativeToRoot relative root pathB)));
    [contradiction | reflexivity].
Qed.
End FileSystemFacts.

(** X24: when two tabs have the same depth and the directories of their
    relative paths have the same number of separators, the test for a
    parent directory decides nothing and the comparator returns what the
    collation returns: a directory that starts with another one and a
    separator has more separators than it. *)
Theorem parent_directory_test_decides_nothing
  (sep : ascii) (relative : string -> string -> string)
  (dirname : string -> string) (collate : string -> string -> Z)
  (root : option string) (a b : Tab) (pathA pathB : string)
  (Ha : sortablePath a = Some pathA)
  (Hb : sortablePath b = Some pathB)
  (Hdepth : depthOfTab sep relative root a = depthOfTab sep relative root b)
  (Hdirs :
     occurrences sep (dirname (relativeToRoot relative root pathA))
     = occurrences sep (dirname (relativeToRoot relative root pathB))) :
  compareFileSystem sep relative dirname collate root a b
  = collate (relativeToRoot relative root pathA)
      (relativeToRoot relative root pathB).
Proof.
  unfold depthOfTab in Hdepth. rewrite Ha, Hb in Hdepth.
  injection Hdepth as Hdepth.
  now apply compareFileSystem_flat.
Qed.

Lemma parent_directory_test_decides_nothing_witness :
  compareFileSystem "/" (fun _ p => p) Fixture.posixDirname
    Fixture.codePointCompare None
    (Fixture.tab 1 "/p/src/util/a.ts") (Fixture.tab 2 "/p/src/b.ts")
  = 1%Z
  /\ compareFileSystem "/" (fun _ p => p) Fixture.posixDirname
       Fixture.codePointCompare None
       (Fixture.tab 1 "/p/src/a.ts") (Fixture.tab 2 "/p/lib/b.ts")
     = Fixture.codePointCompare "/p/src/a.ts" "/p/lib/b.ts".
Proof.
  split; [reflexivity |].
  exact (@parent_directory_test_decides_nothing "/" (fun _ p => p)
           Fixture.posixDirname Fixture.codePointCompare None
           (Fixture.tab 1 "/p/src/a.ts") (Fixture.tab 2 "/p/lib/b.ts")
           "/p/src/a.ts" "/p/lib/b.ts" eq_refl eq_refl eq_refl eq_refl).
Defined.

(** X25: when the collation is a total preorder and, among the tabs,
    equal depths come with directories of equally many separators,
    [FileSystemStrategy.sort] returns the tabs with a path by ascending
    depth - shallower files first - and, within one depth, in ascending
    order of the collation of their relative paths; the tabs without a
    path come last. *)
Theorem fileSystem_sort_is_by_depth
  (sep : ascii) (relative : string -> string -> string)
  (dirname : string -> string) (collate : string -> string -> Z)
  (root : option string) (tabs : list Tab)
  (Htotal : forall a b, (collate a b <= 0 \/ collate b a <= 0)%Z)
  (Htrans : forall a b c,
      (collate a b <= 0 -> collate b c <= 0 -> collate a c <= 0)%Z)
  (Hdirs : forall a b pathA pathB,
      In a tabs -> In b tabs ->
      sortablePath a = Some pathA -> sortablePath b = Some pathB ->
      getPathDepth sep (relativeToRoot relative root pathA)
      = getPathDepth sep (relativeToRoot relative root pathB) ->
      occurrences sep (dirname (relativeToRoot relative root pathA))
      = occurrences sep (dirname (relativeToRoot relative root pathB))) :
  forall before x middle y after,
    fileSystemSort sep relative dirname collate root tabs
    = (before ++ x :: middle ++ y :: after)%list ->
    match sortablePath x, sortablePath y with
    | Some pathX, Some pathY =>
        getPathDepth sep (relativeToRoot relative root pathX)
        <= getPathDepth sep (relativeToRoot relative root pathY)
        /\ (getPathDepth sep (relativeToRoot relative root pathX)
            = getPathDepth sep (relativeToRoot relative root pathY) ->
            (collate (relativeToRoot relative root pathX)
               (relativeToRoot relative root pathY) <= 0)%Z)
    | None, Some _ => False
    | _, None => True
    end.
Proof.
  set (cmp := compareFileSystem sep relative dirname collate root).
  set (rel := relativeToRoot relative root) in *.
  assert (Hle : forall a b pathA pathB,
             In a tabs -> In b tabs ->
             sortablePath a = Some pathA -> sortablePath b = Some pathB ->
             ((cmp a b <= 0)%Z <->
              getPathDepth sep (rel pathA) < getPathDepth sep (rel pathB)
              \/ (getPathDepth sep (rel pathA) = getPathDepth sep (rel pathB)
                  /\ (collate (rel pathA) (rel pathB) <= 0)%Z))).
  { intros a b pathA pathB Ia Ib Ha Hb.
    destruct (Nat.eq_dec (getPathDepth sep (rel pathA))
                (getPathDepth sep (rel pathB))) as [E | N].
    - unfold cmp.
      rewrite (@compareFileSystem_flat sep relative dirname collate root
                 a b pathA pathB Ha Hb E (Hdirs a b pathA pathB Ia Ib Ha Hb E)).
      fold rel. split; [intros H; right; auto | intros [H | [_ H]]; [lia | auto]].
    - unfold cmp.
      rewrite (@compareFileSystem_deeper sep relative dirname collate root
                 a b pathA pathB Ha Hb N).
      fold rel. split; [intros H; left; lia | intros [H | [H _]]; lia]. }
  assert (Hnone : forall a b,
             sortablePath a = None \/ sortablePath b = None ->
             cmp a b = match sortablePath a, sortablePath b with
                       | None, None => 0
                       | None, Some _ => 1
                       | _, _ => -1
                       end%Z).
  { intros a b H. unfold cmp, compareFileSystem.
    destruct (sortablePath a), (sortablePath b); try reflexivity.
    destruct H; discriminate. }
  assert (Hsorted : StronglySorted (fun a b => (cmp a b <= 0)%Z)
                      (arraySort cmp tabs)).
  { apply (@arraySort_sorted_on Tab cmp (fun t => In t tabs)).
    - intros a b Ia Ib.
      destruct (sortablePath a) as [pa |] eqn:Ea,
               (sortablePath b) as [pb |] eqn:Eb.
      + rewrite (Hle a b pa pb Ia Ib Ea Eb), (Hle b a pb pa Ib Ia Eb Ea).
        destruct (Htotal (rel pa) (rel pb));
          destruct (Nat.lt_trichotomy (getPathDepth sep (rel pa))
                      (getPathDepth sep (rel pb))) as [L | [E | G]];
          try (left; left; exact L); try (right; left; exact G);
          [left | right]; right; split; auto.
      + left. rewrite Hnone by auto. rewrite ?Ea, ?Eb. lia.
      + right. rewrite Hnone by auto. rewrite ?Ea, ?Eb. lia.
      + left. rewrite Hnone by auto. rewrite ?Ea, ?Eb. lia.
    - intros a b c Ia Ib Ic.
      destruct (sortablePath a) as [pa |] eqn:Ea,
               (sortablePath b) as [pb |] eqn:Eb,
               (sortablePath c) as [pc |] eqn:Ec;
        try (rewrite (Hnone a b) by auto); try (rewrite (Hnone b c) by auto);
        try (rewrite (Hnone a c) by auto);
        rewrite ?Ea, ?Eb, ?Ec; try lia.
      rewrite (Hle a b pa pb Ia Ib Ea Eb), (Hle b c pb pc Ib Ic Eb Ec),
        (Hle a c pa pc Ia Ic Ea Ec).
      intros [L1 | [E1 C1]] [L2 | [E2 C2]]; try (left; lia).
      right. split; [lia |]. eapply Htrans; eassumption.
    - apply Forall_forall. auto. }
  intros before x middle y after Hres.
  unfold fileSystemSort in Hres. fold cmp in Hres.
  assert (Hx : In x tabs).
  { eapply Permutation_in;
      [apply Permutation_sym; apply (arraySort_perm cmp) |].
    rewrite Hres. apply in_or_app. right. now left. }
  assert (Hy : In y tabs).
  { eapply Permutation_in;
      [apply Permutation_sym; apply (arraySort_perm cmp) |].
    rewrite Hres. apply in_or_app. right. right.
    apply in_or_app. right. now left. }
  rewrite Hres in Hsorted. apply StronglySorted_earlier in Hsorted.
  destruct (sortablePath x) as [px |] eqn:Ex,
           (sortablePath y) as [py |] eqn:Ey; auto.
  - apply (Hle x y px py Hx Hy Ex Ey) in Hsorted.
    destruct Hsorted as [L | [E C]]; split; try lia; auto.
  - rewrite Hnone in Hsorted by auto. rewrite ?Ex, ?Ey in Hsorted. lia.
Qed.

Lemma fileSystem_sort_is_by_depth_witness :
  fileSystemSort "/" (fun _ p => p) Fixture.posixDirname
    Fixture.codePointCompare None
    [Fixture.tab 1 "/p/src/util/a.ts"; {| tabId := 9; fsPath := None |};
     Fixture.tab 2 "/p/z.ts"; Fixture.tab 3 "/p/src/b.ts"]
  = ([] ++ Fixture.tab 2 "/p/z.ts"
        :: [Fixture.tab 3 "/p/src/b.ts"]
        ++ Fixture.tab 1 "/p/src/util/a.ts"
        :: [{| tabId := 9; fsPath := None |}])%list
  /\ getPathDepth "/" "/p/z.ts" <= getPathDepth "/" "/p/src/util/a.ts".
Proof.
  split; [reflexivity |].
  refine (proj1 (@fileSystem_sort_is_by_depth "/" (fun _ p => p)
                   Fixture.posixDirname Fixture.codePointCompare None
                   [Fixture.tab 1 "/p/src/util/a.ts";
                    {| tabId := 9; fsPath := None |};
                    Fixture.tab 2 "/p/z.ts"; Fixture.tab 3 "/p/src/b.ts"]
                   codePointCompare_total codePointCompare_trans _
                   [] (Fixture.tab 2 "/p/z.ts") [Fixture.tab 3 "/p/src/b.ts"]
                   (Fixture.tab 1 "/p/src/util/a.ts")
                   [{| tabId := 9; fsPath := None |}] eq_refl)).
  intros a b pathA pathB Ia Ib Ha Hb Hd.
  simpl in Ia, Ib.
  destruct Ia as [<- | [<- | [<- | [<- | []]]]];
    destruct Ib as [<- | [<- | [<- | [<- | []]]]];
    try discriminate;
    injection Ha as <-; injection Hb as <-;
    try reflexivity; discriminate.
Defined.

(** ** Memoised extraction *)

(** X26: the set an extraction returns for a file is the set every later
    extraction returns for it, through any extractions and [sort] calls, in
    any environment - whatever has become of the file or of the
    configuration - until [clearCache]; such a later extraction leaves the
    state as it is. *)
Theorem extraction_result_sticks
  (env : Host) (st : Strategy) (filePath : string) :
  forall (env' : Host) (st' : Strategy),
    ReachedWithoutClearing (fst (extractImports env st filePath)) st' ->
    extractImports env' st' filePath
    = (st', snd (extractImports env st filePath)).
Proof.
  intros env' st' Hr. apply extractImports_cached.
  eapply cache_entry_kept; [exact Hr |].
  exact (proj1 (@extractImports_cache env st filePath)).
Qed.

Lemma extraction_result_sticks_witness :
  let env := Fixture.host MoreFixtures.chainWorld in
  let env' := Fixture.host Fixture.mixedCaseWorld in
  let st' := fst (extractImports env' (fst (extractImports env newStrategy
                                              "/p/a.ts")) "/p/c.ts") in
  extractImports env' newStrategy "/p/a.ts"
  = ({| importGraph := []; importCache := [("/p/a.ts", [])];
        pathAliases := None; baseUrl := None |}, [])
  /\ extractImports env' st' "/p/a.ts" = (st', ["/p/b.ts"; "/p/c.ts"]).
Proof.
  intros env env' st'. split; [reflexivity |].
  refine (eq_trans
            (@extraction_result_sticks env newStrategy "/p/a.ts" env' st' _)
            _); [| reflexivity].
  unfold st'. apply reached_extract. apply reached_here.
Defined.

Lemma alias_state_is_loaded_once_witness :
  let env := Fixture.host Fixture.aliasWorld in
  let env' := Fixture.host Fixture.emptyTargetsWorld in
  let st' := fst (extractImports env' (loadPathAliases env newStrategy)
                    "/proj/src/a.ts") in
  pathAliases (loadPathAliases env' newStrategy) = Some []
  /\ pathAliases st' = Some [("@", "src")]
  /\ loadPathAliases env' st' = st'.
Proof.
  intros env env' st'. split; [reflexivity |].
  destruct (proj1 (proj2 (@alias_state_is_loaded_once env newStrategy))
              st' env') as (Ha & _ & Hl).
  - unfold st'. apply reached_extract. apply reached_here.
  - split; [rewrite Ha; reflexivity | exact Hl].
Defined.

Lemma getFileDepth_counts_nonempty_segments_witness :
  getFileDepth ("/proj/src" ++ String "/" "util.ts")
  = getFileDepth "/proj/src" + getFileDepth "util.ts"
  /\ getFileDepth "util.ts" = 1.
Proof.
  split.
  - exact (proj1 getFileDepth_counts_nonempty_segments "/proj/src" "util.ts").
  - exact (proj2 (proj2 getFileDepth_counts_nonempty_segments)
             "til.ts" "u"%char eq_refl).
Defined.
